(** * supybot-git: a shallow embedding of [plugin.py]

    The plugin keeps local mirrors of git repositories up to date from a
    background thread ([GitFetcher]) and, from a scheduled event ([Git._poll]),
    announces the commits that appeared since the last announcement.

    Python objects with identity ([Repository], the IRC connections, the
    on-disk mirrors) live in a store, the record [World]; a method takes the
    reference of [self] (an index or a path) and is a computation in the
    state-and-exception monad [M].  Dictionaries are [gmap]s, iterated in
    the order of [map_to_list], which stands for the arbitrary but fixed
    iteration order of a Python 2 dict.

    The model follows one thread.  A lock is what that thread sees of it
    ([LockState]); a blocking [acquire] of a lock held by another thread
    goes on once that thread has released it, and what the other thread
    wrote meanwhile is not modelled.  Time is a clock in milliseconds that
    [time.sleep] and the exchanges with a remote move forward.

    GitPython, [fnmatch] and the IRC library are not part of the plugin;
    the sections [Git model], [fnmatch] and [Irc] give the behaviour the
    plugin relies on.  Text is a sequence of characters: the final
    [encode('utf-8')] of [format_message] is the identity on it, which is
    what Python 2 does on ASCII text, whether [str] or [unicode]; what is
    stated about formatted text in general is stated for ASCII text
    ([ascii_text]).  Of the registry the model has the entries that
    [config.py] registers and the ones that [plugin.py] asks for
    ([Settings]). *)

From Stdlib Require Import ZArith Lia Ascii.
From stdpp Require Import base option list strings gmap fin_maps pretty.

#[local] Open Scope Z_scope.

(** ** Python strings *)

Module Py.

(** [s.split()] is [String.words]: pieces separated by runs of white space. *)
Definition split_ws : string → list string := String.words.

(** [s.strip()] *)
Fixpoint lstrip (s : string) : string :=
  match s with
  | String c s' => if Ascii.is_space c then lstrip s' else s
  | EmptyString => EmptyString
  end.
Definition strip (s : string) : string :=
  String.rev (lstrip (String.rev (lstrip s))).

(** [s.split(sep)] for a one-character separator: never the empty list. *)
Fixpoint split_on (sep : ascii) (s : string) : list string :=
  match s with
  | EmptyString => [EmptyString]
  | String c s' =>
      if decide (c = sep) then EmptyString :: split_on sep s'
      else match split_on sep s' with
           | piece :: rest => String c piece :: rest
           | [] => [String c EmptyString]
           end
  end.

(** [s[0:n]] *)
Fixpoint take (n : nat) (s : string) : string :=
  match n, s with
  | S n', String c s' => String c (take n' s')
  | _, _ => EmptyString
  end.

(** [s.lower()] on ASCII letters *)
Definition lower_char (c : ascii) : ascii :=
  let n := Ascii.N_of_ascii c in
  if ((65 <=? n) && (n <=? 90))%N then Ascii.ascii_of_N (n + 32) else c.
Fixpoint lower (s : string) : string :=
  match s with
  | EmptyString => EmptyString
  | String c s' => String (lower_char c) (lower s')
  end.

(** [s.startswith(p)] *)
Fixpoint startswith (p s : string) : bool :=
  match p, s with
  | EmptyString, _ => true
  | String a p', String b s' => bool_decide (a = b) && startswith p' s'
  | String _ _, EmptyString => false
  end.

(** [c in s] for a character *)
Fixpoint contains (c : ascii) (s : string) : bool :=
  match s with
  | EmptyString => false
  | String d s' => bool_decide (d = c) || contains c s'
  end.

(** [l[-n:]]: the last [n] elements, and the whole list when [n] is 0,
    since [-0] is [0]. *)
Definition slice_last {A} (n : nat) (l : list A) : list A :=
  match n with
  | O => l
  | S _ => drop (length l - n) l
  end.

(** [os.path.join(a, b)] on POSIX *)
Definition ends_with_slash (s : string) : bool :=
  match String.rev s with
  | String c _ => bool_decide (c = "/"%char)
  | EmptyString => false
  end.
Definition path_join (a b : string) : string :=
  if startswith "/" b then b
  else if bool_decide (a = "") || ends_with_slash a then a +:+ b
  else a +:+ "/" +:+ b.

End Py.

(** ** fnmatch

    [fnmatch.filter(names, pat)]: shell-style patterns with [*], [?],
    [[seq]] and [[!seq]]; a [[] without a closing bracket is a literal. *)

Module Fnmatch.
Import Py.

Inductive tok :=
| TStar
| TAny
| TClass (negated : bool) (body : list ascii)
| TLit (c : ascii).

(** The text after an opening bracket up to its closing bracket, as
    [fnmatch.translate] looks for it: a leading [!] and then a leading
    closing bracket belong to the body. *)
Fixpoint until_close (s : list ascii) : option (list ascii * list ascii) :=
  match s with
  | [] => None
  | c :: s' =>
      if decide (c = "]"%char) then Some ([], s')
      else '(body, rest) ← until_close s'; Some (c :: body, rest)
  end.

Definition class_body (s : list ascii) : option (list ascii * list ascii) :=
  let '(bang, s1) :=
    match s with
    | c :: s' => if decide (c = "!"%char) then ([c], s') else ([], s)
    | [] => ([], s)
    end in
  let '(brk, s2) :=
    match s1 with
    | c :: s' => if decide (c = "]"%char) then ([c], s') else ([], s1)
    | [] => ([], s1)
    end in
  '(body, rest) ← until_close s2;
  Some (bang ++ brk ++ body, rest).

Fixpoint translate (fuel : nat) (pat : list ascii) : list tok :=
  match fuel, pat with
  | O, _ | _, [] => []
  | S fuel', c :: pat' =>
      if decide (c = "*"%char) then TStar :: translate fuel' pat'
      else if decide (c = "?"%char) then TAny :: translate fuel' pat'
      else if decide (c = "["%char) then
        match class_body pat' with
        | None => TLit c :: translate fuel' pat'
        | Some (stuff, rest) =>
            match stuff with
            | b :: stuff' =>
                if decide (b = "!"%char)
                then TClass true stuff' :: translate fuel' rest
                else TClass false stuff :: translate fuel' rest
            | [] => TClass false [] :: translate fuel' rest
            end
        end
      else TLit c :: translate fuel' pat'
  end.

(** Membership in a bracket body: [a-z] is a range, anything else stands
    for itself. *)
Fixpoint in_class (c : ascii) (body : list ascii) : bool :=
  match body with
  | lo :: rest =>
      match rest with
      | dash :: hi :: rest' =>
          if decide (dash = "-"%char)
          then ((Ascii.N_of_ascii lo <=? Ascii.N_of_ascii c)%N
                && (Ascii.N_of_ascii c <=? Ascii.N_of_ascii hi)%N)
               || in_class c rest'
          else bool_decide (c = lo) || in_class c rest
      | _ => bool_decide (c = lo) || in_class c rest
      end
  | [] => false
  end.

Fixpoint matches (ts : list tok) (s : list ascii) {struct ts} : bool :=
  match ts with
  | [] => match s with [] => true | _ :: _ => false end
  | TStar :: ts' =>
      (fix star (s : list ascii) : bool :=
         matches ts' s
         || match s with [] => false | _ :: s' => star s' end) s
  | TAny :: ts' =>
      match s with [] => false | _ :: s' => matches ts' s' end
  | TClass neg body :: ts' =>
      match s with
      | [] => false
      | c :: s' => xorb neg (in_class c body) && matches ts' s'
      end
  | TLit c :: ts' =>
      match s with
      | [] => false
      | d :: s' => bool_decide (c = d) && matches ts' s'
      end
  end.

Definition fnmatch (name pat : string) : bool :=
  let p := String.list_ascii_of_string pat in
  matches (translate (length p) p) (String.list_ascii_of_string name).

Definition filter (names : list string) (pat : string) : list string :=
  List.filter (λ n, fnmatch n pat) names.

End Fnmatch.

(** ** Exceptions and results *)

Inductive exn :=
| Exception (msg : string)
| AttributeError (msg : string)
| IndexError (msg : string)
| ValueError (msg : string)
| RuntimeError (msg : string)
| ReferenceError (msg : string)
| GitCommandError (msg : string)
| NoSuchPathError (msg : string)
| IrcError (msg : string).

#[global] Instance exn_eq_dec : EqDecision exn.
Proof. solve_decision. Defined.

(** [str(e)] *)
Definition exn_str (e : exn) : string :=
  match e with
  | Exception m | AttributeError m | IndexError m | ValueError m
  | RuntimeError m | ReferenceError m | GitCommandError m
  | NoSuchPathError m | IrcError m => m
  end.

Inductive result (A : Type) :=
| Ok (a : A)
| Raise (e : exn).
Arguments Ok {A} a.
Arguments Raise {A} e.

(** ** Git model

    What the plugin uses of GitPython.  A mirror on disk ([GitRepo]) holds
    an object store keyed by commit id, its local branches, the remote
    tracking references, and the url of its only remote; the remote itself
    ([Remote]) is found at that url in the [net] of the world.  A [Commit]
    is the view of one stored object; [None] stands for a name that does
    not resolve. *)

Record CommitData := mkCommitData {
  cd_author_name : string;
  cd_author_email : string;
  cd_message : string;
  cd_parents : list string;
}.

Record Commit := mkCommit {
  hexsha : string;
  author_name : string;
  author_email : string;
  message : string;
}.

#[global] Instance CommitData_eq_dec : EqDecision CommitData.
Proof. solve_decision. Defined.
#[global] Instance Commit_eq_dec : EqDecision Commit.
Proof. solve_decision. Defined.

Inductive ref_target :=
| Direct (sha : string)
| Symbolic (name : string).

Record Remote := mkRemote {
  reachable : bool;
  latency : Z;              (* what one exchange with it takes, milliseconds *)
  remote_HEAD : string;
  remote_heads : gmap string string;
  remote_objects : gmap string CommitData;
}.

Record GitRepo := mkGitRepo {
  origin_url : string;
  objects : gmap string CommitData;
  heads : gmap string string;
  remote_refs : gmap string ref_target;
  active_branch : string;
}.

Module GitModel.

Definition view (sha : string) (d : CommitData) : Commit :=
  mkCommit sha (cd_author_name d) (cd_author_email d) (cd_message d).

(** A revision is a local branch name or a full commit id. *)
Definition rev_parse (g : GitRepo) (rev : string) : option string :=
  let sha := default rev (heads g !! rev) in
  if decide (is_Some (objects g !! sha)) then Some sha else None.

Definition lookup_commit (g : GitRepo) (rev : string) : option Commit :=
  sha ← rev_parse g rev; view sha <$> objects g !! sha.

(** The ids reachable from [todo], each once, parents after children. *)
Fixpoint reach (fuel : nat) (objs : gmap string CommitData)
    (todo seen : list string) : list string :=
  match fuel with
  | O => seen
  | S fuel' =>
      match todo with
      | [] => seen
      | x :: rest =>
          if decide (x ∈ seen) then reach fuel' objs rest seen
          else match objs !! x with
               | Some d => reach fuel' objs (cd_parents d ++ rest) (seen ++ [x])
               | None => reach fuel' objs rest seen
               end
      end
  end.

(** Every step of [reach] removes one entry of the work list, and an
    object puts its parents on the list once only. *)
Definition reach_fuel (objs : gmap string CommitData) : nat :=
  S (map_fold (λ _ d n, S (length (cd_parents d)) + n)%nat O objs).

Definition ancestors (g : GitRepo) (sha : string) : list string :=
  reach (reach_fuel (objects g)) (objects g) [sha] [].

(** [first..last]: the commits reachable from [last] and not from [first]. *)
Definition rev_list (g : GitRepo) (first : option Commit) (last : string)
    : option (list Commit) :=
  a ← first;
  _ ← objects g !! hexsha a;
  b ← rev_parse g last;
  let old := ancestors g (hexsha a) in
  Some (omap (λ s, view s <$> objects g !! s)
             (List.filter (λ s, bool_decide (s ∉ old)) (ancestors g b))).

(** The history of [rev], newest first. *)
Definition history (g : GitRepo) (rev : string) : option (list Commit) :=
  b ← rev_parse g rev;
  Some (omap (λ s, view s <$> objects g !! s) (ancestors g b)).

Definition is_fast_forward (objs : gmap string CommitData)
    (old : option string) (new : string) : bool :=
  match old with
  | None => true
  | Some o =>
      bool_decide (o = new)
      || bool_decide (o ∈ reach (reach_fuel objs) objs [new] [])
  end.

(** [git clone --no-checkout url path] *)
Definition clone (url : string) (r : Remote) : GitRepo :=
  {| origin_url := url;
     objects := remote_objects r;
     heads := from_option (λ sha, {[ remote_HEAD r := sha ]}) ∅
                (remote_heads r !! remote_HEAD r);
     remote_refs :=
       <[ "origin/HEAD" := Symbolic ("origin/" +:+ remote_HEAD r) ]>
         (list_to_map
            (prod_map (λ b, "origin/" +:+ b) Direct <$> map_to_list (remote_heads r)));
     active_branch := remote_HEAD r |}.

(** [git remote update]: refresh the tracking references and bring the
    objects of the remote. *)
Definition remote_update (r : Remote) (g : GitRepo) : GitRepo :=
  {| origin_url := origin_url g;
     objects := remote_objects r ∪ objects g;
     heads := heads g;
     remote_refs :=
       <[ "origin/HEAD" := Symbolic ("origin/" +:+ remote_HEAD r) ]>
         (list_to_map
            (prod_map (λ b, "origin/" +:+ b) Direct <$> map_to_list (remote_heads r)));
     active_branch := active_branch g |}.

(** Move the local branch [dst] to the head of the remote branch [src];
    only forward. *)
Definition update_branch (r : Remote) (src dst : string) (g : GitRepo)
    : option GitRepo :=
  new ← remote_heads r !! src;
  let objs := remote_objects r ∪ objects g in
  if is_fast_forward objs (heads g !! dst) new then
    Some {| origin_url := origin_url g;
            objects := objs;
            heads := <[ dst := new ]> (heads g);
            remote_refs := remote_refs g;
            active_branch := active_branch g |}
  else None.

End GitModel.

(** ** The objects of the plugin *)

(** The value of an option as [dict.get] returns it. *)
Inductive pyval :=
| PStr (s : string)
| PList (l : list string)
| PNone.

(** A [threading.RLock] as the running thread sees it. *)
Inductive LockState :=
| Free
| Mine (depth : nat)    (* held by the running thread, [S depth] times *)
| Theirs.               (* held by another thread *)

Record Repository := mkRepository {
  branches_opt : pyval;
  branches : list string;
  commit_by_branch : gmap string (option Commit);
  channels : list string;
  commit_link : string;
  commit_message : string;
  errors : list exn;
  group_header : bool;
  long_name : string;
  short_name : string;
  repo : option string;     (* [git.Repo(path)]: the mirror at that path *)
  url : string;
  path : string;
}.

(** An IRC connection: the channels the bot is in ([irc.state.channels]),
    the queue filled by [irc.queueMsg], and the exception [queueMsg] raises
    when the connection refuses messages. *)
Record Irc := mkIrc {
  state_channels : list string;
  outbox : list (string * string);
  refuses : option exn;
}.

Inductive level := INFO | WARNING | ERROR.

Record World := mkWorld {
  GIT_API_VERSION : Z;
  _DEBUG : bool;
  maxCommitsAtOnce : nat;
  pollPeriod : Z;
  logged : list (level * string);
  heap : list Repository;          (* every [Repository] object *)
  locks : gmap nat LockState;      (* [self.lock] of the object at that index *)
  repository_list : list nat;      (* [Git.repository_list], references *)
  ircs : list Irc;                 (* [world.ircs] *)
  disk : gmap string GitRepo;
  net : gmap string Remote;
  clock : Z;                       (* [time.time()], in milliseconds *)
  fetcher_alive : bool;
  scheduled : option Z;            (* the pending [_poll] event *)
  fetch_calls : list (Z * nat);    (* ghost: when [run] called [fetch], on what *)
}.

Definition with_logged (f : list (level * string) → list (level * string)) (w : World) : World :=
  mkWorld (GIT_API_VERSION w) (_DEBUG w) (maxCommitsAtOnce w) (pollPeriod w)
    (f (logged w)) (heap w) (locks w) (repository_list w) (ircs w) (disk w)
    (net w) (clock w) (fetcher_alive w) (scheduled w) (fetch_calls w).
Definition with_heap (f : list Repository → list Repository) (w : World) : World :=
  mkWorld (GIT_API_VERSION w) (_DEBUG w) (maxCommitsAtOnce w) (pollPeriod w)
    (logged w) (f (heap w)) (locks w) (repository_list w) (ircs w) (disk w)
    (net w) (clock w) (fetcher_alive w) (scheduled w) (fetch_calls w).
Definition with_locks (f : gmap nat LockState → gmap nat LockState) (w : World) : World :=
  mkWorld (GIT_API_VERSION w) (_DEBUG w) (maxCommitsAtOnce w) (pollPeriod w)
    (logged w) (heap w) (f (locks w)) (repository_list w) (ircs w) (disk w)
    (net w) (clock w) (fetcher_alive w) (scheduled w) (fetch_calls w).
Definition with_repository_list (f : list nat → list nat) (w : World) : World :=
  mkWorld (GIT_API_VERSION w) (_DEBUG w) (maxCommitsAtOnce w) (pollPeriod w)
    (logged w) (heap w) (locks w) (f (repository_list w)) (ircs w) (disk w)
    (net w) (clock w) (fetcher_alive w) (scheduled w) (fetch_calls w).
Definition with_ircs (f : list Irc → list Irc) (w : World) : World :=
  mkWorld (GIT_API_VERSION w) (_DEBUG w) (maxCommitsAtOnce w) (pollPeriod w)
    (logged w) (heap w) (locks w) (repository_list w) (f (ircs w)) (disk w)
    (net w) (clock w) (fetcher_alive w) (scheduled w) (fetch_calls w).
Definition with_disk (f : gmap string GitRepo → gmap string GitRepo) (w : World) : World :=
  mkWorld (GIT_API_VERSION w) (_DEBUG w) (maxCommitsAtOnce w) (pollPeriod w)
    (logged w) (heap w) (locks w) (repository_list w) (ircs w) (f (disk w))
    (net w) (clock w) (fetcher_alive w) (scheduled w) (fetch_calls w).
Definition with_clock (f : Z → Z) (w : World) : World :=
  mkWorld (GIT_API_VERSION w) (_DEBUG w) (maxCommitsAtOnce w) (pollPeriod w)
    (logged w) (heap w) (locks w) (repository_list w) (ircs w) (disk w)
    (net w) (f (clock w)) (fetcher_alive w) (scheduled w) (fetch_calls w).
Definition with_schedule (alive : bool) (ev : option Z) (w : World) : World :=
  mkWorld (GIT_API_VERSION w) (_DEBUG w) (maxCommitsAtOnce w) (pollPeriod w)
    (logged w) (heap w) (locks w) (repository_list w) (ircs w) (disk w)
    (net w) (clock w) alive ev (fetch_calls w).

Definition with_fetch_calls (f : list (Z * nat) → list (Z * nat)) (w : World) : World :=
  mkWorld (GIT_API_VERSION w) (_DEBUG w) (maxCommitsAtOnce w) (pollPeriod w)
    (logged w) (heap w) (locks w) (repository_list w) (ircs w) (disk w)
    (net w) (clock w) (fetcher_alive w) (scheduled w) (f (fetch_calls w)).

Definition with_branches (bs : list string) (r : Repository) : Repository :=
  mkRepository (branches_opt r) bs (commit_by_branch r) (channels r)
    (commit_link r) (commit_message r) (errors r) (group_header r)
    (long_name r) (short_name r) (repo r) (url r) (path r).
Definition with_commit_by_branch
    (f : gmap string (option Commit) → gmap string (option Commit))
    (r : Repository) : Repository :=
  mkRepository (branches_opt r) (branches r) (f (commit_by_branch r)) (channels r)
    (commit_link r) (commit_message r) (errors r) (group_header r)
    (long_name r) (short_name r) (repo r) (url r) (path r).
Definition with_errors (f : list exn → list exn) (r : Repository) : Repository :=
  mkRepository (branches_opt r) (branches r) (commit_by_branch r) (channels r)
    (commit_link r) (commit_message r) (f (errors r)) (group_header r)
    (long_name r) (short_name r) (repo r) (url r) (path r).
Definition with_repo (h : option string) (r : Repository) : Repository :=
  mkRepository (branches_opt r) (branches r) (commit_by_branch r) (channels r)
    (commit_link r) (commit_message r) (errors r) (group_header r)
    (long_name r) (short_name r) h (url r) (path r).

(** ** The monad: a world and an exception *)

Definition M (A : Type) : Type := World → World * result A.

Definition ret {A} (a : A) : M A := λ w, (w, Ok a).
Definition raise {A} (e : exn) : M A := λ w, (w, Raise e).
Definition bind {A B} (m : M A) (k : A → M B) : M B :=
  λ w, match m w with
       | (w', Ok a) => k a w'
       | (w', Raise e) => (w', Raise e)
       end.

Notation "'do' x ← m ; k" := (bind m (λ x, k))
  (at level 10, x binder, m at level 100, k at level 200).
Notation "'do' ' p ← m ; k" := (bind m (λ x, match x with p => k end))
  (at level 10, p pattern, m at level 100, k at level 200).
Notation "m ;; k" := (bind m (λ _, k))
  (at level 100, k at level 200, right associativity).

Definition gets {A} (f : World → A) : M A := λ w, (w, Ok (f w)).
Definition modify (f : World → World) : M unit := λ w, (f w, Ok tt).

(** [try: m except Exception, e: h e] *)
Definition try_except {A} (m : M A) (h : exn → M A) : M A :=
  λ w, match m w with
       | (w', Raise e) => h e w'
       | done => done
       end.

(** [try: m finally: fin] *)
Definition try_finally {A} (m : M A) (fin : M unit) : M A :=
  λ w, match m w with
       | (w', r) =>
           match fin w' with
           | (w'', Ok _) => (w'', r)
           | (w'', Raise e) => (w'', Raise e)
           end
       end.

(** [for x in l: body x] *)
Fixpoint for_each {A} (l : list A) (body : A → M unit) : M unit :=
  match l with
  | [] => ret tt
  | x :: l' => body x ;; for_each l' body
  end.

Definition when (b : bool) (m : M unit) : M unit := if b then m else ret tt.

(** ** Logging *)

Definition log_ (lv : level) (msg : string) : M unit :=
  modify (with_logged (λ l, l ++ [(lv, msg)])).

Definition log_debug (msg : string) : M unit :=
  do dbg ← gets _DEBUG; when dbg (log_ INFO ("Git: " +:+ msg)).
Definition log_info (msg : string) : M unit := log_ INFO ("Git: " +:+ msg).
Definition log_warning (msg : string) : M unit := log_ WARNING ("Git: " +:+ msg).
Definition log_error (msg : string) : M unit := log_ ERROR ("Git: " +:+ msg).

(** ** The lock and [synchronized] *)

Definition lock_of (w : World) (self : nat) : LockState :=
  default Free (locks w !! self).

(** [lock.acquire()]: a lock held by another thread is waited for. *)
Definition acquire (self : nat) : M unit :=
  do l ← gets (λ w, lock_of w self);
  modify (with_locks <[ self := match l with Mine n => Mine (S n) | _ => Mine O end ]>).

(** [lock.acquire(blocking=False)] *)
Definition acquire_nonblocking (self : nat) : M bool :=
  do l ← gets (λ w, lock_of w self);
  match l with
  | Theirs => ret false
  | Mine n => modify (with_locks <[ self := Mine (S n) ]>) ;; ret true
  | Free => modify (with_locks <[ self := Mine O ]>) ;; ret true
  end.

(** [lock.release()] *)
Definition release (self : nat) : M unit :=
  do l ← gets (λ w, lock_of w self);
  match l with
  | Mine (S n) => modify (with_locks <[ self := Mine n ]>)
  | Mine O => modify (with_locks <[ self := Free ]>)
  | _ => raise (RuntimeError "cannot release un-acquired lock")
  end.

Definition synchronized {A} (self : nat) (func : M A) : M A :=
  acquire self ;; try_finally func (release self).

(** ** GitPython calls *)

Definition self_ (self : nat) : M Repository :=
  λ w, match heap w !! self with
       | Some r => (w, Ok r)
       | None => (w, Raise (ReferenceError "no such Repository object"))
       end.

Definition update_self (self : nat) (f : Repository → Repository) : M unit :=
  modify (with_heap (alter f self)).

(** [self.repo.…]: the attribute access fails on [None]. *)
Definition the_repo (h : option string) : M string :=
  match h with
  | Some p => ret p
  | None => raise (AttributeError "'NoneType' object has no attribute")
  end.

Definition mirror (p : string) : M GitRepo :=
  λ w, match disk w !! p with
       | Some g => (w, Ok g)
       | None => (w, Raise (NoSuchPathError p))
       end.

Definition origin (g : GitRepo) : M Remote :=
  λ w, match net w !! origin_url g with
       | Some r =>
           let w' := with_clock (λ t, t + latency r) w in
           if reachable r then (w', Ok r)
           else (w', Raise (GitCommandError ("unable to access " +:+ origin_url g)))
       | None => (w, Raise (GitCommandError ("unable to access " +:+ origin_url g)))
       end.

(** [git.Git('.').clone(url, path, no_checkout=True)] *)
Definition git_clone (url path : string) : M unit :=
  do r ← origin (mkGitRepo url ∅ ∅ ∅ "");
  modify (with_disk <[ path := GitModel.clone url r ]>).

(** [git.Repo(path)] *)
Definition git_Repo (p : string) : M string :=
  mirror p ;; ret p.

(** [repo.remotes[0].update()] *)
Definition remotes0_update (p : string) : M unit :=
  do g ← mirror p;
  do r ← origin g;
  modify (with_disk <[ p := GitModel.remote_update r g ]>).

Definition update_branch (p src dst : string) : M unit :=
  do g ← mirror p;
  do r ← origin g;
  match GitModel.update_branch r src dst g with
  | Some g' => modify (with_disk <[ p := g' ]>)
  | None => raise (GitCommandError ("cannot update " +:+ dst +:+ " from " +:+ src))
  end.

(** [repo.remote().pull(branch)], into the active branch *)
Definition remote_pull (p branch : string) : M unit :=
  do g ← mirror p; update_branch p branch (active_branch g).

(** [repo.remote().fetch(src + ':' + dst)] *)
Definition remote_fetch (p src dst : string) : M unit :=
  update_branch p src dst.

(** [str(repo.active_branch)] *)
Definition repo_active_branch (p : string) : M string :=
  do g ← mirror p; ret (active_branch g).

(** [repo.commit(rev)]: GitPython 0.1 raises [ValueError] on an unknown
    revision, 0.3 raises [GitCommandError]. *)
Definition repo_commit (p rev : string) : M Commit :=
  do g ← mirror p;
  do api ← gets GIT_API_VERSION;
  match GitModel.lookup_commit g rev with
  | Some c => ret c
  | None =>
      if decide (api = 1) then raise (ValueError ("unknown revision " +:+ rev))
      else raise (GitCommandError ("unknown revision " +:+ rev))
  end.

(** [str(commit)], and [str(None)] *)
Definition str_commit (c : option Commit) : string :=
  match c with Some c => hexsha c | None => "None" end.

(** [repo.commits_between(first, last)] and [list(repo.iter_commits(rev))] *)
Definition repo_rev_list (p : string) (first : option Commit) (last : string)
    : M (list Commit) :=
  do g ← mirror p;
  match GitModel.rev_list g first last with
  | Some cs => ret cs
  | None =>
      raise (GitCommandError
               ("bad revision " +:+ str_commit first +:+ ".." +:+ last))
  end.

Definition _get_commits (h : option string) (first : option Commit)
    (last : string) : M (list Commit) :=
  do api ← gets GIT_API_VERSION;
  if decide (api = 1) then
    do p ← the_repo h; repo_rev_list p first last
  else if decide (api = 3) then
    do p ← the_repo h; repo_rev_list p first last
  else raise (Exception ("Unsupported API version: " +:+ pretty api)).

(** [v.split()] on the value of an option *)
Definition pyval_split (v : pyval) : M (list string) :=
  match v with
  | PStr s => ret (Py.split_ws s)
  | PList _ => raise (AttributeError "'list' object has no attribute 'split'")
  | PNone => raise (AttributeError "'NoneType' object has no attribute 'split'")
  end.

Definition pyval_str (v : pyval) : string :=
  match v with PStr s => s | _ => "" end.

Fixpoint mapM {A B} (f : A → M B) (l : list A) : M (list B) :=
  match l with
  | [] => ret []
  | x :: l' => do y ← f x; do ys ← mapM f l'; ret (y :: ys)
  end.

(** ** class Repository *)

Definition is_detached (t : ref_target) : bool :=
  match t with Direct _ => true | Symbolic _ => false end.

(** The loop of [get_branches] over the patterns of the option. *)
Fixpoint match_branches (repo_branches opt_branches branches : list string)
    : M (list string) :=
  match opt_branches with
  | [] => ret branches
  | opt :: rest =>
      let matched := Fnmatch.filter repo_branches opt in
      match matched with
      | [] =>
          log_warning ("No branch in repository matches " +:+ opt) ;;
          match_branches repo_branches rest branches
      | _ :: _ => match_branches repo_branches rest (branches ++ matched)
      end
  end.

Definition get_branches (option_val : pyval) (p : string) : M (list string) :=
  do words ← pyval_split option_val;
  let opt_branches := Py.strip <$> words in
  remotes0_update p ;;
  do g ← mirror p;
  do repo_branches ←
    mapM (λ '(name, _),
            match Py.split_on "/" name !! 1%nat with
            | Some b => ret b
            | None => raise (IndexError "list index out of range")
            end)
         (List.filter (λ '(_, t), is_detached t) (map_to_list (remote_refs g)));
  do branches ← match_branches repo_branches opt_branches [];
  when (bool_decide (branches = []))
    (log_error ("No branch in repository matches: " +:+ pyval_str option_val)) ;;
  ret branches.

Definition update_tracked (p branch : string) : M unit :=
  do active ← repo_active_branch p;
  if decide (active = branch) then remote_pull p branch
  else remote_fetch p branch branch.

Definition clone (self : nat) : M unit :=
  synchronized self (
    do r ← self_ self;
    do present ← gets (λ w, bool_decide (is_Some (disk w !! path r)));
    when (negb present) (git_clone (url r) (path r)) ;;
    do h ← git_Repo (path r);
    update_self self (with_repo (Some h)) ;;
    do bs ← get_branches (branches_opt r) h;
    update_self self (with_branches bs) ;;
    update_self self (with_commit_by_branch (λ _, ∅)) ;;
    for_each bs (λ branch,
      try_except
        (update_tracked h branch ;;
         do c ← repo_commit h branch;
         update_self self (with_commit_by_branch <[ branch := Some c ]>))
        (λ _, log_error ("Cannot checkout repo branch: " +:+ branch)))).

Definition fetch (self : nat) : M unit :=
  synchronized self (
    do r ← self_ self;
    do p ← the_repo (repo r);
    remotes0_update p ;;
    for_each (branches r) (update_tracked p)).

Definition get_commit (self : nat) (sha : string) : M (option Commit) :=
  synchronized self (
    try_except
      (do r ← self_ self;
       do p ← the_repo (repo r);
       do c ← repo_commit p sha;
       ret (Some c))
      (λ e, match e with
            | ValueError _ | GitCommandError _ => ret None
            | _ => raise e
            end)).

Definition get_commit_id (self : nat) (commit : Commit) : M string :=
  synchronized self (
    do api ← gets GIT_API_VERSION;
    if decide (api = 1) then ret (hexsha commit)
    else if decide (api = 3) then ret (hexsha commit)
    else raise (Exception ("Unsupported API version: " +:+ pretty api))).

(** The loop of [get_new_commits] over the entries of [commit_by_branch]. *)
Fixpoint new_commits_loop (h : option string)
    (todo : list (string * option Commit))
    (new_commits_by_branch : gmap string (list Commit))
    : M (gmap string (list Commit)) :=
  match todo with
  | [] => ret new_commits_by_branch
  | (branch, cursor) :: rest =>
      do results ← _get_commits h cursor branch;
      log_debug ("Poll: branch: " +:+ branch +:+ " last commit: "
                 +:+ Py.take 7 (str_commit cursor) +:+ ", "
                 +:+ pretty (length results) +:+ " commits") ;;
      new_commits_loop h rest (<[ branch := results ]> new_commits_by_branch)
  end.

Definition get_new_commits (self : nat) : M (gmap string (list Commit)) :=
  synchronized self (
    do r ← self_ self;
    new_commits_loop (repo r) (map_to_list (commit_by_branch r)) ∅).

Definition get_recent_commits (self : nat) (branch : string) (count : nat)
    : M (list Commit) :=
  synchronized self (
    do api ← gets GIT_API_VERSION;
    if decide (api = 1 ∨ api = 3) then
      do r ← self_ self;
      do p ← the_repo (repo r);
      do g ← mirror p;
      match GitModel.history g branch with
      | Some cs => ret (take count cs)
      | None => raise (GitCommandError ("bad revision " +:+ branch))
      end
    else raise (Exception ("Unsupported API version: " +:+ pretty api))).

Definition record_error (self : nat) (e : exn) : M unit :=
  synchronized self (update_self self (with_errors (λ l, l ++ [e]))).

Definition get_errors (self : nat) : M (list exn) :=
  synchronized self (
    do r ← self_ self;
    update_self self (with_errors (λ _, [])) ;;
    ret (errors r)).

(** [format_link]: the loop over the characters of [commit_link]. *)
Fixpoint format_link_loop (self : nat) (commit : Commit) (todo : string)
    (result : string) (escaped : bool) : M string :=
  match todo with
  | EmptyString => ret result
  | String c rest =>
      if escaped then
        if decide (c = "c"%char) then
          do id ← get_commit_id self commit;
          format_link_loop self commit rest (result +:+ Py.take 7 id) false
        else if decide (c = "C"%char) then
          do id ← get_commit_id self commit;
          format_link_loop self commit rest (result +:+ id) false
        else format_link_loop self commit rest (result +:+ String c "") false
      else if decide (c = "%"%char) then
        format_link_loop self commit rest result true
      else format_link_loop self commit rest (result +:+ String c "") false
  end.

Definition format_link (self : nat) (commit : Commit) : M string :=
  synchronized self (
    do r ← self_ self;
    format_link_loop self commit (commit_link r) "" false).

Inductive mode := MODE_NORMAL | MODE_SUBST | MODE_COLOR.

Definition newline : ascii := "010"%char.

(** The inner loop of [format_message], over the characters of one line. *)
Fixpoint format_line (subst : gmap ascii string) (line : string)
    (mode : mode) (outline color : string) : string :=
  match line with
  | EmptyString => outline
  | String c rest =>
      match mode with
      | MODE_SUBST =>
          match subst !! c with
          | Some v => format_line subst rest MODE_NORMAL (outline +:+ v) color
          | None =>
              if decide (c = "("%char)
              then format_line subst rest MODE_COLOR outline ""
              else format_line subst rest MODE_NORMAL (outline +:+ String c "") color
          end
      | MODE_COLOR =>
          if decide (c = ")"%char)
          then format_line subst rest MODE_NORMAL
                 (outline +:+ String "003" color) color
          else format_line subst rest MODE_COLOR outline (color +:+ String c "")
      | MODE_NORMAL =>
          if decide (c = "%"%char)
          then format_line subst rest MODE_SUBST outline color
          else format_line subst rest MODE_NORMAL (outline +:+ String c "") color
      end
  end.

Definition subst_dict (r : Repository) (commit : Commit) (branch : string)
    (id7 id link : string) : gmap ascii string :=
  list_to_map
    [ ("a"%char, author_name commit);
      ("b"%char, branch);
      ("c"%char, id7);
      ("C"%char, id);
      ("e"%char, author_email commit);
      ("l"%char, link);
      ("m"%char, default "" (head (Py.split_on newline (message commit))));
      ("n"%char, long_name r);
      ("s"%char, short_name r);
      ("S"%char, " ");
      ("u"%char, url r);
      ("r"%char, String "015" "");
      ("!"%char, String "002" "");
      ("%"%char, "%") ].

Definition format_message (self : nat) (commit : Commit) (branch : string)
    : M (list string) :=
  synchronized self (
    do r ← self_ self;
    do id7 ← get_commit_id self commit;
    do id ← get_commit_id self commit;
    do link ← format_link self commit;
    let subst := subst_dict r commit branch (Py.take 7 id7) id link in
    ret ((λ line, format_line subst line MODE_NORMAL "" "")
           <$> Py.split_on newline (commit_message r))).

Definition required_values : list string := ["short name"; "url"].
Definition optional_values : list string :=
  ["branches"; "channel"; "channels"; "commit link"; "commit message";
   "group header"].

(** [options.get(key, dflt)] *)
Definition options_get (options : gmap string string) (key : string)
    (dflt : pyval) : pyval :=
  match options !! key with Some v => PStr v | None => dflt end.

(** [Repository(repo_dir, long_name, options)]: the reference of the new
    object.  The directories made by [os.makedirs] hold nothing the plugin
    reads, so they leave the world as it is. *)
Definition __init__ (repo_dir long_name : string)
    (options : gmap string string) : M nat :=
  do api ← gets GIT_API_VERSION;
  (if decide (api = -1)
   then raise (Exception "Git-python API version uninitialized.")
   else ret tt) ;;
  for_each required_values (λ name,
    if decide (is_Some (options !! name)) then ret tt
    else raise (Exception ("Section " +:+ long_name
                           +:+ " missing required value: " +:+ name))) ;;
  for_each (map_to_list options) (λ '(name, _),
    if bool_decide (name ∈ required_values) || bool_decide (name ∈ optional_values)
    then ret tt
    else raise (Exception ("Section " +:+ long_name
                           +:+ " contains unrecognized value: " +:+ name))) ;;
  do chans ← pyval_split
               (options_get options "channels" (options_get options "channel" PNone));
  let header := default "True" (options !! "group header") in
  let name := default "" (options !! "short name") in
  let r :=
    {| branches_opt := options_get options "branches" (PList ["master"]);
       branches := [];
       commit_by_branch := ∅;
       channels := chans;
       commit_link := default "" (options !! "commit link");
       commit_message := default "[%s|%b|%a] %m" (options !! "commit message");
       errors := [];
       group_header := bool_decide (Py.lower header ∈ ["true"; "yes"; "1"]);
       long_name := long_name;
       short_name := name;
       repo := None;
       url := default "" (options !! "url");
       path := Py.path_join repo_dir name |} in
  do self ← gets (λ w, length (heap w));
  modify (with_heap (λ h, h ++ [r])) ;;
  modify (with_locks <[ self := Free ]>) ;;
  clone self ;;
  ret self.

(** ** Irc *)

(** [irc.queueMsg(ircmsgs.privmsg(channel, text))] *)
Definition queueMsg (irc : nat) (channel text : string) : M unit :=
  λ w, match ircs w !! irc with
       | None => (w, Raise (ReferenceError "no such Irc object"))
       | Some i =>
           match refuses i with
           | Some e => (w, Raise e)
           | None =>
               (with_ircs
                  (alter (λ i, mkIrc (state_channels i)
                                     (outbox i ++ [(channel, text)])
                                     (refuses i)) irc) w,
                Ok tt)
           end
       end.

(** ** class Git *)

Definition _display_some_commits (irc : nat) (channel : string)
    (repository : nat) (commits : list Commit) (branch : string) : M unit :=
  do commits_at_once ← gets maxCommitsAtOnce;
  do r ← self_ repository;
  when (bool_decide (commits_at_once < length commits)%nat)
    (queueMsg irc channel
       ("Showing latest " +:+ pretty commits_at_once +:+ " of "
        +:+ pretty (length commits) +:+ " commits to "
        +:+ long_name r +:+ "...")) ;;
  for_each (Py.slice_last commits_at_once commits) (λ commit,
    do lines ← format_message repository commit branch;
    for_each lines (queueMsg irc channel)).

(** What callers pass as [commits_by_branch]: the dict of [get_new_commits],
    the list of [get_recent_commits], or the one commit of [get_commit]. *)
Inductive commits_arg :=
| ByBranch (d : gmap string (list Commit))
| CommitList (l : list Commit)
| OneCommit (c : Commit).

Definition falsy (a : commits_arg) : bool :=
  match a with
  | ByBranch d => bool_decide (d = ∅)
  | CommitList l => bool_decide (l = [])
  | OneCommit _ => false
  end.

(** After the two [isinstance] checks: always a dict of lists. *)
Definition as_dict (a : commits_arg) : gmap string (list Commit) :=
  match a with
  | ByBranch d => d
  | CommitList l => {[ "" := l ]}
  | OneCommit c => {[ "" := [c] ]}
  end.

(** [set([c.author.name for c in commits])] is iterated in the order of
    [remove_dups], which stands for the arbitrary order of a Python set. *)
Definition _display_commits (irc : nat) (channel : string)
    (repository : nat) (commits_by_branch : commits_arg) (ctx : string)
    : M unit :=
  if falsy commits_by_branch then ret tt
  else
    for_each (map_to_list (as_dict commits_by_branch)) (λ '(branch, commits),
      for_each (remove_dups (author_name <$> commits)) (λ a,
        let commits_ := List.filter (λ c, bool_decide (author_name c = a)) commits in
        do r ← self_ repository;
        if negb (group_header r) || bool_decide (ctx = "repolog") then
          _display_some_commits irc channel repository commits_ branch
        else
          do line ←
            (if decide (ctx = "snarf") then
               match commits_ with
               | c :: _ =>
                   do id ← get_commit_id repository c;
                   ret ("Talking about " +:+ Py.take 7 id +:+ "?")
               | [] => raise (IndexError "list index out of range")
               end
             else
               ret (a +:+ " pushed " +:+ pretty (length commits_)
                    +:+ " commit(s) to " +:+ branch +:+ " at "
                    +:+ short_name r));
          queueMsg irc channel line ;;
          _display_some_commits irc channel repository commits_ branch)).

(** [_stop_polling]: the fetcher is stopped and joined, the event removed. *)
Definition _stop_polling : M unit :=
  modify (with_schedule false None).

(** [_schedule_next_event]: a fetcher is started unless one is alive, and
    [_poll] is scheduled after [pollPeriod] seconds. *)
Definition _schedule_next_event : M unit :=
  do period ← gets pollPeriod;
  if decide (0 < period) then
    do now ← gets clock;
    modify (with_schedule true (Some (now + period * 1000)))
  else _stop_polling.

(** The pairs [(irc, channel)] to notify for a repository. *)
Definition poll_targets (all : list Irc) (r : Repository) : list (nat * string) :=
  mjoin (imap (λ i irc,
                 (λ ch, (i, ch)) <$>
                   List.filter (λ ch, bool_decide (ch ∈ state_channels irc))
                               (channels r)) all).

(** The last loop of the [try] block of [_poll]: the cursors move to the
    heads of the branches. *)
Definition advance_cursors (repository : nat)
    (new_commits_by_branch : gmap string (list Commit)) : M unit :=
  for_each (map_to_list new_commits_by_branch).*1 (λ branch,
    do c ← get_commit repository branch;
    update_self repository (with_commit_by_branch <[ branch := c ]>)).

(** The start of the [try] block of [_poll]: the errors queued by the
    fetcher are taken and logged. *)
Definition report_errors (repository : nat) (r : Repository) : M unit :=
  do errs ← get_errors repository;
  for_each errs (λ e,
    log_error ("Unable to fetch " +:+ long_name r +:+ ": " +:+ exn_str e)).

(** The loop of [_poll] over the targets. *)
Definition deliver (targets : list (nat * string)) (repository : nat)
    (new_commits_by_branch : gmap string (list Commit)) : M unit :=
  for_each targets (λ '(irc, channel),
    _display_commits irc channel repository
      (ByBranch new_commits_by_branch) "commits").

(** The [try] block of [_poll] with its [except] clause. *)
Definition poll_try (targets : list (nat * string)) (repository : nat)
    (r : Repository) : M unit :=
  try_except
    (report_errors repository r ;;
     do new_commits_by_branch ← get_new_commits repository;
     deliver targets repository new_commits_by_branch ;;
     advance_cursors repository new_commits_by_branch)
    (λ e, log_error ("Exception in _poll repository "
                     +:+ short_name r +:+ ": " +:+ exn_str e)).

(** The body of the loop of [_poll] for one repository. *)
Definition poll_repository (repository : nat) : M unit :=
  do r ← self_ repository;
  do all ← gets ircs;
  let targets := poll_targets all r in
  match targets with
  | [] =>
      log_info ("Skipping " +:+ long_name r +:+ ": not in configured channel(s).")
  | _ :: _ =>
      do got ← acquire_nonblocking repository;
      if got then
        try_finally (poll_try targets repository r) (release repository)
      else
        log_ INFO ("Postponing repository read: " +:+ long_name r +:+ ": Locked.")
  end.

Definition _poll : M unit :=
  try_except
    (do repos ← gets repository_list;
     for_each repos poll_repository ;;
     _schedule_next_event)
    (λ e, log_error ("Exception in _poll(): " +:+ exn_str e)).

(** ** class GitFetcher *)

Module GitFetcher.

Record t := mk {
  repository_list : list nat;
  period : Z;                (* milliseconds *)
}.

Definition SHUTDOWN_CHECK_PERIOD : Z := 100.

(** [period * 1.1] seconds *)
Definition __init__ (repositories : list nat) (period : Z) : t :=
  mk repositories (period * 1100).

Definition sleep (ms : Z) : M unit := modify (with_clock (λ now, now + ms)).

(** [self.shutdown], which [stop()] sets from another thread: [stop now]
    tells whether it has been called by the time [now]. *)
Definition shutdown (stop : Z → bool) : M bool :=
  do now ← gets clock; ret (stop now).

(** The body of the [for] loop of [run] for one repository. *)
Definition fetch_repository (repository : nat) : M unit :=
  do got ← acquire_nonblocking repository;
  if got then
    try_finally
      (try_except
         (do now ← gets clock;
          modify (with_fetch_calls (λ l, l ++ [(now, repository)])) ;;
          fetch repository)
         (λ e, record_error repository e))
      (release repository)
  else
    do name ← gets (λ w, default "" (long_name <$> heap w !! repository));
    log_info ("Postponing repository fetch: " +:+ name +:+ ": Locked.").

(** [for repository in self.repository_list], left by [break] on
    shutdown.  The [try] of [run] encloses the whole loop: an exception
    ends the loop and is logged with the repository of the turn that
    raised it. *)
Fixpoint sweep (stop : Z → bool) (todo : list nat) : M unit :=
  match todo with
  | [] => ret tt
  | repository :: rest =>
      do down ← shutdown stop;
      if down then ret tt
      else
        do went ←
          try_except
            (fetch_repository repository ;; ret true)
            (λ e,
               do name ← gets (λ w, default "" (short_name <$> heap w !! repository));
               log_error ("Exception checking repository " +:+ name +:+ ": "
                          +:+ exn_str e) ;;
               ret false);
        if went then sweep stop rest else ret tt
  end.

(** [while not self.shutdown and time.time() < end_time: time.sleep(...)] *)
Fixpoint wait_loop (fuel : nat) (stop : Z → bool) (end_time : Z) : M unit :=
  match fuel with
  | O => ret tt
  | S fuel' =>
      do down ← shutdown stop;
      do now ← gets clock;
      if negb down && bool_decide (now < end_time) then
        sleep SHUTDOWN_CHECK_PERIOD ;; wait_loop fuel' stop end_time
      else ret tt
  end.

Definition wait (stop : Z → bool) (end_time : Z) : M unit :=
  do now ← gets clock;
  wait_loop (S (Z.to_nat ((end_time - now) / SHUTDOWN_CHECK_PERIOD + 1))) stop end_time.

(** [while not self.shutdown: ...]; the result tells whether the thread
    has come to its end within [fuel] turns of the loop. *)
Fixpoint run_loop (fuel : nat) (self : t) (stop : Z → bool) (end_time : Z)
    : M bool :=
  match fuel with
  | O => do down ← shutdown stop; ret down
  | S fuel' =>
      do down ← shutdown stop;
      if down then ret true
      else
        sweep stop (repository_list self) ;;
        wait stop end_time ;;
        do now ← gets clock;
        run_loop fuel' self stop (now + period self)
  end.

Definition run (fuel : nat) (self : t) (stop : Z → bool) : M bool :=
  do now ← gets clock;
  run_loop fuel self stop (now + period self / 2).

End GitFetcher.

(** ** Helpers of the module *)

(** [s[-1]], which fails on the empty string, and [s[:-1]] *)
Fixpoint str_last (s : string) : option ascii :=
  match s with
  | EmptyString => None
  | String c EmptyString => Some c
  | String _ s' => str_last s'
  end.
Fixpoint str_init (s : string) : string :=
  match s with
  | EmptyString => EmptyString
  | String _ EmptyString => EmptyString
  | String c s' => String c (str_init s')
  end.

(** [plural(count, singular, plural=None)]: an empty [plural] counts as
    none given. *)
Definition plural (count : Z) (singular : string) (plural : option string)
    : result string :=
  if decide (count = 1) then Ok singular
  else
    match plural with
    | Some (String c p) => Ok (String c p)
    | _ =>
        match str_last singular with
        | None => Raise (IndexError "string index out of range")
        | Some c =>
            if decide (c = "s"%char) then Ok (singular +:+ "es")
            else if decide (c = "y"%char) then Ok (str_init singular +:+ "ies")
            else Ok (singular +:+ "s")
        end
    end.

(** The outcome of a function of the module that has no effect. *)
Definition lift {A} (r : result A) : M A := λ w, (w, r).

(** [int(c)] for a string of one character *)
Definition int_of_char (c : ascii) : option Z :=
  let n := Ascii.N_of_ascii c in
  if ((48 <=? n) && (n <=? 57))%N then Some (Z.of_N n - 48) else None.

Definition with_GIT_API_VERSION (v : Z) (w : World) : World :=
  mkWorld v (_DEBUG w) (maxCommitsAtOnce w) (pollPeriod w)
    (logged w) (heap w) (locks w) (repository_list w) (ircs w) (disk w)
    (net w) (clock w) (fetcher_alive w) (scheduled w) (fetch_calls w).
Definition with_DEBUG (b : bool) (w : World) : World :=
  mkWorld (GIT_API_VERSION w) b (maxCommitsAtOnce w) (pollPeriod w)
    (logged w) (heap w) (locks w) (repository_list w) (ircs w) (disk w)
    (net w) (clock w) (fetcher_alive w) (scheduled w) (fetch_calls w).

(** ** class Git: start, configuration and commands *)

(** The entries of the registry that [Git] asks for besides [pollPeriod]
    and [maxCommitsAtOnce]: the value of an entry that is registered, [None]
    for one that is not. *)
Record Settings := mkSettings {
  debug : option bool;
  repoDir : option string;
  configFile : option string;
  enableSnarf : option bool;
}.

(** The registry as [config.py] sets it up: of the four it registers
    [repoDir] only, [repo_dir] being the value it has (by default
    ['git_repositories']). *)
Definition registered_by_config (repo_dir : string) : Settings :=
  {| debug := None; repoDir := Some repo_dir; configFile := None;
     enableSnarf := None |}.

(** What the registry raises for the name of an entry that is not
    registered, [registry.NonExistentRegistryEntry], a subclass of
    [Exception], with the text the registry gives it. *)
Definition NonExistentRegistryEntry (name : string) : exn :=
  Exception ("'" +:+ name +:+ "' is not a valid entry in 'supybot.plugins.Git'").

(** [self.registryValue(name)], [entry] being what the registry has under
    [name]. *)
Definition registryValue {A} (name : string) (entry : option A) : M A :=
  match entry with
  | Some value => ret value
  | None => raise (NonExistentRegistryEntry name)
  end.

(** The configuration files that [os.access] finds readable, each with
    what [ConfigParser] makes of it: the exception of [parser.read], or
    the sections in order, each with [dict(parser.items(section))]. *)
Definition IniFiles : Type :=
  gmap string (result (list (string * gmap string (string)))).

Module Git.

(** [init_git_python]: [installed] is [git.__version__], [None] when
    [import git] fails. *)
Definition init_git_python (installed : option string) : M unit :=
  match installed with
  | None => raise (Exception "GitPython is not installed.")
  | Some version =>
      if negb (Py.startswith "0." version)
      then raise (Exception "Unsupported GitPython version.")
      else
        match String.get 2 version with
        | None => raise (IndexError "string index out of range")
        | Some c =>
            match int_of_char c with
            | None =>
                raise (ValueError ("invalid literal for int() with base 10: '"
                                   +:+ String c "'"))
            | Some v =>
                modify (with_GIT_API_VERSION v) ;;
                if bool_decide (v ∈ [1; 3]) then ret tt
                else
                  log_error ("GitPython version " +:+ version
                             +:+ " unrecognized, using 0.3.x API.") ;;
                  modify (with_GIT_API_VERSION 3)
            end
        end
  end.

(** [_read_config] *)
Definition _read_config (conf : Settings) (files : IniFiles) : M unit :=
  modify (with_repository_list (λ _, [])) ;;
  do value ← registryValue "debug" (debug conf);
  modify (with_DEBUG value) ;;
  do repo_dir ← registryValue "repoDir" (repoDir conf);
  do config ← registryValue "configFile" (configFile conf);
  match files !! config with
  | None =>
      raise (Exception ("Cannot access configuration file: " +:+ config))
  | Some parsed =>
      do sections ← lift parsed;
      for_each sections (λ '(section, options),
        do r ← __init__ repo_dir section options;
        modify (with_repository_list (λ l, l ++ [r])))
  end.

(** [Git(irc)]: [reply] is [irc.reply] when the object has one; at the
    start of the bot it has none. *)
Definition __init__ (installed : option string) (conf : Settings)
    (files : IniFiles) (reply : option (string → M unit)) : M unit :=
  init_git_python installed ;;
  _stop_polling ;;
  try_except (_read_config conf files)
    (λ e, match reply with
          | Some reply => reply ("Warning: " +:+ exn_str e)
          | None => log_warning (exn_str e)
          end) ;;
  _schedule_next_event.

(** [die]: the threads of the parent class are not modelled. *)
Definition die : M unit := _stop_polling.

(** The objects of [self.repository_list], each with its reference. *)
Definition repository_objects : M (list (nat * Repository)) :=
  do refs ← gets repository_list;
  mapM (λ r, do rep ← self_ r; ret (r, rep)) refs.

(** [repositories], as [wrap] calls it with the channel. *)
Definition repositories (reply : string → M unit) (channel : string)
    : M unit :=
  do all ← repository_objects;
  let repositories :=
    List.filter (λ '(_, r), bool_decide (channel ∈ channels r)) all in
  match repositories with
  | [] => reply "No repositories configured for this channel."
  | _ :: _ =>
      for_each repositories (λ '(_, r),
        reply (String "002" (short_name r)
               +:+ String "002" (" (" +:+ long_name r +:+ ")")))
  end.

(** [_parse_repo].  Its call [self.repositories(irc, msg, [])] goes through
    [wrap], which finds the channel in the message: [msg_channel] is that
    channel, [None] for a message that was not sent to a channel, where
    [wrap] raises its [ArgumentError]. *)
Definition _parse_repo (reply : string → M unit) (msg_channel : option string)
    (repo channel : string) : M (option nat) :=
  do all ← repository_objects;
  let matches := List.filter (λ '(_, r), bool_decide (short_name r = repo)) all in
  match matches with
  | [] =>
      reply ("No repository named " +:+ repo +:+ ", showing available:") ;;
      match msg_channel with
      | Some c => repositories reply c
      | None => raise (Exception "ArgumentError")
      end ;;
      ret None
  | (repository, r) :: _ =>
      if bool_decide (channel ∈ channels r) then ret (Some repository)
      else reply "Sorry, not allowed in this channel." ;; ret None
  end.

(** [rehash] *)
Definition rehash (conf : Settings) (files : IniFiles)
    (reply : string → M unit) : M unit :=
  _stop_polling ;;
  try_except
    (_read_config conf files ;;
     _schedule_next_event ;;
     do n ← gets (λ w, length (repository_list w));
     do word ← lift (plural (Z.of_nat n) "repository" None);
     reply ("Git reinitialized with " +:+ pretty n +:+ " " +:+ word +:+ "."))
    (λ e, reply ("Warning: " +:+ exn_str e)).

(** The loop of [_snarf], left by [break] at the first repository that
    has the commit. *)
Fixpoint snarf_loop (irc : nat) (channel sha : string) (todo : list nat)
    : M unit :=
  match todo with
  | [] => ret tt
  | repository :: rest =>
      do commit ← get_commit repository sha;
      match commit with
      | Some c => _display_commits irc channel repository (OneCommit c) "snarf"
      | None => snarf_loop irc channel sha rest
      end
  end.

(** [_snarf]: [sha] is what the regular expression has found in a message
    to [channel]. *)
Definition _snarf (conf : Settings) (irc : nat) (channel sha : string)
    : M unit :=
  do enabled ← registryValue "enableSnarf" (enableSnarf conf);
  if negb enabled then ret tt
  else
    do all ← repository_objects;
    let repositories :=
      List.filter (λ '(_, r), bool_decide (channel ∈ channels r)) all in
    snarf_loop irc channel sha repositories.*1.

(** [branches] *)
Definition branches (reply : string → M unit) (msg_channel : option string)
    (channel repo : string) : M unit :=
  do repository ← _parse_repo reply msg_channel repo channel;
  match repository with
  | None => ret tt
  | Some r =>
      do rep ← self_ r;
      reply ("Watched branches: " +:+ String.concat ", " (branches rep))
  end.

End Git.

(** * Vocabulary of the specifications

    The relations, predicates and sample worlds the theorems are stated
    with. *)

(** ** Frames

    [stable R m]: whatever the outcome of [m], the world it leaves is
    related by [R] to the world it started from.  With [R] a preorder this
    covers what a computation keeps ([keeps]), the invariants it maintains
    ([maintains]) and the locks it gives back ([held]). *)
Definition stable {A} (R : relation World) (m : M A) : Prop :=
  ∀ w, R w (fst (m w)).

Definition keeps {X} (f : World → X) : relation World :=
  λ w w', f w' = f w.

Definition maintains (I : World → Prop) : relation World :=
  λ w w', I w → I w'.

Definition held (self : nat) : relation World :=
  λ w w', ∀ n, lock_of w self = Mine n → lock_of w' self = Mine n.

(** A relation that does not look at one component of the world. *)
Class LogBlind (R : relation World) :=
  log_blind : ∀ f w, R w (with_logged f w).
Class LockBlind (R : relation World) :=
  lock_blind : ∀ f w, R w (with_locks f w).
Class HeapBlind (R : relation World) :=
  heap_blind : ∀ f w, R w (with_heap f w).
Class DiskBlind (R : relation World) :=
  disk_blind : ∀ f w, R w (with_disk f w).
Class ClockBlind (R : relation World) :=
  clock_blind : ∀ f w, R w (with_clock f w).
Class IrcBlind (R : relation World) :=
  irc_blind : ∀ f w, R w (with_ircs f w).
Class GhostBlind (R : relation World) :=
  ghost_blind : ∀ f w, R w (with_fetch_calls f w).
Class ScheduleBlind (R : relation World) :=
  schedule_blind : ∀ a e w, R w (with_schedule a e w).

(** A relation that holds when a call of [fetch] is noted. *)
Class GhostAppend (R : relation World) :=
  ghost_append : ∀ x w, R w (with_fetch_calls (λ l, l ++ [x]) w).

(** A relation that [synchronized] respects. *)
Class Synchronizable (R : relation World) :=
  stable_synchronized :
    ∀ A self (m : M A), stable R m → stable R (synchronized self m).

(** ** Predicates and functions of the statements *)

(** [GIT_API_VERSION] as [init_git_python] leaves it. *)
Definition api_ok (w : World) : Prop :=
  GIT_API_VERSION w = 1 ∨ GIT_API_VERSION w = 3.

(** The state in which the scanner leaves a piece of a line. *)
Fixpoint scan (subst : gmap ascii string) (line : string)
    (md : mode) (outline color : string) : mode * string * string :=
  match line with
  | EmptyString => (md, outline, color)
  | String c rest =>
      match md with
      | MODE_SUBST =>
          match subst !! c with
          | Some v => scan subst rest MODE_NORMAL (outline +:+ v) color
          | None =>
              if decide (c = "("%char)
              then scan subst rest MODE_COLOR outline ""
              else scan subst rest MODE_NORMAL (outline +:+ String c "") color
          end
      | MODE_COLOR =>
          if decide (c = ")"%char)
          then scan subst rest MODE_NORMAL (outline +:+ String "003" color) color
          else scan subst rest MODE_COLOR outline (color +:+ String c "")
      | MODE_NORMAL =>
          if decide (c = "%"%char)
          then scan subst rest MODE_SUBST outline color
          else scan subst rest MODE_NORMAL (outline +:+ String c "") color
      end
  end.

(** The mode the scanner is in after [pre], started at the head of a line. *)
Definition mode_after (subst : gmap ascii string) (pre : string) : mode :=
  (scan subst pre MODE_NORMAL "" "").1.1.

(** What [format_link] returns, as a function of the template and the
    commit. *)
Fixpoint link_text (commit : Commit) (todo : string) (result : string)
    (escaped : bool) : string :=
  match todo with
  | EmptyString => result
  | String c rest =>
      if escaped then
        if decide (c = "c"%char) then
          link_text commit rest (result +:+ Py.take 7 (hexsha commit)) false
        else if decide (c = "C"%char) then
          link_text commit rest (result +:+ hexsha commit) false
        else link_text commit rest (result +:+ String c "") false
      else if decide (c = "%"%char) then link_text commit rest result true
      else link_text commit rest (result +:+ String c "") false
  end.

(** What [format_message] returns, likewise. *)
Definition message_lines (r : Repository) (commit : Commit) (branch : string)
    : list string :=
  (λ line,
     format_line
       (subst_dict r commit branch (Py.take 7 (hexsha commit)) (hexsha commit)
          (link_text commit (commit_link r) "" false))
       line MODE_NORMAL "" "")
    <$> Py.split_on newline (commit_message r).

(** The connection [irc] takes messages and has [box] in its queue. *)
Definition accepting (irc : nat) (box : list (string * string)) (w : World)
    : Prop :=
  ∃ i, ircs w !! irc = Some i ∧ refuses i = None ∧ outbox i = box.

(** A repository object with the long name Demo and the given template. *)
Definition demo_repository (template : string) : Repository :=
  {| branches_opt := PStr "main";
     branches := ["main"];
     commit_by_branch := ∅;
     channels := ["#demo"];
     commit_link := "http://demo/%c";
     commit_message := template;
     errors := [];
     group_header := true;
     long_name := "Demo";
     short_name := "demo";
     repo := Some "repos/demo";
     url := "git://demo";
     path := "repos/demo" |}.

(** A commit of Ada with a message of two lines. *)
Definition demo_commit : Commit :=
  mkCommit "a1b2c3d4e5f60718293a4b5c6d7e8f9001122334" "Ada" "ada@example.org"
    ("Fix bug" +:+ String newline "Details").

(** A world with one repository object and nothing else. *)
Definition demo_world (template : string) : World :=
  {| GIT_API_VERSION := 3; _DEBUG := false; maxCommitsAtOnce := 5;
     pollPeriod := 120; logged := []; heap := [demo_repository template];
     locks := ∅; repository_list := [0%nat]; ircs := []; disk := ∅; net := ∅;
     clock := 0; fetcher_alive := false; scheduled := None; fetch_calls := [] |}.

(** The option is one of the required or the optional ones. *)
Definition recognised (name : string) : bool :=
  bool_decide (name ∈ required_values) || bool_decide (name ∈ optional_values).

(** A world with nothing in it, the API version initialised. *)
Definition bare_world : World :=
  {| GIT_API_VERSION := 3; _DEBUG := false; maxCommitsAtOnce := 5;
     pollPeriod := 120; logged := []; heap := []; locks := ∅;
     repository_list := []; ircs := []; disk := ∅; net := ∅; clock := 0;
     fetcher_alive := false; scheduled := None; fetch_calls := [] |}.

Definition options_without_channels : gmap string string :=
  list_to_map [("short name", "demo"); ("url", "git://demo")].



(** The remote of the scenario: branches main, release-1, release-2, dev. *)
Definition scenario_remote : Remote :=
  {| reachable := true; latency := 40; remote_HEAD := "main";
     remote_heads :=
       list_to_map [("main", "c3"); ("release-1", "a1");
                    ("release-2", "b2"); ("dev", "a1")];
     remote_objects :=
       list_to_map
         [("a1", mkCommitData "Ada" "ada@example.org" "first" []);
          ("b2", mkCommitData "Ada" "ada@example.org" "second" ["a1"]);
          ("c3", mkCommitData "Bob" "bob@example.org" "third" ["b2"])] |}.

(** A world where the remote has just been cloned to [repos/demo]. *)
Definition scenario_world : World :=
  {| GIT_API_VERSION := 3; _DEBUG := false; maxCommitsAtOnce := 5;
     pollPeriod := 120; logged := []; heap := []; locks := ∅;
     repository_list := []; ircs := [];
     disk := {[ "repos/demo" := GitModel.clone "git://demo" scenario_remote ]};
     net := {[ "git://demo" := scenario_remote ]};
     clock := 0; fetcher_alive := false; scheduled := None; fetch_calls := [] |}.

(** The commits of a batch of Ada. *)
Definition batch_commit (n : string) : Commit :=
  mkCommit ("c0ffee" +:+ n) "Ada" "ada@example.org" ("change " +:+ n).

(** One repository, one connection in its channel, and the limit of
    [maxCommitsAtOnce] commits for one update. *)
Definition display_world (limit : nat) : World :=
  {| GIT_API_VERSION := 3; _DEBUG := false; maxCommitsAtOnce := limit;
     pollPeriod := 120; logged := [];
     heap := [demo_repository "[%s|%b|%a] %m"];
     locks := ∅; repository_list := [0%nat];
     ircs := [mkIrc ["#demo"] [] None]; disk := ∅; net := ∅;
     clock := 0; fetcher_alive := false; scheduled := None; fetch_calls := [] |}.

(** The queues after the batch on main has been displayed there. *)
Definition displayed (limit : nat) (commits : list Commit)
    : list (list (string * string)) :=
  outbox <$> ircs (fst (_display_commits 0 "#demo" 0
                          (ByBranch {[ "main" := commits ]}) "commits"
                          (display_world limit))).

(** [stop()] is never called. *)
Definition never : Z → bool := λ _, false.

(** The calls of [fetch] noted so far start with [calls]. *)
Definition fetched_first (calls : list (Z * nat)) (w : World) : Prop :=
  calls `prefix_of` fetch_calls w.

(** A repository object that tracks main in the mirror of the scenario,
    with the given cursor. *)
Definition tracked_at (cursor : Commit) : Repository :=
  {| branches_opt := PStr "main";
     branches := ["main"];
     commit_by_branch := {[ "main" := Some cursor ]};
     channels := ["#demo"];
     commit_link := "";
     commit_message := "[%s|%b|%a] %m";
     errors := [];
     group_header := true;
     long_name := "Demo";
     short_name := "demo";
     repo := Some "repos/demo";
     url := "git://demo";
     path := "repos/demo" |}.

Definition commit_b2 : Commit := mkCommit "b2" "Ada" "ada@example.org" "second".
Definition commit_c3 : Commit := mkCommit "c3" "Bob" "bob@example.org" "third".

Definition tracked_repository : Repository := tracked_at commit_c3.

(** A world with the mirror of the scenario tracked by one repository
    object whose cursor is the head of main; the lock is free. *)
Definition tracked_world (remote : Remote) (all : list Irc) : World :=
  {| GIT_API_VERSION := 3; _DEBUG := false; maxCommitsAtOnce := 5;
     pollPeriod := 120; logged := []; heap := [tracked_repository];
     locks := ∅; repository_list := [0%nat]; ircs := all;
     disk := {[ "repos/demo" := GitModel.clone "git://demo" scenario_remote ]};
     net := {[ "git://demo" := remote ]};
     clock := 0; fetcher_alive := false; scheduled := None; fetch_calls := [] |}.

(** The same with the cursor of main one commit behind its head. *)
Definition behind_world (all : list Irc) : World :=
  with_heap (λ _, [tracked_at commit_b2]) (tracked_world scenario_remote all).

(** The world in which [run] calls [fetch]: the lock taken, the call noted. *)
Definition entering (repository : nat) (w : World) : World :=
  with_fetch_calls (λ l, l ++ [(clock w, repository)])
    (fst (acquire_nonblocking repository w)).

(** The remote of the scenario, out of reach. *)
Definition unreachable_remote : Remote :=
  {| reachable := false; latency := 40; remote_HEAD := "main";
     remote_heads := remote_heads scenario_remote;
     remote_objects := remote_objects scenario_remote |}.

(** What [_get_commits] returns, as a function of what it reads. *)
Definition commits_between (api : Z) (dsk : gmap string GitRepo)
    (h : option string) (first : option Commit) (last : string)
    : result (list Commit) :=
  if decide (api = 1 ∨ api = 3) then
    match h with
    | None => Raise (AttributeError "'NoneType' object has no attribute")
    | Some p =>
        match dsk !! p with
        | None => Raise (NoSuchPathError p)
        | Some g =>
            match GitModel.rev_list g first last with
            | Some cs => Ok cs
            | None =>
                Raise (GitCommandError
                         ("bad revision " +:+ str_commit first +:+ ".." +:+ last))
            end
        end
    end
  else Raise (Exception ("Unsupported API version: " +:+ pretty api)).

(** A dict of [get_new_commits] that reports no commit. *)
Definition all_empty (r : gmap string (list Commit)) : Prop :=
  ∀ b cs, r !! b = Some cs → cs = [].

(** A call of one of the two methods of the tracker. *)
Inductive tracker_call := CallFetch | CallGetNewCommits.

(** One call by a caller that survives the exceptions; a call of
    [get_new_commits] that returns gives its dict. *)
Definition call (self : nat) (c : tracker_call)
    : M (option (gmap string (list Commit))) :=
  match c with
  | CallFetch => try_except (fetch self ;; ret None) (λ _, ret None)
  | CallGetNewCommits =>
      try_except (do r ← get_new_commits self; ret (Some r)) (λ _, ret None)
  end.



(** Two connections in the channel of the repository; the first refuses
    the messages queued on it. *)
Definition two_targets : list Irc :=
  [mkIrc ["#demo"] [] (Some (IrcError "not connected"));
   mkIrc ["#demo"] [] None].

(** The lock after the running thread has taken it once more. *)
Definition after_acquire (l : LockState) : LockState :=
  match l with Mine n => Mine (S n) | _ => Mine O end.

(** ** Vocabulary of the further properties *)

(** No plural form is given: [None], or the empty string, which Python
    takes for false. *)
Definition no_plural (p : option string) : Prop := p = None ∨ p = Some "".

(** The lock [l], when another thread does not hold it, is left as it
    was found. *)
Definition lock_kept (l : nat) : relation World :=
  λ w w', lock_of w l ≠ Theirs → lock_of w' l = lock_of w l.

(** A call of one of the methods of [Repository] that [synchronized]
    decorates, with its arguments. *)
Inductive method :=
| Clone
| Fetch
| GetCommit (sha : string)
| GetCommitId (commit : Commit)
| GetNewCommits
| GetRecentCommits (branch : string) (count : nat)
| FormatLink (commit : Commit)
| FormatMessage (commit : Commit) (branch : string)
| RecordError (e : exn)
| GetErrors.

(** The call on the object [self], what it returns left aside. *)
Definition invoke (self : nat) (m : method) : M unit :=
  match m with
  | Clone => clone self
  | Fetch => fetch self
  | GetCommit sha => get_commit self sha ;; ret tt
  | GetCommitId commit => get_commit_id self commit ;; ret tt
  | GetNewCommits => get_new_commits self ;; ret tt
  | GetRecentCommits branch count => get_recent_commits self branch count ;; ret tt
  | FormatLink commit => format_link self commit ;; ret tt
  | FormatMessage commit branch => format_message self commit branch ;; ret tt
  | RecordError e => record_error self e
  | GetErrors => get_errors self ;; ret tt
  end.

(** The calls of [fetch] noted between two worlds all satisfy [P]. *)
Definition fetched_since (P : Z * nat → Prop) : relation World :=
  λ w w', ∃ new, fetch_calls w' = fetch_calls w ++ new ∧ Forall P new.

(** A call of [fetch] by a thread that has not been told to stop, on one
    of its repositories. *)
Definition allowed_fetch (stop : Z → bool) (self : GitFetcher.t)
    (c : Z * nat) : Prop :=
  stop c.1 = false ∧ c.2 ∈ GitFetcher.repository_list self.

(** The mirror [g] once its branch [b] has been brought to the head [sha]
    of that branch on the remote [rm]. *)
Definition fetched_branch (rm : Remote) (b sha : string) (g : GitRepo)
    : GitRepo :=
  {| origin_url := origin_url g;
     objects := remote_objects rm ∪ objects g;
     heads := <[ b := sha ]> (heads g);
     remote_refs := remote_refs g;
     active_branch := active_branch g |}.

(** The object [self] tracks the mirror at [p], which has the objects of
    its remote; every cursor is of a tracked branch and is the head of
    that branch, in the mirror as on the remote. *)
Definition cursors_at_heads (self : nat) (p : string) (w : World) : Prop :=
  ∃ rep g rm,
    heap w !! self = Some rep ∧ repo rep = Some p
    ∧ disk w !! p = Some g
    ∧ net w !! origin_url g = Some rm
    ∧ remote_objects rm ⊆ objects g
    ∧ ∀ b c, commit_by_branch rep !! b = Some c →
        b ∈ branches rep ∧ is_Some c ∧ c = GitModel.lookup_commit g b
        ∧ heads g !! b = remote_heads rm !! b.

(** Between two worlds the connections have stayed the same but for
    their queues, which have grown by messages to channels that [allowed]
    allows for the connection. *)
Definition queued_only (allowed : nat → string → Prop) : relation World :=
  λ w w', ∀ i irc', ircs w' !! i = Some irc' →
    ∃ irc new, ircs w !! i = Some irc
               ∧ state_channels irc' = state_channels irc
               ∧ outbox irc' = outbox irc ++ new
               ∧ Forall (λ m, allowed i m.1) new.

(** The channel is one of the repository, and the connection is in it. *)
Definition notified (all : list Irc) (r : Repository) (i : nat)
    (channel : string) : Prop :=
  channel ∈ channels r
  ∧ ∃ irc, all !! i = Some irc ∧ channel ∈ state_channels irc.

(** The text of the answer of [rehash] for [n] repositories. *)
Definition reinitialized (n : nat) : string :=
  "Git reinitialized with " +:+ pretty n +:+ " "
  +:+ (if decide (n = 1%nat) then "repository" else "repositories") +:+ ".".

(** A connection that takes the answers of a command. *)
Definition answering : string → M unit := queueMsg 0 "#demo".

(** A registry that has the four entries, for the examples. *)
Definition demo_settings : Settings :=
  {| debug := Some false; repoDir := Some "repos";
     configFile := Some "git.ini"; enableSnarf := Some true |}.

(** No exchange with a remote takes a negative time. *)
Definition latencies_ok (w : World) : Prop :=
  ∀ url rm, net w !! url = Some rm → 0 ≤ latency rm.

(** The remotes are the same and, the exchanges taking time, the clock
    has not gone back. *)
Definition forward : relation World :=
  λ w w', net w' = net w ∧ (latencies_ok w → clock w ≤ clock w').

(** What the options of its section have given to a repository object. *)
Definition settings_of (r : Repository) :=
  (branches_opt r, channels r, commit_link r, commit_message r,
   group_header r, long_name r, short_name r, url r, path r).

(** The objects are the same in number and each has the settings it had. *)
Definition settings_kept : relation World :=
  λ w w', settings_of <$> heap w' = settings_of <$> heap w.

(** The options of the section Demo of the examples. *)
Definition demo_options : gmap string string :=
  list_to_map [("short name", "demo"); ("url", "git://demo");
               ("channel", "#demo #dev"); ("branches", "main");
               ("group header", "on")].

(** The objects there were are there, each with the settings it had;
    there may be more. *)
Definition settings_extended : relation World :=
  λ w w', (settings_of <$> heap w) `prefix_of` (settings_of <$> heap w').

(** The object behind the reference [r] was made for the section
    [section]: it has its name. *)
Definition made_for (w : World) (r : nat)
    (section : string * gmap string string) : Prop :=
  long_name <$> heap w !! r = Some section.1.

(** ASCII text: every character is below 128.  On such text Python 2's
    [str] and [unicode] are the same, and [encode('utf-8')] changes
    nothing. *)
Fixpoint ascii_text (s : string) : bool :=
  match s with
  | EmptyString => true
  | String c s' => (Ascii.N_of_ascii c <? 128)%N && ascii_text s'
  end.

(** All the text that [format_message] works on is ASCII text: the two
    templates, the names and the url of the repository, the branch, and
    the author, the message and the id of the commit. *)
Definition ascii_inputs (r : Repository) (commit : Commit) (branch : string)
    : bool :=
  forallb ascii_text
    [commit_message r; commit_link r; long_name r; short_name r; url r;
     branch; author_name commit; author_email commit; message commit;
     hexsha commit].

(** The keys of the dictionary [subst] of [format_message]. *)
Definition substitution_keys : list ascii :=
  ["a"; "b"; "c"; "C"; "e"; "l"; "m"; "n"; "s"; "S"; "u"; "r"; "!"; "%"]%char.

(** The dictionary [subst] of a call of [format_message] with the API
    version set. *)
Definition message_subst (r : Repository) (commit : Commit) (branch : string)
    : gmap ascii string :=
  subst_dict r commit branch (Py.take 7 (hexsha commit)) (hexsha commit)
    (link_text commit (commit_link r) "" false).

(** * Reasoning about computations *)

(** ** Frames *)

#[global] Instance keeps_preorder {X} (f : World → X) : PreOrder (keeps f).
Proof. split; [intros w; reflexivity | intros a b c H1 H2; unfold keeps in *; congruence]. Qed.

#[global] Instance maintains_preorder I : PreOrder (maintains I).
Proof. split; unfold maintains; [intros w; tauto | intros a b c; tauto]. Qed.

#[global] Instance held_preorder self : PreOrder (held self).
Proof. split; unfold held; [intros w; tauto | intros a b c H1 H2 n Hn; eauto]. Qed.

#[global] Hint Extern 1 (LogBlind (keeps _)) => (intros ? ?; reflexivity) : typeclass_instances.
#[global] Hint Extern 1 (LockBlind (keeps _)) => (intros ? ?; reflexivity) : typeclass_instances.
#[global] Hint Extern 1 (HeapBlind (keeps _)) => (intros ? ?; reflexivity) : typeclass_instances.
#[global] Hint Extern 1 (DiskBlind (keeps _)) => (intros ? ?; reflexivity) : typeclass_instances.
#[global] Hint Extern 1 (ClockBlind (keeps _)) => (intros ? ?; reflexivity) : typeclass_instances.
#[global] Hint Extern 1 (IrcBlind (keeps _)) => (intros ? ?; reflexivity) : typeclass_instances.
#[global] Hint Extern 1 (GhostBlind (keeps _)) => (intros ? ?; reflexivity) : typeclass_instances.
#[global] Hint Extern 1 (ScheduleBlind (keeps _)) => (intros ? ? ?; reflexivity) : typeclass_instances.

#[global] Instance held_log_blind self : LogBlind (held self).
Proof. intros f w n H. exact H. Qed.
#[global] Instance held_heap_blind self : HeapBlind (held self).
Proof. intros f w n H. exact H. Qed.
#[global] Instance held_disk_blind self : DiskBlind (held self).
Proof. intros f w n H. exact H. Qed.
#[global] Instance held_clock_blind self : ClockBlind (held self).
Proof. intros f w n H. exact H. Qed.
#[global] Instance held_irc_blind self : IrcBlind (held self).
Proof. intros f w n H. exact H. Qed.
#[global] Instance held_ghost_blind self : GhostBlind (held self).
Proof. intros f w n H. exact H. Qed.
#[global] Instance held_schedule_blind self : ScheduleBlind (held self).
Proof. intros a e w n H. exact H. Qed.

Section Stable.
Context (R : relation World) `{!PreOrder R}.

Lemma stable_ret {A} (a : A) : stable R (ret a).
Proof. intros w. reflexivity. Qed.

Lemma stable_raise {A} e : stable R (@raise A e).
Proof. intros w. reflexivity. Qed.

Lemma stable_gets {A} (f : World → A) : stable R (gets f).
Proof. intros w. reflexivity. Qed.

Lemma stable_modify f : (∀ w, R w (f w)) → stable R (modify f).
Proof. intros H w. apply H. Qed.

Lemma stable_bind {A B} (m : M A) (k : A → M B) :
  stable R m → (∀ a, stable R (k a)) → stable R (bind m k).
Proof.
  intros Hm Hk w. unfold bind. specialize (Hm w).
  destruct (m w) as [w' [a|e]]; simpl in *; [|exact Hm].
  etrans; [exact Hm | apply Hk].
Qed.

Lemma stable_try_except {A} (m : M A) h :
  stable R m → (∀ e, stable R (h e)) → stable R (try_except m h).
Proof.
  intros Hm Hh w. unfold try_except. specialize (Hm w).
  destruct (m w) as [w' [a|e]]; simpl in *; [exact Hm|].
  etrans; [exact Hm | apply Hh].
Qed.

Lemma stable_try_finally {A} (m : M A) fin :
  stable R m → stable R fin → stable R (try_finally m fin).
Proof.
  intros Hm Hf w. unfold try_finally. specialize (Hm w).
  destruct (m w) as [w' r]; simpl in *. specialize (Hf w').
  destruct (fin w') as [w'' [[]|e]]; simpl in *; etrans; eauto.
Qed.

Lemma stable_for_each {A} (l : list A) body :
  (∀ x, stable R (body x)) → stable R (for_each l body).
Proof.
  intros H. induction l as [|x l IH]; simpl;
    [apply stable_ret | apply stable_bind; auto].
Qed.

Lemma stable_mapM {A B} (f : A → M B) l :
  (∀ x, stable R (f x)) → stable R (mapM f l).
Proof.
  intros H. induction l as [|x l IH]; simpl; [apply stable_ret|].
  apply stable_bind; [apply H|]. intros y.
  apply stable_bind; [apply IH|]. intros ys. apply stable_ret.
Qed.

Lemma stable_when b m : stable R m → stable R (when b m).
Proof. intros H. destruct b; simpl; [exact H | apply stable_ret]. Qed.

Lemma stable_self_ self : stable R (self_ self).
Proof. intros w. unfold self_. destruct (heap w !! self); reflexivity. Qed.

Lemma stable_the_repo h : stable R (the_repo h).
Proof. destruct h; [apply stable_ret | apply stable_raise]. Qed.

Lemma stable_mirror p : stable R (mirror p).
Proof. intros w. unfold mirror. destruct (disk w !! p); reflexivity. Qed.

Lemma stable_pyval_split v : stable R (pyval_split v).
Proof. destruct v; [apply stable_ret | apply stable_raise..]. Qed.

End Stable.

#[global] Instance lock_blind_synchronizable R `{!PreOrder R, !LockBlind R} :
  Synchronizable R.
Proof.
  intros A self m Hm. unfold synchronized, acquire, release.
  apply stable_bind; [done| |intros _].
  - apply stable_bind; [done|apply stable_gets; done|]. intros l.
    apply stable_modify. intros w. apply lock_blind.
  - apply stable_try_finally; [done|exact Hm|].
    apply stable_bind; [done|apply stable_gets; done|].
    intros [|[|n]|]; try (apply stable_raise; done);
      apply stable_modify; intros w; apply lock_blind.
Qed.

#[global] Instance held_synchronizable self' : Synchronizable (held self').
Proof.
  intros A self m Hm w n Hn.
  unfold synchronized, acquire, release, bind, try_finally, gets, modify.
  simpl.
  set (w1 := with_locks _ w).
  assert (H1 : lock_of w1 self' =
               if decide (self = self') then Mine (S n) else Mine n).
  { unfold w1, lock_of. simpl. rewrite lookup_insert.
    destruct (decide (self = self')) as [->|Hne]; simpl.
    - unfold lock_of in Hn. rewrite Hn. reflexivity.
    - exact Hn. }
  specialize (Hm w1). destruct (m w1) as [w2 r]. simpl in Hm.
  assert (H2 : lock_of w2 self' =
               if decide (self = self') then Mine (S n) else Mine n).
  { destruct (decide (self = self')); apply Hm; exact H1. }
  destruct (decide (self = self')) as [->|Hne].
  - rewrite H2. simpl. unfold lock_of. simpl. rewrite lookup_insert_eq. reflexivity.
  - destruct (lock_of w2 self) as [|[|k]|]; simpl; try exact H2;
      unfold lock_of; simpl; rewrite lookup_insert_ne by done; exact H2.
Qed.

Ltac frame_tc := try first [assumption | apply _].

(** One step of a frame proof: the rule of the head of the computation. *)
Ltac frame_step :=
  lazymatch goal with
  | |- stable _ (ret _) => apply stable_ret; frame_tc
  | |- stable _ (raise _) => apply stable_raise; frame_tc
  | |- stable _ (gets _) => apply stable_gets; frame_tc
  | |- stable _ (bind _ _) => apply stable_bind; [frame_tc | | intros ?]
  | |- stable _ (try_except _ _) => apply stable_try_except; [frame_tc | | intros ?]
  | |- stable _ (try_finally _ _) => apply stable_try_finally; [frame_tc | | ]
  | |- stable _ (for_each _ _) => apply stable_for_each; [frame_tc | intros ?]
  | |- stable _ (mapM _ _) => apply stable_mapM; [frame_tc | intros ?]
  | |- stable _ (when _ _) => apply stable_when; [frame_tc | ]
  | |- stable _ (self_ _) => apply stable_self_; frame_tc
  | |- stable _ (the_repo _) => apply stable_the_repo; frame_tc
  | |- stable _ (mirror _) => apply stable_mirror; frame_tc
  | |- stable _ (pyval_split _) => apply stable_pyval_split; frame_tc
  | |- stable _ (synchronized _ _) => apply stable_synchronized
  | |- stable _ (modify (with_logged _)) =>
      apply stable_modify; intros ?; apply log_blind
  | |- stable _ (modify (with_locks _)) =>
      apply stable_modify; intros ?; apply lock_blind
  | |- stable _ (modify (with_heap _)) =>
      apply stable_modify; intros ?; apply heap_blind
  | |- stable _ (modify (with_disk _)) =>
      apply stable_modify; intros ?; apply disk_blind
  | |- stable _ (modify (with_clock _)) =>
      apply stable_modify; intros ?; apply clock_blind
  | |- stable _ (modify (with_ircs _)) =>
      apply stable_modify; intros ?; apply irc_blind
  | |- stable _ (modify (with_fetch_calls _)) =>
      apply stable_modify; intros ?; apply ghost_blind
  | |- stable _ (modify (with_schedule _ _)) =>
      apply stable_modify; intros ?; apply schedule_blind
  | |- stable _ (match ?x with _ => _ end) => destruct x
  | |- stable _ (let _ := _ in _) => cbv zeta
  end.

Ltac frame := repeat frame_step.

Section Frames.
Context (R : relation World) `{!PreOrder R, !Synchronizable R}.
Context `{!LogBlind R, !HeapBlind R, !DiskBlind R, !ClockBlind R,
          !IrcBlind R, !GhostBlind R, !ScheduleBlind R}.

Lemma stable_log_ lv msg : stable R (log_ lv msg).
Proof. unfold log_. frame. Qed.

Lemma stable_log_debug msg : stable R (log_debug msg).
Proof. unfold log_debug. frame. apply stable_log_. Qed.

Lemma stable_update_self self f : stable R (update_self self f).
Proof. unfold update_self. frame. Qed.

Lemma stable_origin g : stable R (origin g).
Proof.
  intros w. unfold origin. destruct (net w !! origin_url g) as [r|];
    [|reflexivity]. destruct (reachable r); apply clock_blind.
Qed.

Lemma stable_remotes0_update p : stable R (remotes0_update p).
Proof. unfold remotes0_update. frame. apply stable_origin. Qed.

Lemma stable_update_branch p src dst : stable R (update_branch p src dst).
Proof. unfold update_branch. frame. apply stable_origin. Qed.

Lemma stable_update_tracked p branch : stable R (update_tracked p branch).
Proof.
  unfold update_tracked, repo_active_branch, remote_pull, remote_fetch.
  frame; apply stable_update_branch.
Qed.

Lemma stable_repo_commit p rev : stable R (repo_commit p rev).
Proof. unfold repo_commit. frame. Qed.

Lemma stable__get_commits h first last : stable R (_get_commits h first last).
Proof. unfold _get_commits, repo_rev_list. frame. Qed.

Lemma stable_fetch self : stable R (fetch self).
Proof.
  unfold fetch. frame; [apply stable_remotes0_update | apply stable_update_tracked].
Qed.

Lemma stable_get_commit self sha : stable R (get_commit self sha).
Proof. unfold get_commit. frame. apply stable_repo_commit. Qed.

Lemma stable_get_commit_id self commit : stable R (get_commit_id self commit).
Proof. unfold get_commit_id. frame. Qed.

Lemma stable_new_commits_loop h todo acc : stable R (new_commits_loop h todo acc).
Proof.
  revert acc. induction todo as [|[b c] todo IH]; intros acc; simpl; frame.
  - apply stable__get_commits.
  - apply stable_log_debug.
  - apply IH.
Qed.

Lemma stable_get_new_commits self : stable R (get_new_commits self).
Proof. unfold get_new_commits. frame. apply stable_new_commits_loop. Qed.

Lemma stable_record_error self e : stable R (record_error self e).
Proof. unfold record_error. frame. apply stable_update_self. Qed.

Lemma stable_get_errors self : stable R (get_errors self).
Proof. unfold get_errors. frame. apply stable_update_self. Qed.

Lemma stable_format_link_loop self commit todo result escaped :
  stable R (format_link_loop self commit todo result escaped).
Proof.
  revert result escaped.
  induction todo as [|c todo IH]; intros result escaped; simpl; frame;
    try apply stable_get_commit_id; apply IH.
Qed.

Lemma stable_format_link self commit : stable R (format_link self commit).
Proof. unfold format_link. frame. apply stable_format_link_loop. Qed.

Lemma stable_format_message self commit branch :
  stable R (format_message self commit branch).
Proof.
  unfold format_message. frame;
    try apply stable_get_commit_id; apply stable_format_link.
Qed.

Lemma stable_queueMsg irc channel text : stable R (queueMsg irc channel text).
Proof.
  intros w. unfold queueMsg. destruct (ircs w !! irc) as [i|]; [|reflexivity].
  destruct (refuses i); [reflexivity | apply irc_blind].
Qed.

Lemma stable__display_some_commits irc channel repository commits branch :
  stable R (_display_some_commits irc channel repository commits branch).
Proof.
  unfold _display_some_commits. frame;
    try apply stable_queueMsg; apply stable_format_message.
Qed.

Lemma stable__display_commits irc channel repository arg ctx :
  stable R (_display_commits irc channel repository arg ctx).
Proof.
  unfold _display_commits. frame;
    try apply stable__display_some_commits;
    try apply stable_queueMsg; apply stable_get_commit_id.
Qed.

Lemma stable_advance_cursors repository new :
  stable R (advance_cursors repository new).
Proof.
  unfold advance_cursors. frame;
    [apply stable_get_commit | apply stable_update_self].
Qed.

End Frames.

(** ** Running computations *)

Lemma bind_run {A B} (m : M A) (k : A → M B) w :
  bind m k w =
  match snd (m w) with
  | Ok a => k a (fst (m w))
  | Raise e => (fst (m w), Raise e)
  end.
Proof. unfold bind. destruct (m w) as [w' [a|e]]; reflexivity. Qed.

Lemma bind_ok {A B} (m : M A) (k : A → M B) w a :
  snd (m w) = Ok a → bind m k w = k a (fst (m w)).
Proof. intros H. rewrite bind_run, H. reflexivity. Qed.

Lemma bind_raise {A B} (m : M A) (k : A → M B) w e :
  snd (m w) = Raise e → bind m k w = (fst (m w), Raise e).
Proof. intros H. rewrite bind_run, H. reflexivity. Qed.

Lemma lock_of_acquire self w :
  ∃ n, lock_of (fst (acquire self w)) self = Mine n.
Proof.
  unfold acquire, bind, gets, modify, lock_of. simpl.
  rewrite lookup_insert_eq. simpl.
  destruct (default Free (locks w !! self)); eauto.
Qed.

Lemma release_held self w n :
  lock_of w self = Mine n → snd (release self w) = Ok tt.
Proof.
  intros H. unfold release, bind, gets. simpl. rewrite H.
  destruct n; reflexivity.
Qed.

(** Under [synchronized] a body that gives back the locks it takes
    decides the outcome. *)
Lemma synchronized_snd {A} self (m : M A) w :
  stable (held self) m →
  snd (synchronized self m w) = snd (m (fst (acquire self w))).
Proof.
  intros Hm. unfold synchronized. rewrite bind_run.
  assert (Ha : snd (acquire self w) = Ok tt) by reflexivity.
  rewrite Ha. unfold try_finally.
  destruct (lock_of_acquire self w) as [n Hn].
  pose proof (Hm _ n Hn) as Hn'.
  destruct (m (fst (acquire self w))) as [w2 r]. simpl in *.
  pose proof (release_held self w2 n Hn') as Hr.
  destruct (release self w2) as [w3 [[]|e]]; simpl in *; [reflexivity|discriminate].
Qed.

Lemma synchronized_fst {A} self (m : M A) w :
  stable (held self) m →
  fst (synchronized self m w) =
  fst (release self (fst (m (fst (acquire self w))))).
Proof.
  intros Hm. unfold synchronized. rewrite bind_run.
  assert (Ha : snd (acquire self w) = Ok tt) by reflexivity.
  rewrite Ha. unfold try_finally.
  destruct (m (fst (acquire self w))) as [w2 r]. simpl.
  destruct (release self w2) as [w3 [[]|e]]; reflexivity.
Qed.

Lemma api_ok_stable {A} (m : M A) w :
  stable (keeps GIT_API_VERSION) m → api_ok w → api_ok (fst (m w)).
Proof. intros Hm Hw. unfold api_ok. rewrite (Hm w). exact Hw. Qed.

Lemma get_commit_id_snd self commit w :
  api_ok w → snd (get_commit_id self commit w) = Ok (hexsha commit).
Proof.
  intros Hw. unfold get_commit_id.
  rewrite synchronized_snd by frame.
  unfold bind, gets. simpl.
  destruct Hw as [-> | ->]; reflexivity.
Qed.

Lemma self_run self w r :
  heap w !! self = Some r → self_ self w = (w, Ok r).
Proof. intros H. unfold self_. rewrite H. reflexivity. Qed.

Lemma format_link_loop_ok self commit todo :
  ∀ result escaped w, api_ok w →
    ∃ link, snd (format_link_loop self commit todo result escaped w) = Ok link.
Proof.
  induction todo as [|c todo IH]; intros result escaped w Hw; simpl.
  - eexists. reflexivity.
  - destruct escaped.
    + destruct (decide (c = "c"%char)); [|destruct (decide (c = "C"%char))].
      * rewrite (bind_ok _ _ _ _ (get_commit_id_snd self commit w Hw)).
        apply IH, api_ok_stable; [apply stable_get_commit_id; apply _ | exact Hw].
      * rewrite (bind_ok _ _ _ _ (get_commit_id_snd self commit w Hw)).
        apply IH, api_ok_stable; [apply stable_get_commit_id; apply _ | exact Hw].
      * apply IH, Hw.
    + destruct (decide (c = "%"%char)); apply IH, Hw.
Qed.

Lemma format_link_ok self commit w r :
  api_ok w → heap w !! self = Some r →
  ∃ link, snd (format_link self commit w) = Ok link.
Proof.
  intros Hw Hr. unfold format_link.
  rewrite synchronized_snd
    by (frame; apply stable_format_link_loop; apply _).
  rewrite bind_run, (self_run self _ r) by exact Hr. simpl.
  apply format_link_loop_ok. exact Hw.
Qed.

(** What [format_message] returns: every line of the template rendered by
    [format_line] with the substitutions of the commit. *)
Lemma format_message_snd self commit branch w r :
  api_ok w → heap w !! self = Some r →
  ∃ link,
    snd (format_message self commit branch w) =
    Ok ((λ line,
           format_line
             (subst_dict r commit branch (Py.take 7 (hexsha commit))
                (hexsha commit) link)
             line MODE_NORMAL "" "")
          <$> Py.split_on newline (commit_message r)).
Proof.
  intros Hw Hr. unfold format_message.
  rewrite synchronized_snd
    by (frame; try apply stable_get_commit_id; try apply stable_format_link; apply _).
  set (w1 := fst (acquire self w)).
  assert (Hw1 : api_ok w1) by exact Hw.
  assert (Hr1 : heap w1 !! self = Some r) by exact Hr.
  clearbody w1.
  rewrite bind_run, (self_run self _ r) by exact Hr1. simpl.
  rewrite (bind_ok _ _ _ _ (get_commit_id_snd self commit w1 Hw1)).
  set (w2 := fst (get_commit_id self commit w1)).
  assert (Hw2 : api_ok w2)
    by (apply api_ok_stable; [apply stable_get_commit_id; apply _ | exact Hw1]).
  assert (Hr2 : heap w2 !! self = Some r).
  { unfold w2. rewrite (stable_get_commit_id (keeps heap) self commit w1). exact Hr1. }
  clearbody w2.
  rewrite (bind_ok _ _ _ _ (get_commit_id_snd self commit w2 Hw2)).
  set (w3 := fst (get_commit_id self commit w2)).
  assert (Hw3 : api_ok w3)
    by (apply api_ok_stable; [apply stable_get_commit_id; apply _ | exact Hw2]).
  assert (Hr3 : heap w3 !! self = Some r).
  { unfold w3. rewrite (stable_get_commit_id (keeps heap) self commit w2). exact Hr2. }
  clearbody w3.
  destruct (format_link_ok self commit w3 r Hw3 Hr3) as [link Hl].
  rewrite (bind_ok _ _ _ _ Hl). simpl. exists link. reflexivity.
Qed.

(** ** The scanner of [format_message] *)

Lemma string_app_cons x (a b : string) : String x a +:+ b = String x (a +:+ b).
Proof. reflexivity. Qed.

Lemma string_app_nil_l (a : string) : "" +:+ a = a.
Proof. reflexivity. Qed.

Lemma string_app_assoc (a b c : string) : (a +:+ b) +:+ c = a +:+ (b +:+ c).
Proof.
  induction a as [|x a IH]; [reflexivity|].
  rewrite !string_app_cons, IH. reflexivity.
Qed.

Lemma string_app_nil_r (a : string) : a +:+ "" = a.
Proof.
  induction a as [|x a IH]; [reflexivity|].
  rewrite string_app_cons, IH. reflexivity.
Qed.

Lemma format_line_scan subst line : ∀ mode outline color,
  format_line subst line mode outline color =
  (scan subst line mode outline color).1.2.
Proof.
  induction line as [|c line IH]; intros mode outline color; simpl; [reflexivity|].
  destruct mode; repeat case_match; apply IH.
Qed.

Lemma format_line_app subst pre post : ∀ mode outline color,
  format_line subst (pre +:+ post) mode outline color =
  let '(m, o, col) := scan subst pre mode outline color in
  format_line subst post m o col.
Proof.
  induction pre as [|c pre IH]; intros mode outline color;
    [reflexivity|].
  rewrite string_app_cons. simpl.
  destruct mode;
    [destruct (decide (c = "%"%char))
    |destruct (subst !! c); [|destruct (decide (c = "("%char))]
    |destruct (decide (c = ")"%char))]; apply IH.
Qed.

(** What is already written stays in front of what follows. *)
Lemma format_line_outline subst line : ∀ mode done outline color,
  format_line subst line mode (done +:+ outline) color =
  done +:+ format_line subst line mode outline color.
Proof.
  induction line as [|c line IH]; intros mode done outline color; simpl;
    [reflexivity|].
  destruct mode; repeat case_match; rewrite <- ?IH, ?string_app_assoc; reflexivity.
Qed.

(** Outside a colour specification the colour read so far is not used. *)
Lemma format_line_color subst line : ∀ outline color color',
  format_line subst line MODE_NORMAL outline color =
  format_line subst line MODE_NORMAL outline color'
  ∧ format_line subst line MODE_SUBST outline color =
    format_line subst line MODE_SUBST outline color'.
Proof.
  induction line as [|c line IH]; intros outline color color'; simpl;
    [split; reflexivity|].
  split; repeat case_match; try apply IH; reflexivity.
Qed.

Lemma format_line_plain subst line : ∀ outline color,
  Py.contains "%" line = false →
  format_line subst line MODE_NORMAL outline color = outline +:+ line.
Proof.
  induction line as [|c line IH]; intros outline color H; simpl in *.
  - symmetry. apply string_app_nil_r.
  - apply orb_false_iff in H as [Hc Hl].
    apply bool_decide_eq_false in Hc.
    destruct (decide (c = "%"%char)); [done|].
    rewrite IH by exact Hl. rewrite string_app_assoc. reflexivity.
Qed.

Lemma split_on_contains sep c s :
  Py.contains c s = false →
  Forall (λ piece, Py.contains c piece = false) (Py.split_on sep s).
Proof.
  induction s as [|d s IH]; simpl; intros H.
  - repeat constructor.
  - apply orb_false_iff in H as [Hd Hs]. specialize (IH Hs).
    destruct (decide (d = sep)).
    + constructor; [reflexivity | exact IH].
    + destruct (Py.split_on sep s) as [|piece rest].
      * repeat constructor. simpl. rewrite Hd. reflexivity.
      * inversion IH; subst. constructor; [|assumption].
        simpl. rewrite Hd. assumption.
Qed.

Lemma format_lines_plain subst (lines : list string) :
  Forall (λ line, Py.contains "%" line = false) lines →
  (λ line, format_line subst line MODE_NORMAL "" "") <$> lines = lines.
Proof.
  induction 1 as [|line lines Hline _ IH]; [reflexivity|].
  rewrite fmap_cons, IH. f_equal.
  rewrite format_line_plain by exact Hline. reflexivity.
Qed.

Lemma subst_dict_percent r commit branch id7 id link :
  subst_dict r commit branch id7 id link !! "%"%char = Some "%".
Proof. reflexivity. Qed.

Lemma format_line_escape subst pre post :
  subst !! "%"%char = Some "%" →
  mode_after subst pre = MODE_NORMAL →
  format_line subst (pre +:+ "%%" +:+ post) MODE_NORMAL "" ""
  = format_line subst pre MODE_NORMAL "" "" +:+ "%"
      +:+ format_line subst post MODE_NORMAL "" "".
Proof.
  intros Hpct Hpre. rewrite format_line_app. unfold mode_after in Hpre.
  rewrite (format_line_scan _ pre).
  destruct (scan subst pre MODE_NORMAL "" "") as [[m o] col].
  cbn [fst snd] in *. subst m.
  change ("%%" +:+ post) with (String "%" (String "%" post)).
  cbn [format_line]. destruct (decide ("%"%char = "%"%char)); [|done].
  rewrite Hpct.
  rewrite <- (string_app_nil_r (o +:+ "%")), format_line_outline.
  rewrite string_app_assoc. do 2 f_equal.
  apply format_line_color.
Qed.

Lemma format_line_unknown subst pre x post :
  mode_after subst pre = MODE_NORMAL →
  subst !! x = None → x ≠ "("%char →
  format_line subst (pre +:+ String "%" (String x post)) MODE_NORMAL "" ""
  = format_line subst pre MODE_NORMAL "" ""
      +:+ String x (format_line subst post MODE_NORMAL "" "").
Proof.
  intros Hpre Hx Hparen. rewrite format_line_app. unfold mode_after in Hpre.
  rewrite (format_line_scan _ pre).
  destruct (scan subst pre MODE_NORMAL "" "") as [[m o] col].
  cbn [fst snd] in *. subst m.
  cbn [format_line]. destruct (decide ("%"%char = "%"%char)); [|done].
  rewrite Hx. destruct (decide (x = "("%char)); [done|].
  rewrite <- (string_app_nil_r (o +:+ String x "")), format_line_outline.
  rewrite string_app_assoc. f_equal.
  change (String x ?s) with (String x "" +:+ s). f_equal.
  apply format_line_color.
Qed.

(** * The message formatter *)

(** C8. With long name "Demo", the template "[%n|%b|%a] %m", author "Ada"
    and the two-line message "Fix bug / Details", [format_message] for the
    branch "main" returns the single line "[Demo|main|Ada] Fix bug": only
    the first line of the message stands for [%m]. *)
Theorem format_message_demo w self r commit :
  api_ok w →
  heap w !! self = Some r →
  long_name r = "Demo" →
  commit_message r = "[%n|%b|%a] %m" →
  author_name commit = "Ada" →
  message commit = "Fix bug" +:+ String newline "Details" →
  snd (format_message self commit "main" w) = Ok ["[Demo|main|Ada] Fix bug"].
Proof.
  intros Hw Hr Hn Ht Ha Hm.
  destruct (format_message_snd self commit "main" w r Hw Hr) as [link ->].
  rewrite Ht. unfold subst_dict. rewrite Hn, Ha, Hm.
  vm_compute. reflexivity.
Qed.

Lemma format_message_demo_witness :
  snd (format_message 0 demo_commit "main" (demo_world "[%n|%b|%a] %m"))
  = Ok ["[Demo|main|Ada] Fix bug"].
Proof.
  apply (format_message_demo _ 0%nat (demo_repository "[%n|%b|%a] %m"));
    solve [right; reflexivity | reflexivity].
Defined.

(** C7, the claim as it stands fails inside a colour specification: with the
    template "%(%%)" the two percent signs are the colour code and come out
    as they are, after the colour control character; and with "%(%x" the
    line ends inside the specification and nothing comes out, not even
    the "x". *)
Lemma format_message_percent_in_colour :
  snd (format_message 0 demo_commit "main" (demo_world "%(%%)"))
  = Ok [String "003" "%%"]
  ∧ snd (format_message 0 demo_commit "main" (demo_world "%(%x"))
    = Ok [""].
Proof. split; vm_compute; reflexivity. Qed.

(** * Construction of a repository *)

Lemma check_options long_name (l : list (string * string)) w :
  let body := (λ '(name, _),
    if bool_decide (name ∈ required_values) || bool_decide (name ∈ optional_values)
    then ret tt
    else raise (Exception ("Section " +:+ long_name
                           +:+ " contains unrecognized value: " +:+ name)))
      : string * string → M unit in
  for_each l body w = (w, Ok tt)
  ∨ (∃ name v, (name, v) ∈ l ∧ recognised name = false
       ∧ for_each l body w =
         (w, Raise (Exception ("Section " +:+ long_name
                               +:+ " contains unrecognized value: " +:+ name)))).
Proof.
  cbv zeta. induction l as [|[name v] l IH]; simpl.
  - left. reflexivity.
  - destruct (bool_decide (name ∈ required_values)
              || bool_decide (name ∈ optional_values)) eqn:Hrec.
    + rewrite bind_run. simpl.
      destruct IH as [-> | (bad & v' & Hin & Hbad & ->)].
      * left. reflexivity.
      * right. exists bad, v'. split; [right; exact Hin|].
        split; [exact Hbad | reflexivity].
    + right. exists name, v. split; [left|]. split; [exact Hrec | reflexivity].
Qed.

(** C10. Options with a short name and a url but neither [channel] nor
    [channels] make the constructor raise: no object is made and the
    exception is no complaint about a missing required value; when the API
    version is initialised and every option is a known one, it is the
    [AttributeError] of [None.split()]. *)
Theorem init_without_channels w repo_dir long_name (options : gmap string string) :
  is_Some (options !! "short name") →
  is_Some (options !! "url") →
  options !! "channel" = None →
  options !! "channels" = None →
  ∃ e,
    snd (__init__ repo_dir long_name options w) = Raise e
    ∧ heap (fst (__init__ repo_dir long_name options w)) = heap w
    ∧ (∀ name, e ≠ Exception ("Section " +:+ long_name
                                +:+ " missing required value: " +:+ name))
    ∧ (GIT_API_VERSION w ≠ -1 →
       (∀ name, is_Some (options !! name) → recognised name = true) →
       e = AttributeError "'NoneType' object has no attribute 'split'").
Proof.
  intros Hname Hurl Hch Hchs. unfold __init__.
  rewrite bind_run. cbn [gets fst snd].
  rewrite bind_run.
  destruct (decide (GIT_API_VERSION w = -1)) as [Hapi|Hapi].
  { cbn [raise fst snd]. eexists. repeat split; [| done].
    intros name H. discriminate H. }
  cbn [ret fst snd]. rewrite bind_run.
  assert (Hreq : for_each required_values (λ name,
             if decide (is_Some (options !! name)) then ret tt
             else raise (Exception ("Section " +:+ long_name
                                    +:+ " missing required value: " +:+ name))) w
           = (w, Ok tt)).
  { simpl. unfold bind.
    destruct (decide (is_Some (options !! "short name"))); [|done].
    destruct (decide (is_Some (options !! "url"))); [|done].
    reflexivity. }
  rewrite Hreq. cbn [fst snd]. rewrite bind_run.
  destruct (check_options long_name (map_to_list options) w)
    as [-> | (bad & v & Hin & Hbad & ->)]; cbn [fst snd].
  - unfold options_get. rewrite Hch, Hchs. rewrite bind_run. cbn [pyval_split raise fst snd].
    eexists. repeat split. intros name H. discriminate H.
  - eexists. repeat split.
    + intros name H. injection H as H.
      rewrite !string_app_nil_l in H.
      apply (inj (String.app long_name)) in H. discriminate H.
    + intros _ Hknown. apply elem_of_map_to_list in Hin.
      rewrite Hknown in Hbad by (eexists; exact Hin). discriminate Hbad.
Qed.

Lemma init_without_channels_witness :
  ∃ e,
    snd (__init__ "repos" "Demo" options_without_channels bare_world) = Raise e
    ∧ heap (fst (__init__ "repos" "Demo" options_without_channels bare_world))
      = heap bare_world
    ∧ (∀ name, e ≠ Exception ("Section " +:+ "Demo"
                                +:+ " missing required value: " +:+ name))
    ∧ (GIT_API_VERSION bare_world ≠ -1 →
       (∀ name, is_Some (options_without_channels !! name) →
                recognised name = true) →
       e = AttributeError "'NoneType' object has no attribute 'split'").
Proof.
  apply (init_without_channels bare_world "repos" "Demo" options_without_channels);
    vm_compute; eauto.
Defined.

(** * Resolution of the branch patterns *)

Lemma bind_ok_inv {A B} (m : M A) (k : A → M B) w w' b :
  bind m k w = (w', Ok b) →
  ∃ a w1, m w = (w1, Ok a) ∧ k a w1 = (w', Ok b).
Proof.
  unfold bind. destruct (m w) as [w1 [a|e]]; [eauto | discriminate].
Qed.






(** * Display of a batch of commits *)

(** C6, where the code departs from the claim: with [maxCommitsAtOnce] set
    to 0 and a batch of two commits, the notice announces the latest 0 of 2
    commits and both commits follow, since [commits[-0:]] is the whole
    list; the claim has min(2, 0) = 0 entries. *)
Theorem display_limit_zero :
  displayed 0 [batch_commit "1"; batch_commit "2"] =
  [[("#demo", "Ada pushed 2 commit(s) to main at demo");
    ("#demo", "Showing latest 0 of 2 commits to Demo...");
    ("#demo", "[demo|main|Ada] change 1");
    ("#demo", "[demo|main|Ada] change 2")]].
Proof. vm_compute. reflexivity. Qed.

(** With a limit of 2 the batch of three is cut to the last two. *)
Example display_limit_two :
  displayed 2 [batch_commit "1"; batch_commit "2"; batch_commit "3"] =
  [[("#demo", "Ada pushed 3 commit(s) to main at demo");
    ("#demo", "Showing latest 2 of 3 commits to Demo...");
    ("#demo", "[demo|main|Ada] change 2");
    ("#demo", "[demo|main|Ada] change 3")]].
Proof. vm_compute. reflexivity. Qed.

(** * The fetcher thread *)

(** C2, where the code departs from the claim: started at time 0 with a
    period of 120 seconds, so that half of its own period is 66 seconds,
    [run] calls [fetch] on the repository at time 0, and next once the 66
    seconds are over: the wait comes after the first sweep. *)
Theorem run_fetches_at_start :
  let self := GitFetcher.__init__ [0%nat] 120 in
  GitFetcher.period self / 2 = 66000
  ∧ fetch_calls
      (fst (GitFetcher.run 2 self never (tracked_world scenario_remote [])))
    = [(0, 0%nat); (66080, 0%nat)].
Proof. vm_compute. split; reflexivity. Qed.

Section LockFrames.
Context (R : relation World) `{!PreOrder R, !LockBlind R}.

Lemma stable_acquire self : stable R (acquire self).
Proof. unfold acquire. frame. Qed.

Lemma stable_acquire_nonblocking self : stable R (acquire_nonblocking self).
Proof. unfold acquire_nonblocking. frame. Qed.

Lemma stable_release self : stable R (release self).
Proof. unfold release. frame. Qed.

End LockFrames.

Lemma try_finally_release {A} self (m : M A) w n :
  lock_of w self = Mine n →
  stable (held self) m →
  try_finally m (release self) w
  = (fst (release self (fst (m w))), snd (m w)).
Proof.
  intros Hn Hm. unfold try_finally.
  pose proof (Hm w n Hn) as Hn'.
  destruct (m w) as [w2 r]. simpl in *.
  pose proof (release_held self w2 n Hn') as Hr.
  destruct (release self w2) as [w3 [[]|e]]; simpl in *; [reflexivity|discriminate].
Qed.

Lemma record_error_run self e w :
  snd (record_error self e w) = Ok tt
  ∧ heap (fst (record_error self e w))
    = alter (with_errors (λ l, l ++ [e])) self (heap w).
Proof.
  unfold record_error. split.
  - rewrite synchronized_snd by (apply stable_update_self; apply _). reflexivity.
  - rewrite synchronized_fst by (apply stable_update_self; apply _).
    rewrite (stable_release (keeps heap)). reflexivity.
Qed.

Lemma acquire_nonblocking_run self w :
  (lock_of w self = Theirs ∧ acquire_nonblocking self w = (w, Ok false))
  ∨ (lock_of w self ≠ Theirs
     ∧ snd (acquire_nonblocking self w) = Ok true
     ∧ ∃ n, lock_of (fst (acquire_nonblocking self w)) self = Mine n).
Proof.
  unfold acquire_nonblocking, bind, gets, modify. simpl.
  destruct (lock_of w self) as [|n|] eqn:Hl; simpl.
  - right. split; [done|]. split; [reflexivity|].
    exists O. unfold lock_of. simpl. rewrite lookup_insert_eq. reflexivity.
  - right. split; [done|]. split; [reflexivity|].
    exists (S n). unfold lock_of. simpl. rewrite lookup_insert_eq. reflexivity.
  - left. split; reflexivity.
Qed.

Lemma fetch_repository_run repository w :
  snd (GitFetcher.fetch_repository repository w) = Ok tt
  ∧ (lock_of w repository ≠ Theirs →
     heap (fst (GitFetcher.fetch_repository repository w))
     = match snd (fetch repository (entering repository w)) with
       | Raise e => alter (with_errors (λ l, l ++ [e])) repository (heap w)
       | Ok _ => heap w
       end).
Proof.
  unfold GitFetcher.fetch_repository. rewrite bind_run.
  destruct (acquire_nonblocking_run repository w)
    as [[Hl Hrun] | (Hl & Hgot & n & Hn)].
  { rewrite Hrun. cbn [fst snd]. split; [reflexivity | done]. }
  rewrite Hgot.
  assert (Hheap1 : heap (fst (acquire_nonblocking repository w)) = heap w)
    by apply (stable_acquire_nonblocking (keeps heap)).
  assert (Hclock1 : clock (fst (acquire_nonblocking repository w)) = clock w)
    by apply (stable_acquire_nonblocking (keeps clock)).
  unfold entering.
  set (w1 := fst (acquire_nonblocking repository w)) in *. clearbody w1.
  rewrite (try_finally_release repository _ w1 n Hn); cycle 1.
  { frame; first [apply stable_fetch; apply _
                 | apply stable_record_error; apply _]. }
  cbn [fst snd].
  unfold try_except. rewrite bind_run. cbn [gets fst snd].
  rewrite bind_run. cbn [modify fst snd]. rewrite Hclock1.
  set (w2 := with_fetch_calls _ w1).
  assert (Hheap2 : heap w2 = heap w) by exact Hheap1.
  pose proof (stable_fetch (keeps heap) repository w2) as Hheap3.
  unfold keeps in Hheap3.
  destruct (fetch repository w2) as [w3 [[]|e]]; cbn [fst snd] in *.
  - split; [reflexivity|]. intros _.
    rewrite (stable_release (keeps heap)). cbn. congruence.
  - destruct (record_error_run repository e w3) as [Hok Hheap4].
    destruct (record_error repository e w3) as [w4 r4]. cbn [fst snd] in *.
    split; [exact Hok|]. intros _.
    rewrite (stable_release (keeps heap)). cbn. congruence.
Qed.

Lemma shutdown_run stop w :
  GitFetcher.shutdown stop w = (w, Ok (stop (clock w))).
Proof. reflexivity. Qed.

Lemma sweep_total stop todo : ∀ w, snd (GitFetcher.sweep stop todo w) = Ok tt.
Proof.
  induction todo as [|repository rest IH]; intros w; [reflexivity|].
  cbn [GitFetcher.sweep]. rewrite bind_run, shutdown_run. cbn [fst snd].
  destruct (stop (clock w)); [reflexivity|].
  rewrite bind_run. unfold try_except. rewrite bind_run.
  destruct (fetch_repository_run repository w) as [-> _].
  cbn [ret fst snd]. apply IH.
Qed.

Lemma wait_loop_total fuel stop end_time : ∀ w,
  snd (GitFetcher.wait_loop fuel stop end_time w) = Ok tt.
Proof.
  induction fuel as [|fuel IH]; intros w; [reflexivity|].
  cbn [GitFetcher.wait_loop]. rewrite bind_run, shutdown_run. cbn [fst snd].
  rewrite bind_run. cbn [gets fst snd].
  destruct (negb (stop (clock w)) && bool_decide (clock w < end_time));
    [|reflexivity].
  rewrite bind_run. cbn [GitFetcher.sleep modify fst snd]. apply IH.
Qed.

Lemma run_loop_total fuel self stop : ∀ end_time w,
  ∃ b, snd (GitFetcher.run_loop fuel self stop end_time w) = Ok b.
Proof.
  induction fuel as [|fuel IH]; intros end_time w.
  - cbn [GitFetcher.run_loop]. rewrite bind_run, shutdown_run.
    cbn [ret fst snd]. eauto.
  - cbn [GitFetcher.run_loop]. rewrite bind_run, shutdown_run. cbn [fst snd].
    destruct (stop (clock w)); [cbn; eauto|].
    rewrite bind_run, sweep_total. rewrite bind_run.
    unfold GitFetcher.wait at 1. rewrite bind_run. cbn [gets fst snd].
    rewrite wait_loop_total. rewrite bind_run. cbn [gets fst snd]. apply IH.
Qed.

(** C3, the claim as it stands fails: with the remote out of reach
    [Repository.fetch] raises the error of GitPython to its caller and
    leaves the error queue as it was. *)
Lemma fetch_raises_to_caller :
  let out := fetch 0 (tracked_world unreachable_remote []) in
  snd out = Raise (GitCommandError "unable to access git://demo")
  ∧ errors <$> heap (fst out) !! 0%nat = Some [].
Proof. vm_compute. split; reflexivity. Qed.

(** C3, amended.  [Repository.fetch] raises its errors; it is the loop of
    [GitFetcher.run], its only caller, that catches them: the turn of the
    loop for a repository always ends normally, an error raised by [fetch]
    is appended to the error queue of that repository with [record_error],
    a successful [fetch] leaves the queue as it was, and [run] itself never
    raises. *)
Theorem fetch_errors_recorded_by_run w repository rep :
  heap w !! repository = Some rep →
  lock_of w repository ≠ Theirs →
  snd (GitFetcher.fetch_repository repository w) = Ok tt
  ∧ errors <$> heap (fst (GitFetcher.fetch_repository repository w)) !! repository
    = Some match snd (fetch repository (entering repository w)) with
           | Raise e => errors rep ++ [e]
           | Ok _ => errors rep
           end
  ∧ ∀ fuel self stop, ∃ b, snd (GitFetcher.run fuel self stop w) = Ok b.
Proof.
  intros Hrep Hlock.
  destruct (fetch_repository_run repository w) as [Hok Hheap].
  split; [exact Hok|]. split.
  - rewrite (Hheap Hlock).
    destruct (snd (fetch repository (entering repository w))) as [[]|e].
    + rewrite Hrep. reflexivity.
    + rewrite list_lookup_alter_eq, Hrep. reflexivity.
  - intros fuel self stop. unfold GitFetcher.run. rewrite bind_run.
    cbn [gets fst snd]. apply run_loop_total.
Qed.

Lemma fetch_errors_recorded_by_run_witness :
  let w := tracked_world unreachable_remote [] in
  snd (GitFetcher.fetch_repository 0 w) = Ok tt
  ∧ errors <$> heap (fst (GitFetcher.fetch_repository 0 w)) !! 0%nat
    = Some match snd (fetch 0 (entering 0 w)) with
           | Raise e => errors tracked_repository ++ [e]
           | Ok _ => errors tracked_repository
           end
  ∧ ∀ fuel self stop, ∃ b, snd (GitFetcher.run fuel self stop w) = Ok b.
Proof.
  apply (fetch_errors_recorded_by_run (tracked_world unreachable_remote [])
           0%nat tracked_repository); [reflexivity | vm_compute; discriminate].
Defined.

(** * The tracker: new commits and cursors *)

Lemma filter_out_self (l l' : list string) :
  l' ⊆ l → List.filter (λ s, bool_decide (s ∉ l)) l' = [].
Proof.
  induction l' as [|x l' IH]; intros Hsub; [reflexivity|]. simpl.
  rewrite bool_decide_eq_false_2.
  - apply IH. intros y Hy. apply Hsub. right. exact Hy.
  - intros Hx. apply Hx, Hsub. left.
Qed.

Lemma lookup_commit_inv g rev c :
  GitModel.lookup_commit g rev = Some c →
  GitModel.rev_parse g rev = Some (hexsha c)
  ∧ is_Some (objects g !! hexsha c).
Proof.
  unfold GitModel.lookup_commit. intros H.
  destruct (GitModel.rev_parse g rev) as [sha|] eqn:Hp; [|discriminate].
  simpl in H. destruct (objects g !! sha) as [d|] eqn:Hd; [|discriminate].
  injection H as <-. simpl. split; [reflexivity | exists d; exact Hd].
Qed.

(** Between a branch and its own head there is no commit. *)
Lemma rev_list_at_head g branch c :
  GitModel.lookup_commit g branch = Some c →
  GitModel.rev_list g (Some c) branch = Some [].
Proof.
  intros H. apply lookup_commit_inv in H as [Hp [d Hd]].
  unfold GitModel.rev_list. simpl. rewrite Hd. simpl. rewrite Hp. simpl.
  rewrite filter_out_self by done. reflexivity.
Qed.

Lemma rev_list_resolves g first branch cs :
  GitModel.rev_list g first branch = Some cs →
  is_Some (GitModel.lookup_commit g branch).
Proof.
  unfold GitModel.rev_list, GitModel.lookup_commit. intros H.
  destruct first as [a|]; [|discriminate]. simpl in H.
  destruct (objects g !! hexsha a); [|discriminate]. simpl in H.
  destruct (GitModel.rev_parse g branch) as [sha|] eqn:Hp; [|discriminate].
  simpl. unfold GitModel.rev_parse in Hp.
  destruct (decide (is_Some (objects g !! default branch (heads g !! branch))))
    as [[d Hd]|]; [|discriminate].
  injection Hp as <-. rewrite Hd. eexists. reflexivity.
Qed.

Lemma _get_commits_run h first last w :
  _get_commits h first last w
  = (w, commits_between (GIT_API_VERSION w) (disk w) h first last).
Proof.
  unfold _get_commits, commits_between, repo_rev_list, the_repo, mirror,
    bind, gets, ret, raise.
  destruct (decide (GIT_API_VERSION w = 1)) as [H1|H1];
    [|destruct (decide (GIT_API_VERSION w = 3)) as [H3|H3]].
  - rewrite decide_True by (left; exact H1).
    destruct h as [p|]; [|reflexivity].
    destruct (disk w !! p) as [g|]; [|reflexivity].
    destruct (GitModel.rev_list g first last); reflexivity.
  - rewrite decide_True by (right; exact H3).
    destruct h as [p|]; [|reflexivity].
    destruct (disk w !! p) as [g|]; [|reflexivity].
    destruct (GitModel.rev_list g first last); reflexivity.
  - rewrite decide_False by (intros [?|?]; done). reflexivity.
Qed.

Lemma commits_between_at_head api dsk p g branch c cs :
  dsk !! p = Some g →
  GitModel.lookup_commit g branch = Some c →
  commits_between api dsk (Some p) (Some c) branch = Ok cs → cs = [].
Proof.
  intros Hg Hc. unfold commits_between.
  destruct (decide (api = 1 ∨ api = 3)); [|discriminate].
  rewrite Hg, (rev_list_at_head g branch c Hc). congruence.
Qed.

Lemma commits_between_ok_inv api dsk h first branch cs :
  commits_between api dsk h first branch = Ok cs →
  (api = 1 ∨ api = 3)
  ∧ ∃ p g, h = Some p ∧ dsk !! p = Some g
           ∧ is_Some (GitModel.lookup_commit g branch).
Proof.
  unfold commits_between. intros H.
  destruct (decide (api = 1 ∨ api = 3)) as [Hapi|]; [|discriminate].
  split; [exact Hapi|].
  destruct h as [p|]; [|discriminate].
  destruct (dsk !! p) as [g|] eqn:Hd; [|discriminate].
  destruct (GitModel.rev_list g first branch) as [cs'|] eqn:Hl; [|discriminate].
  exists p, g. split; [reflexivity|]. split; [exact Hd|].
  eapply rev_list_resolves, Hl.
Qed.

(** The loop changes the log only; its outcome is that of the ranges. *)
Lemma new_commits_loop_frame h todo : ∀ acc w,
  let w' := fst (new_commits_loop h todo acc w) in
  GIT_API_VERSION w' = GIT_API_VERSION w ∧ disk w' = disk w
  ∧ heap w' = heap w.
Proof.
  intros acc w. cbv zeta. repeat split.
  - apply (stable_new_commits_loop (keeps GIT_API_VERSION)).
  - apply (stable_new_commits_loop (keeps disk)).
  - apply (stable_new_commits_loop (keeps heap)).
Qed.

Lemma log_debug_frame msg w :
  snd (log_debug msg w) = Ok tt
  ∧ GIT_API_VERSION (fst (log_debug msg w)) = GIT_API_VERSION w
  ∧ disk (fst (log_debug msg w)) = disk w.
Proof.
  unfold log_debug, bind, gets, when, log_, modify, ret.
  destruct (_DEBUG w); repeat split.
Qed.

Lemma new_commits_loop_step h branch cursor rest acc w :
  new_commits_loop h ((branch, cursor) :: rest) acc w
  = match commits_between (GIT_API_VERSION w) (disk w) h cursor branch with
    | Ok results =>
        new_commits_loop h rest (<[ branch := results ]> acc)
          (fst (log_debug ("Poll: branch: " +:+ branch +:+ " last commit: "
                           +:+ Py.take 7 (str_commit cursor) +:+ ", "
                           +:+ pretty (length results) +:+ " commits") w))
    | Raise e => (w, Raise e)
    end.
Proof.
  cbn [new_commits_loop]. rewrite bind_run, _get_commits_run. cbn [fst snd].
  destruct (commits_between _ _ _ _ _) as [results|e]; [|reflexivity].
  rewrite bind_run.
  destruct (log_debug_frame
              ("Poll: branch: " +:+ branch +:+ " last commit: "
               +:+ Py.take 7 (str_commit cursor) +:+ ", "
               +:+ pretty (length results) +:+ " commits") w) as [-> _].
  reflexivity.
Qed.

(** With every cursor at the head of its branch, the loop finds nothing. *)
Lemma new_commits_loop_at_head p g todo : ∀ acc w,
  disk w !! p = Some g →
  Forall (λ bc, is_Some bc.2 ∧ bc.2 = GitModel.lookup_commit g bc.1) todo →
  all_empty acc →
  match snd (new_commits_loop (Some p) todo acc w) with
  | Ok r =>
      all_empty r
      ∧ (∀ b, b ∈ todo.*1 ∨ is_Some (acc !! b) → is_Some (r !! b))
  | Raise _ => ¬ api_ok w
  end.
Proof.
  induction todo as [|[b c] todo IH]; intros acc w Hg Hall Hacc.
  - simpl. split; [exact Hacc|]. intros b [Hb|Hb]; [inversion Hb | exact Hb].
  - rewrite new_commits_loop_step.
    apply Forall_cons in Hall as [Hhead Hall]. cbn [fst snd] in Hhead.
    destruct Hhead as [[c' ->] Hc].
    destruct (commits_between _ _ _ _ _) as [results|e] eqn:Hr.
    + assert (results = []) as ->
        by (eapply commits_between_at_head; [exact Hg | symmetry; exact Hc | exact Hr]).
      set (w1 := fst (log_debug _ w)).
      assert (Hg1 : disk w1 !! p = Some g).
      { unfold w1. destruct (log_debug_frame
          ("Poll: branch: " +:+ b +:+ " last commit: "
           +:+ Py.take 7 (str_commit (Some c')) +:+ ", "
           +:+ pretty (length (@nil Commit)) +:+ " commits") w) as (_ & _ & ->).
        exact Hg. }
      specialize (IH (<[ b := [] ]> acc) w1 Hg1 Hall).
      destruct (snd (new_commits_loop (Some p) todo (<[ b := [] ]> acc) w1))
        as [r|e].
      * destruct IH as [He Hd].
        { intros b' cs. rewrite lookup_insert. case_decide; [|apply Hacc].
          congruence. }
        split; [exact He|]. intros b' Hb'. apply Hd.
        destruct (decide (b = b')) as [->|Hne].
        { right. rewrite lookup_insert_eq. eauto. }
        destruct Hb' as [Hb'|Hb'].
        -- left. simpl in Hb'. apply elem_of_cons in Hb' as [?|?]; [congruence|done].
        -- right. rewrite lookup_insert_ne by done. exact Hb'.
      * intros Hapi. apply IH; [|].
        { intros b' cs. rewrite lookup_insert. case_decide; [|apply Hacc].
          congruence. }
        unfold w1, api_ok. destruct (log_debug_frame
          ("Poll: branch: " +:+ b +:+ " last commit: "
           +:+ Py.take 7 (str_commit (Some c')) +:+ ", "
           +:+ pretty (length (@nil Commit)) +:+ " commits") w) as (_ & -> & _).
        exact Hapi.
    + cbn [snd]. intros Hapi. unfold commits_between in Hr.
      rewrite decide_True in Hr by exact Hapi. rewrite Hg in Hr.
      rewrite (rev_list_at_head g b c') in Hr by (symmetry; exact Hc).
      discriminate Hr.
Qed.

(** A loop that ends normally has resolved every branch it went over. *)
Lemma new_commits_loop_ok_inv h todo : ∀ acc w w' r,
  new_commits_loop h todo acc w = (w', Ok r) →
  dom r = dom acc ∪ list_to_set todo.*1
  ∧ (todo ≠ [] →
     api_ok w
     ∧ ∃ p g, h = Some p ∧ disk w !! p = Some g
              ∧ Forall (λ bc, is_Some (GitModel.lookup_commit g bc.1)) todo).
Proof.
  induction todo as [|[b c] todo IH]; intros acc w w' r H.
  - simpl in H. injection H as <- <-. split; [set_solver | done].
  - rewrite new_commits_loop_step in H.
    destruct (commits_between _ _ _ _ _) as [results|e] eqn:Hr; [|discriminate].
    apply commits_between_ok_inv in Hr as (Hapi & p & g & -> & Hg & Hb).
    set (msg := "Poll: branch: " +:+ _) in H.
    destruct (log_debug_frame msg w) as (_ & Hapi1 & Hdisk1).
    apply IH in H as [Hdom Hrest]. split.
    + rewrite Hdom, dom_insert_L. simpl. set_solver.
    + intros _. split; [exact Hapi|]. exists p, g.
      split; [reflexivity|]. split; [exact Hg|].
      constructor; [exact Hb|].
      destruct todo as [|bc todo']; [constructor|].
      destruct Hrest as (_ & p' & g' & Hp' & Hg' & Hall); [done|].
      injection Hp' as <-. rewrite Hdisk1, Hg in Hg'. injection Hg' as <-.
      exact Hall.
Qed.

Lemma get_new_commits_snd self w rep :
  heap w !! self = Some rep →
  snd (get_new_commits self w)
  = snd (new_commits_loop (repo rep) (map_to_list (commit_by_branch rep)) ∅
           (fst (acquire self w))).
Proof.
  intros Hrep. unfold get_new_commits.
  rewrite synchronized_snd
    by (frame; apply stable_new_commits_loop; apply _).
  rewrite bind_run, (self_run self _ rep) by exact Hrep. reflexivity.
Qed.

Lemma get_new_commits_ok_inv self w w1 r :
  get_new_commits self w = (w1, Ok r) → is_Some (heap w !! self).
Proof.
  intros H. destruct (heap w !! self) as [rep|] eqn:Hrep; [eauto|].
  exfalso. assert (Hs : snd (get_new_commits self w) = Ok r) by (rewrite H; done).
  unfold get_new_commits in Hs.
  rewrite synchronized_snd in Hs
    by (frame; apply stable_new_commits_loop; apply _).
  rewrite bind_run in Hs. unfold self_ in Hs.
  change (heap (fst (acquire self w))) with (heap w) in Hs.
  rewrite Hrep in Hs. discriminate Hs.
Qed.

(** [get_commit] gives what the name resolves to, [None] when it does not. *)
Lemma get_commit_snd self rev w rep p g :
  heap w !! self = Some rep → repo rep = Some p → disk w !! p = Some g →
  snd (get_commit self rev w) = Ok (GitModel.lookup_commit g rev).
Proof.
  intros Hrep Hp Hg. unfold get_commit.
  rewrite synchronized_snd by (frame; apply stable_repo_commit; apply _).
  unfold try_except. rewrite bind_run, (self_run self _ rep) by exact Hrep.
  cbn [fst snd]. rewrite Hp. cbn [the_repo]. rewrite bind_run. cbn [ret fst snd].
  rewrite bind_run. unfold repo_commit at 1 2 3. rewrite bind_run.
  unfold mirror at 1 2 3 4.
  change (disk (fst (acquire self w))) with (disk w). rewrite Hg. cbn [fst snd].
  rewrite bind_run. cbn [gets fst snd].
  destruct (GitModel.lookup_commit g rev) as [c|]; [reflexivity|].
  destruct (decide (GIT_API_VERSION (fst (acquire self w)) = 1)); reflexivity.
Qed.

(** The loop that moves the cursors: every branch it goes over gets what
    its name resolves to, the other cursors stay. *)
Lemma advance_loop self p g (branches : list string) : ∀ w rep,
  heap w !! self = Some rep → repo rep = Some p → disk w !! p = Some g →
  ∃ w' rep',
    for_each branches (λ branch,
      do c ← get_commit self branch;
      update_self self (with_commit_by_branch <[ branch := c ]>)) w
    = (w', Ok tt)
    ∧ GIT_API_VERSION w' = GIT_API_VERSION w ∧ disk w' = disk w
    ∧ heap w' !! self = Some rep' ∧ repo rep' = Some p
    ∧ ∀ b, commit_by_branch rep' !! b
           = if decide (b ∈ branches) then Some (GitModel.lookup_commit g b)
             else commit_by_branch rep !! b.
Proof.
  induction branches as [|branch rest IH]; intros w rep Hrep Hp Hg.
  - exists w, rep. split; [reflexivity|]. repeat (split; [done|]).
    intros b. rewrite decide_False by (apply not_elem_of_nil). reflexivity.
  - cbn [for_each]. rewrite bind_run. rewrite bind_run.
    rewrite (get_commit_snd self branch w rep p g Hrep Hp Hg).
    set (w1 := fst (get_commit self branch w)).
    assert (Hheap1 : heap w1 = heap w)
      by apply (stable_get_commit (keeps heap)).
    assert (Hdisk1 : disk w1 = disk w)
      by apply (stable_get_commit (keeps disk)).
    assert (Hapi1 : GIT_API_VERSION w1 = GIT_API_VERSION w)
      by apply (stable_get_commit (keeps GIT_API_VERSION)).
    clearbody w1. cbn [update_self modify fst snd].
    set (rep1 := with_commit_by_branch
                   <[ branch := GitModel.lookup_commit g branch ]> rep).
    set (w2 := with_heap _ w1).
    destruct (IH w2 rep1) as (w' & rep' & Hrun & Hapi & Hdisk & Hrep' & Hp' & Hcur).
    + unfold w2. cbn. rewrite Hheap1, list_lookup_alter_eq, Hrep. reflexivity.
    + exact Hp.
    + unfold w2. cbn. rewrite Hdisk1. exact Hg.
    + exists w', rep'. rewrite Hrun. repeat split; try done.
      * rewrite Hapi. exact Hapi1.
      * rewrite Hdisk. exact Hdisk1.
      * intros b. rewrite Hcur. unfold rep1. cbn.
        destruct (decide (b ∈ rest)) as [Hin|Hin].
        -- rewrite (decide_True (P := b ∈ branch :: rest))
             by (right; exact Hin).
           reflexivity.
        -- destruct (decide (b = branch)) as [->|Hne].
           ++ rewrite (decide_True (P := branch ∈ branch :: rest)) by left.
              rewrite lookup_insert_eq. reflexivity.
           ++ rewrite decide_False by (intros [?|?]%elem_of_cons; done).
              rewrite lookup_insert_ne by done. reflexivity.
Qed.

Lemma keys_dom {A} (m : gmap string A) b :
  b ∈ (map_to_list m).*1 ↔ b ∈ dom m.
Proof.
  rewrite elem_of_dom, list_elem_of_fmap. split.
  - intros [[b' x] [-> Hin]]. apply elem_of_map_to_list in Hin. eauto.
  - intros [x Hx]. exists (b, x). split; [reflexivity|].
    apply elem_of_map_to_list. exact Hx.
Qed.

Lemma keys_dom_set {A} (m : gmap string A) :
  list_to_set (map_to_list m).*1 = dom m.
Proof. apply set_eq. intros b. rewrite elem_of_list_to_set. apply keys_dom. Qed.

(** C4. When [get_new_commits] has returned its dict and the cursors of its
    branches have been moved to the heads as [_poll] does, the next call of
    [get_new_commits], with the mirror as it was, returns the empty list
    for every tracked branch. *)
Theorem second_get_new_commits_empty w self r w1 :
  get_new_commits self w = (w1, Ok r) →
  ∃ rep w2 w3 r',
    heap w !! self = Some rep
    ∧ dom r = dom (commit_by_branch rep)
    ∧ advance_cursors self r w1 = (w2, Ok tt)
    ∧ disk w2 = disk w
    ∧ get_new_commits self w2 = (w3, Ok r')
    ∧ ∀ b, b ∈ dom (commit_by_branch rep) → r' !! b = Some [].
Proof.
  intros H.
  destruct (get_new_commits_ok_inv self w w1 r H) as [rep Hrep].
  assert (Hsnd : snd (get_new_commits self w) = Ok r) by (rewrite H; done).
  assert (Hw1 : w1 = fst (get_new_commits self w)) by (rewrite H; done).
  assert (Hheap1 : heap w1 = heap w)
    by (rewrite Hw1; apply (stable_get_new_commits (keeps heap))).
  assert (Hdisk1 : disk w1 = disk w)
    by (rewrite Hw1; apply (stable_get_new_commits (keeps disk))).
  assert (Hapi1 : GIT_API_VERSION w1 = GIT_API_VERSION w)
    by (rewrite Hw1; apply (stable_get_new_commits (keeps GIT_API_VERSION))).
  rewrite (get_new_commits_snd self w rep Hrep) in Hsnd.
  set (wa := fst (acquire self w)) in Hsnd.
  destruct (new_commits_loop (repo rep) (map_to_list (commit_by_branch rep)) ∅ wa)
    as [wx rx] eqn:Hloop.
  cbn [snd] in Hsnd. subst rx.
  apply new_commits_loop_ok_inv in Hloop as [Hdom Hres].
  rewrite dom_empty_L, (left_id_L ∅ (∪)), keys_dom_set in Hdom.
  exists rep.
  destruct (map_to_list (commit_by_branch rep)) as [|bc todo] eqn:Htodo.
  - (* nothing is tracked *)
    apply map_to_list_empty_iff in Htodo.
    assert (r = ∅) as -> by (apply dom_empty_inv_L; rewrite Hdom, Htodo; apply dom_empty_L).
    exists w1, (fst (get_new_commits self w1)), ∅.
    split; [exact Hrep|]. split; [exact Hdom|].
    split; [unfold advance_cursors; rewrite map_to_list_empty; reflexivity|].
    split; [exact Hdisk1|]. split.
    + apply injective_projections; [reflexivity|]. cbn [snd].
      rewrite (get_new_commits_snd self w1 rep) by (rewrite Hheap1; exact Hrep).
      rewrite Htodo, map_to_list_empty. reflexivity.
    + intros b Hb. rewrite Htodo, dom_empty_L in Hb. set_solver.
  - (* some branch is tracked: the first call has resolved them all *)
    rewrite <- Htodo in Hres.
    destruct Hres as (Hapi & p & g & Hp & Hg & Hall); [rewrite Htodo; done|].
    clear bc todo Htodo.
    change (disk wa) with (disk w) in Hg.
    change (api_ok wa) with (api_ok w) in Hapi.
    destruct (advance_loop self p g (map_to_list r).*1 w1 rep)
      as (w2 & rep2 & Hadv & Hapi2 & Hdisk2 & Hrep2 & Hp2 & Hcur);
      [rewrite Hheap1; exact Hrep | exact Hp | rewrite Hdisk1; exact Hg |].
    exists w2, (fst (get_new_commits self w2)).
    pose proof (new_commits_loop_at_head p g
                  (map_to_list (commit_by_branch rep2)) ∅
                  (fst (acquire self w2))) as Hhead.
    rewrite <- Hp2, <- (get_new_commits_snd self w2 rep2 Hrep2) in Hhead.
    destruct (snd (get_new_commits self w2)) as [r'|e] eqn:Hsnd2.
    + exists r'. split; [exact Hrep|]. split; [exact Hdom|].
      split; [exact Hadv|]. split; [congruence|]. split.
      * apply injective_projections; [reflexivity | exact Hsnd2].
      * intros b Hb. destruct Hhead as [Hempty Hsome].
        -- change (disk (fst (acquire self w2))) with (disk w2). congruence.
        -- apply Forall_forall. intros [b' c] Hin. cbn [fst snd].
           apply elem_of_map_to_list in Hin. rewrite Hcur in Hin.
           destruct (decide (b' ∈ (map_to_list r).*1)) as [Hk|Hk].
           ++ injection Hin as <-. split; [|reflexivity].
              apply keys_dom in Hk. rewrite Hdom in Hk.
              apply elem_of_dom in Hk as [c0 Hc0].
              apply elem_of_map_to_list in Hc0.
              rewrite Forall_forall in Hall. apply (Hall _ Hc0).
           ++ exfalso. apply Hk, keys_dom. rewrite Hdom.
              eapply elem_of_dom_2, Hin.
        -- intros ? ?. rewrite lookup_empty. discriminate.
        -- destruct (Hsome b) as [cs Hcs].
           { left. apply keys_dom, elem_of_dom. rewrite Hcur.
             rewrite decide_True by (apply keys_dom; rewrite Hdom; exact Hb).
             eauto. }
           rewrite Hcs. f_equal. eapply Hempty, Hcs.
    + exfalso. apply Hhead.
      * change (disk (fst (acquire self w2))) with (disk w2). congruence.
      * apply Forall_forall. intros [b' c] Hin. cbn [fst snd].
        apply elem_of_map_to_list in Hin. rewrite Hcur in Hin.
        destruct (decide (b' ∈ (map_to_list r).*1)) as [Hk|Hk].
        -- injection Hin as <-. split; [|reflexivity].
           apply keys_dom in Hk. rewrite Hdom in Hk.
           apply elem_of_dom in Hk as [c0 Hc0].
           apply elem_of_map_to_list in Hc0.
           rewrite Forall_forall in Hall. apply (Hall _ Hc0).
        -- exfalso. apply Hk, keys_dom. rewrite Hdom.
           eapply elem_of_dom_2, Hin.
      * intros ? ?. rewrite lookup_empty. discriminate.
      * change (api_ok (fst (acquire self w2))) with (api_ok w2).
        unfold api_ok in *. congruence.
Qed.

Lemma second_get_new_commits_empty_witness :
  ∃ rep w2 w3 r',
    heap (behind_world []) !! 0%nat = Some rep
    ∧ dom ({[ "main" := [commit_c3] ]} : gmap string (list Commit))
      = dom (commit_by_branch rep)
    ∧ advance_cursors 0 {[ "main" := [commit_c3] ]}
        (fst (get_new_commits 0 (behind_world []))) = (w2, Ok tt)
    ∧ disk w2 = disk (behind_world [])
    ∧ get_new_commits 0 w2 = (w3, Ok r')
    ∧ ∀ b, b ∈ dom (commit_by_branch rep) → r' !! b = Some [].
Proof.
  apply (second_get_new_commits_empty (behind_world []) 0%nat
           {[ "main" := [commit_c3] ]}
           (fst (get_new_commits 0 (behind_world [])))).
  vm_compute. reflexivity.
Defined.

(** * The tracker: what [fetch] and [get_new_commits] leave alone *)





Lemma mirror_run p w g : disk w !! p = Some g → mirror p w = (w, Ok g).
Proof. intros H. unfold mirror. rewrite H. reflexivity. Qed.




Lemma for_each_maintains {A} (I : World → Prop) (l : list A) body :
  (∀ x w, x ∈ l → I w → I (fst (body x w))) →
  ∀ w, I w → I (fst (for_each l body w)).
Proof.
  induction l as [|x l IH]; intros Hbody w Hw; [exact Hw|].
  cbn [for_each]. rewrite bind_run.
  pose proof (Hbody x w ltac:(left) Hw) as H1.
  destruct (snd (body x w)); [|exact H1].
  apply IH; [|exact H1]. intros y w' Hy. apply Hbody. right. exact Hy.
Qed.






(** In the world of the scenario the calls return, and the dicts have the
    empty list for main. *)
Example calls_with_nothing_new :
  snd (mapM (call 0)
         [CallFetch; CallGetNewCommits; CallFetch; CallGetNewCommits]
         (tracked_world scenario_remote []))
  = Ok [None; Some {[ "main" := [] ]}; None; Some {[ "main" := [] ]}].
Proof. vm_compute. reflexivity. Qed.

(** With a commit on the remote that is newer than the cursor, every call
    of [get_new_commits] returns it, as no call moves the cursor. *)
Example calls_with_a_pending_commit :
  snd (mapM (call 0) [CallGetNewCommits; CallFetch; CallGetNewCommits]
         (behind_world []))
  = Ok [Some {[ "main" := [commit_c3] ]}; None;
        Some {[ "main" := [commit_c3] ]}].
Proof. vm_compute. reflexivity. Qed.


(** * The poll cycle *)

(** C1, the claim as it stands fails: the commit c3 is new on main, the
    first target raises, and after [_poll] the cursor of main is still b2,
    not the head c3, and the second target has received nothing; the
    exception is logged for the repository. *)
Lemma poll_stops_at_failing_target :
  let w := behind_world two_targets in
  let w' := fst (_poll w) in
  poll_targets (ircs w) (tracked_at commit_b2) = [(0%nat, "#demo"); (1%nat, "#demo")]
  ∧ snd (get_new_commits 0 w) = Ok {[ "main" := [commit_c3] ]}
  ∧ (g ← disk w' !! "repos/demo"; GitModel.lookup_commit g "main") = Some commit_c3
  ∧ commit_by_branch <$> heap w' !! 0%nat = Some {[ "main" := Some commit_b2 ]}
  ∧ outbox <$> ircs w' = [[]; []]
  ∧ logged w' = [(ERROR, "Git: Exception in _poll repository demo: not connected")]
  ∧ lock_of w' 0 = Free.
Proof. vm_compute. repeat split. Qed.

(** With both targets taking messages the same cycle delivers to both and
    moves the cursor. *)
Example poll_delivers_and_advances :
  let w := behind_world [mkIrc ["#demo"] [] None; mkIrc ["#demo"] [] None] in
  let w' := fst (_poll w) in
  commit_by_branch <$> heap w' !! 0%nat = Some {[ "main" := Some commit_c3 ]}
  ∧ outbox <$> ircs w'
    = [[("#demo", "Bob pushed 1 commit(s) to main at demo");
        ("#demo", "[demo|main|Bob] third")];
       [("#demo", "Bob pushed 1 commit(s) to main at demo");
        ("#demo", "[demo|main|Bob] third")]].
Proof. vm_compute. repeat split. Qed.

Section PollFrames.
Context (R : relation World) `{!PreOrder R, !Synchronizable R}.
Context `{!LogBlind R, !HeapBlind R, !IrcBlind R}.

Lemma stable_report_errors repository r : stable R (report_errors repository r).
Proof.
  unfold report_errors. frame; [apply stable_get_errors; apply _|].
  unfold log_error. apply stable_log_; apply _.
Qed.

Lemma stable_deliver targets repository new :
  stable R (deliver targets repository new).
Proof. unfold deliver. frame. apply stable__display_commits; apply _. Qed.

End PollFrames.

Lemma lock_after_acquire_nonblocking self w :
  lock_of w self ≠ Theirs →
  lock_of (fst (acquire_nonblocking self w)) self = after_acquire (lock_of w self).
Proof.
  intros Hl. unfold acquire_nonblocking, bind, gets, modify. simpl.
  destruct (lock_of w self) as [|n|] eqn:Hw; [| |done]; simpl;
    unfold lock_of; simpl; rewrite lookup_insert_eq; reflexivity.
Qed.

Lemma lock_after_release self w l :
  l ≠ Theirs → lock_of w self = after_acquire l →
  lock_of (fst (release self w)) self = l.
Proof.
  intros Hl Hw. unfold release, bind, gets, modify. simpl. rewrite Hw.
  destruct l as [|n|]; [| |done]; simpl;
    unfold lock_of; simpl; rewrite lookup_insert_eq; reflexivity.
Qed.

Lemma get_errors_run self w rep :
  heap w !! self = Some rep →
  snd (get_errors self w) = Ok (errors rep)
  ∧ heap (fst (get_errors self w))
    = alter (with_errors (λ _, [])) self (heap w).
Proof.
  intros Hrep. unfold get_errors. split.
  - rewrite synchronized_snd by (frame; apply stable_update_self; apply _).
    rewrite bind_run, (self_run self _ rep) by exact Hrep. reflexivity.
  - rewrite synchronized_fst by (frame; apply stable_update_self; apply _).
    rewrite (stable_release (keeps heap)).
    rewrite bind_run, (self_run self _ rep) by exact Hrep. reflexivity.
Qed.

Lemma for_each_log_error {A} (l : list A) (msg : A → string) : ∀ w,
  snd (for_each l (λ x, log_error (msg x)) w) = Ok tt
  ∧ heap (fst (for_each l (λ x, log_error (msg x)) w)) = heap w.
Proof.
  induction l as [|x l IH]; intros w; [split; reflexivity|].
  cbn [for_each]. rewrite bind_run. cbn [log_error log_ modify fst snd].
  destruct (IH (with_logged (λ l, l ++ [(ERROR, "Git: " +:+ msg x)]) w))
    as [Hok Hh].
  split; [exact Hok | rewrite Hh; reflexivity].
Qed.

Lemma report_errors_run repository r w rep :
  heap w !! repository = Some rep →
  snd (report_errors repository r w) = Ok tt
  ∧ heap (fst (report_errors repository r w))
    = alter (with_errors (λ _, [])) repository (heap w).
Proof.
  intros Hrep. unfold report_errors. rewrite bind_run.
  destruct (get_errors_run repository w rep Hrep) as [-> Hheap].
  destruct (for_each_log_error (errors rep)
              (λ e, "Unable to fetch " +:+ long_name r +:+ ": " +:+ exn_str e)
              (fst (get_errors repository w))) as [Hok Hh].
  split; [exact Hok|]. rewrite Hh. exact Hheap.
Qed.

(** A loop left by the exception of one of its turns. *)
Lemma for_each_raise {A} (done : list A) x rest body : ∀ w wd we e,
  for_each done body w = (wd, Ok tt) →
  body x wd = (we, Raise e) →
  for_each (done ++ x :: rest) body w = (we, Raise e).
Proof.
  induction done as [|y done IH]; intros w wd we e Hdone Hx.
  - injection Hdone as <-. cbn [app for_each]. unfold bind. rewrite Hx.
    reflexivity.
  - cbn [app for_each] in *. apply bind_ok_inv in Hdone as ([] & w1 & Hy & Hd).
    unfold bind. rewrite Hy. eapply IH; eassumption.
Qed.

(** What a call of [get_new_commits] that returns tells. *)
Lemma get_new_commits_ok_facts self w w1 r rep :
  get_new_commits self w = (w1, Ok r) →
  heap w !! self = Some rep →
  dom r = dom (commit_by_branch rep)
  ∧ (∀ b, b ∈ dom r →
          ∃ p g, repo rep = Some p ∧ disk w !! p = Some g).
Proof.
  intros H Hrep.
  assert (Hsnd : snd (get_new_commits self w) = Ok r) by (rewrite H; done).
  rewrite (get_new_commits_snd self w rep Hrep) in Hsnd.
  destruct (new_commits_loop (repo rep) (map_to_list (commit_by_branch rep)) ∅
              (fst (acquire self w))) as [wx rx] eqn:Hloop.
  cbn [snd] in Hsnd. subst rx.
  apply new_commits_loop_ok_inv in Hloop as [Hdom Hres].
  rewrite dom_empty_L, (left_id_L ∅ (∪)), keys_dom_set in Hdom.
  split; [exact Hdom|]. intros b Hb.
  destruct Hres as (_ & p & g & Hp & Hg & _).
  - intros Hnil. apply map_to_list_empty_iff in Hnil.
    rewrite Hdom, Hnil, dom_empty_L in Hb. set_solver.
  - exists p, g. split; [exact Hp | exact Hg].
Qed.

Lemma stable_poll_try R `{!PreOrder R, !Synchronizable R, !LogBlind R,
    !HeapBlind R, !IrcBlind R} targets repository r :
  stable R (poll_try targets repository r).
Proof.
  unfold poll_try. frame.
  - apply stable_report_errors; apply _.
  - apply stable_get_new_commits; apply _.
  - apply stable_deliver; apply _.
  - apply stable_advance_cursors; apply _.
  - unfold log_error. apply stable_log_; apply _.
Qed.

Lemma poll_repository_unfold w repository rep :
  heap w !! repository = Some rep →
  poll_targets (ircs w) rep ≠ [] →
  lock_of w repository ≠ Theirs →
  poll_repository repository w
  = try_finally (poll_try (poll_targets (ircs w) rep) repository rep)
      (release repository) (fst (acquire_nonblocking repository w)).
Proof.
  intros Hrep Htargets Hlock. unfold poll_repository.
  rewrite bind_run, (self_run _ _ rep Hrep). cbn [fst snd].
  rewrite bind_run. cbn [gets fst snd].
  destruct (poll_targets (ircs w) rep) as [|t ts]; [done|].
  rewrite bind_run.
  destruct (acquire_nonblocking_run repository w)
    as [[Hl _] | (_ & -> & _)]; [done|].
  reflexivity.
Qed.

Lemma poll_try_total targets repository r w :
  snd (poll_try targets repository r w) = Ok tt.
Proof.
  unfold poll_try, try_except.
  destruct (bind _ _ w) as [w1 [[]|e]]; reflexivity.
Qed.

(** C1, amended.  For a repository with a target whose lock [_poll] has
    taken, the turn of the loop ends normally with the lock given back.
    When [get_new_commits] has returned its dict: if the delivery to every
    target ends normally, the cursor of every branch of the dict is what
    the branch resolves to, its current head; if the delivery to a target
    raises, the targets after it are not delivered to, no cursor moves,
    and the exception is logged for the repository. *)
Theorem poll_repository_outcome w repository rep :
  heap w !! repository = Some rep →
  poll_targets (ircs w) rep ≠ [] →
  lock_of w repository ≠ Theirs →
  let targets := poll_targets (ircs w) rep in
  let w1 := fst (report_errors repository rep
                   (fst (acquire_nonblocking repository w))) in
  let w' := fst (poll_repository repository w) in
  snd (poll_repository repository w) = Ok tt
  ∧ lock_of w' repository = lock_of w repository
  ∧ ∀ w2 new,
      get_new_commits repository w1 = (w2, Ok new) →
      (∀ w3, deliver targets repository new w2 = (w3, Ok tt) →
         ∀ b, b ∈ dom new →
           ∃ rep' p g,
             heap w' !! repository = Some rep' ∧ repo rep = Some p
             ∧ disk w' !! p = Some g
             ∧ commit_by_branch rep' !! b = Some (GitModel.lookup_commit g b))
      ∧ (∀ done irc channel rest wd we e,
           targets = done ++ (irc, channel) :: rest →
           deliver done repository new w2 = (wd, Ok tt) →
           _display_commits irc channel repository (ByBranch new) "commits" wd
           = (we, Raise e) →
           commit_by_branch <$> heap w' !! repository
           = Some (commit_by_branch rep)
           ∧ ircs w' = ircs we
           ∧ logged w'
             = logged we
               ++ [(ERROR, "Git: Exception in _poll repository "
                           +:+ short_name rep +:+ ": " +:+ exn_str e)]).
Proof.
  intros Hrep Htargets Hlock. cbv zeta.
  rewrite (poll_repository_unfold w repository rep Hrep Htargets Hlock).
  set (targets := poll_targets (ircs w) rep).
  pose proof (lock_after_acquire_nonblocking repository w Hlock) as Hl0.
  assert (Hheap0 : heap (fst (acquire_nonblocking repository w)) = heap w)
    by apply (stable_acquire_nonblocking (keeps heap)).
  set (w0 := fst (acquire_nonblocking repository w)) in *. clearbody w0.
  assert (Hn : ∃ n, lock_of w0 repository = Mine n).
  { rewrite Hl0. destruct (lock_of w repository); simpl; eauto. }
  destruct Hn as [n Hn].
  rewrite (try_finally_release repository _ w0 n Hn)
    by (apply stable_poll_try; apply _).
  cbn [fst snd].
  split; [apply poll_try_total|]. split.
  { apply lock_after_release; [exact Hlock|].
    rewrite <- Hl0. rewrite Hn.
    apply (stable_poll_try (held repository)). exact Hn. }
  intros w2 new Hgnc.
  rewrite (stable_release (keeps heap)), (stable_release (keeps disk)),
    (stable_release (keeps ircs)), (stable_release (keeps logged)).
  destruct (report_errors_run repository rep w0 rep) as [Hrok Hheap1];
    [rewrite Hheap0; exact Hrep|].
  set (w1 := fst (report_errors repository rep w0)) in *.
  assert (Hrep1 : heap w1 !! repository = Some (with_errors (λ _, []) rep)).
  { rewrite Hheap1, list_lookup_alter_eq, Hheap0, Hrep. reflexivity. }
  assert (Hw2 : w2 = fst (get_new_commits repository w1)) by (rewrite Hgnc; done).
  assert (Hheap2 : heap w2 = heap w1)
    by (rewrite Hw2; apply (stable_get_new_commits (keeps heap))).
  assert (Hdisk2 : disk w2 = disk w1)
    by (rewrite Hw2; apply (stable_get_new_commits (keeps disk))).
  (* the try block up to the delivery *)
  assert (Hbody : poll_try targets repository rep w0
                  = try_except
                      (deliver targets repository new ;;
                       advance_cursors repository new)
                      (λ e, log_error ("Exception in _poll repository "
                                       +:+ short_name rep +:+ ": " +:+ exn_str e))
                      w2).
  { unfold poll_try, try_except. rewrite bind_run, Hrok. fold w1.
    rewrite bind_run, Hgnc. reflexivity. }
  rewrite Hbody. clear Hbody. split.
  - (* every delivery ended normally *)
    intros w3 Hdel b Hb.
    destruct (get_new_commits_ok_facts repository w1 w2 new _ Hgnc Hrep1)
      as [_ Hres].
    destruct (Hres b Hb) as (p & g & Hp & Hg).
    assert (Hw3 : w3 = fst (deliver targets repository new w2))
      by (rewrite Hdel; done).
    assert (Hheap3 : heap w3 = heap w2)
      by (rewrite Hw3; apply (stable_deliver (keeps heap))).
    assert (Hdisk3 : disk w3 = disk w2)
      by (rewrite Hw3; apply (stable_deliver (keeps disk))).
    destruct (advance_loop repository p g (map_to_list new).*1 w3
                (with_errors (λ _, []) rep))
      as (w4 & rep4 & Hadv & _ & Hdisk4 & Hrep4 & _ & Hcur);
      [congruence | exact Hp | congruence |].
    unfold try_except. rewrite bind_run, Hdel. cbn [fst snd].
    unfold advance_cursors. rewrite Hadv. cbn [fst].
    exists rep4, p, g. split; [exact Hrep4|]. split; [exact Hp|].
    split; [congruence|].
    rewrite Hcur, decide_True by (apply keys_dom; exact Hb). reflexivity.
  - (* the delivery to one target raised *)
    intros done irc channel rest wd we e Hsplit Hdone Hraise.
    assert (Hdel : deliver targets repository new w2 = (we, Raise e)).
    { unfold deliver in *. rewrite Hsplit.
      eapply (for_each_raise done (irc, channel) rest); eassumption. }
    unfold try_except. rewrite bind_run, Hdel. cbn [fst snd log_error log_ modify].
    assert (Hwe : we = fst (deliver targets repository new w2))
      by (rewrite Hdel; done).
    assert (Hheape : heap we = heap w2)
      by (rewrite Hwe; apply (stable_deliver (keeps heap))).
    split; [|split; reflexivity].
    cbn. rewrite Hheape, Hheap2, Hrep1. reflexivity.
Qed.

Lemma poll_repository_outcome_witness :
  let w := behind_world two_targets in
  let rep := tracked_at commit_b2 in
  let targets := poll_targets (ircs w) rep in
  let w1 := fst (report_errors 0 rep (fst (acquire_nonblocking 0 w))) in
  let w' := fst (poll_repository 0 w) in
  snd (poll_repository 0 w) = Ok tt
  ∧ lock_of w' 0 = lock_of w 0
  ∧ ∀ w2 new,
      get_new_commits 0 w1 = (w2, Ok new) →
      (∀ w3, deliver targets 0 new w2 = (w3, Ok tt) →
         ∀ b, b ∈ dom new →
           ∃ rep' p g,
             heap w' !! 0%nat = Some rep' ∧ repo rep = Some p
             ∧ disk w' !! p = Some g
             ∧ commit_by_branch rep' !! b = Some (GitModel.lookup_commit g b))
      ∧ (∀ done irc channel rest wd we e,
           targets = done ++ (irc, channel) :: rest →
           deliver done 0 new w2 = (wd, Ok tt) →
           _display_commits irc channel 0 (ByBranch new) "commits" wd
           = (we, Raise e) →
           commit_by_branch <$> heap w' !! 0%nat
           = Some (commit_by_branch rep)
           ∧ ircs w' = ircs we
           ∧ logged w'
             = logged we
               ++ [(ERROR, "Git: Exception in _poll repository "
                           +:+ short_name rep +:+ ": " +:+ exn_str e)]).
Proof.
  apply (poll_repository_outcome (behind_world two_targets) 0%nat
           (tracked_at commit_b2));
    [reflexivity | vm_compute; discriminate | vm_compute; discriminate].
Defined.

(** * The fetcher thread: the first sweep *)

Section FetcherFrames.
Context (R : relation World) `{!PreOrder R, !Synchronizable R}.
Context `{!LogBlind R, !LockBlind R, !HeapBlind R, !DiskBlind R,
          !ClockBlind R, !GhostAppend R}.

Lemma stable_fetch_repository repository :
  stable R (GitFetcher.fetch_repository repository).
Proof.
  unfold GitFetcher.fetch_repository. frame.
  - apply stable_acquire_nonblocking; apply _.
  - apply stable_modify. intros w. apply ghost_append.
  - apply stable_fetch; apply _.
  - apply stable_record_error; apply _.
  - apply stable_release; apply _.
  - unfold log_info. apply stable_log_; apply _.
Qed.

Lemma stable_sweep stop todo : stable R (GitFetcher.sweep stop todo).
Proof.
  induction todo as [|repository rest IH]; cbn [GitFetcher.sweep];
    unfold GitFetcher.shutdown; frame.
  - apply stable_fetch_repository.
  - unfold log_error. apply stable_log_; apply _.
  - exact IH.
Qed.

Lemma stable_wait_loop fuel stop end_time :
  stable R (GitFetcher.wait_loop fuel stop end_time).
Proof.
  induction fuel as [|fuel IH]; cbn [GitFetcher.wait_loop];
    unfold GitFetcher.shutdown, GitFetcher.sleep; frame. exact IH.
Qed.

Lemma stable_run_loop fuel self stop : ∀ end_time,
  stable R (GitFetcher.run_loop fuel self stop end_time).
Proof.
  induction fuel as [|fuel IH]; intros end_time; cbn [GitFetcher.run_loop];
    unfold GitFetcher.shutdown, GitFetcher.wait; frame.
  - apply stable_sweep.
  - apply stable_wait_loop.
  - apply IH.
Qed.

End FetcherFrames.

#[global] Instance fetched_first_log_blind P : LogBlind (maintains (fetched_first P)).
Proof. intros f w H. exact H. Qed.
#[global] Instance fetched_first_lock_blind P : LockBlind (maintains (fetched_first P)).
Proof. intros f w H. exact H. Qed.
#[global] Instance fetched_first_heap_blind P : HeapBlind (maintains (fetched_first P)).
Proof. intros f w H. exact H. Qed.
#[global] Instance fetched_first_disk_blind P : DiskBlind (maintains (fetched_first P)).
Proof. intros f w H. exact H. Qed.
#[global] Instance fetched_first_clock_blind P : ClockBlind (maintains (fetched_first P)).
Proof. intros f w H. exact H. Qed.
#[global] Instance fetched_first_ghost_append P : GhostAppend (maintains (fetched_first P)).
Proof.
  intros x w [k Hk]. exists (k ++ [x]). unfold with_fetch_calls. cbn.
  rewrite Hk, app_assoc. reflexivity.
Qed.

(** An invariant reached by the first part of a computation and kept by
    what follows. *)
Lemma bind_reaches {A B} (I : World → Prop) (m : M A) (k : A → M B) w :
  I (fst (m w)) → (∀ a, stable (maintains I) (k a)) → I (fst (bind m k w)).
Proof.
  intros Hm Hk. unfold bind. destruct (m w) as [w1 [a|e]]; cbn [fst] in *;
    [apply Hk; exact Hm | exact Hm].
Qed.

Lemma try_except_reaches {A} (I : World → Prop) (m : M A) h w :
  I (fst (m w)) → (∀ e, stable (maintains I) (h e)) →
  I (fst (try_except m h w)).
Proof.
  intros Hm Hh. unfold try_except. destruct (m w) as [w1 [a|e]];
    cbn [fst] in *; [exact Hm | apply Hh; exact Hm].
Qed.

Lemma try_finally_reaches {A} (I : World → Prop) (m : M A) fin w :
  I (fst (m w)) → stable (maintains I) fin → I (fst (try_finally m fin w)).
Proof.
  intros Hm Hf. unfold try_finally. destruct (m w) as [w1 r]. cbn [fst] in *.
  specialize (Hf w1 Hm). destruct (fin w1) as [w2 [[]|e]]; exact Hf.
Qed.

(** Whatever the repositories and the period: when [run] starts, with
    [stop()] not called and the lock of the first repository not held by
    another thread, its first call of [fetch] is at the time of the start;
    no wait comes before it. *)
Lemma run_first_fetch_at_start fuel self stop w repository rest :
  GitFetcher.repository_list self = repository :: rest →
  stop (clock w) = false →
  lock_of w repository ≠ Theirs →
  fetched_first (fetch_calls w ++ [(clock w, repository)])
    (fst (GitFetcher.run (S fuel) self stop w)).
Proof.
  intros Hlist Hstop Hlock.
  set (I := fetched_first (fetch_calls w ++ [(clock w, repository)])).
  unfold GitFetcher.run. rewrite bind_run. cbn [gets fst snd].
  cbn [GitFetcher.run_loop]. rewrite bind_run, shutdown_run. cbn [fst snd].
  rewrite Hstop, Hlist.
  apply bind_reaches; cycle 1.
  { intros _. frame; [unfold GitFetcher.wait; frame; apply stable_wait_loop; apply _
                     | apply stable_run_loop; apply _]. }
  cbn [GitFetcher.sweep]. rewrite bind_run, shutdown_run. cbn [fst snd].
  rewrite Hstop.
  apply bind_reaches; cycle 1.
  { intros went. destruct went; [apply stable_sweep; apply _ | apply stable_ret; apply _]. }
  apply try_except_reaches; cycle 1.
  { intros e. frame. unfold log_error. apply stable_log_; apply _. }
  apply bind_reaches; [|intros; apply stable_ret; apply _].
  unfold GitFetcher.fetch_repository. rewrite bind_run.
  destruct (acquire_nonblocking_run repository w)
    as [[Hl _] | (_ & Hgot & _)]; [done|].
  rewrite Hgot.
  assert (Hc : clock (fst (acquire_nonblocking repository w)) = clock w)
    by apply (stable_acquire_nonblocking (keeps clock)).
  assert (Hf : fetch_calls (fst (acquire_nonblocking repository w)) = fetch_calls w)
    by apply (stable_acquire_nonblocking (keeps fetch_calls)).
  set (w0 := fst (acquire_nonblocking repository w)) in *. clearbody w0.
  apply try_finally_reaches; [|apply stable_release; apply _].
  apply try_except_reaches; [|intros e; apply stable_record_error; apply _].
  rewrite bind_run. cbn [gets fst snd].
  apply bind_reaches; [|intros; apply stable_fetch; apply _].
  unfold I, fetched_first. cbn [modify fst with_fetch_calls fetch_calls].
  rewrite Hc, Hf. reflexivity.
Qed.

(** * Display of a batch of commits: limits that are not zero *)

Lemma format_link_loop_snd self commit todo : ∀ result escaped w,
  api_ok w →
  snd (format_link_loop self commit todo result escaped w)
  = Ok (link_text commit todo result escaped).
Proof.
  induction todo as [|c todo IH]; intros result escaped w Hw; [reflexivity|].
  cbn [format_link_loop link_text]. destruct escaped.
  - destruct (decide (c = "c"%char)); [|destruct (decide (c = "C"%char))].
    + rewrite (bind_ok _ _ _ _ (get_commit_id_snd self commit w Hw)).
      apply IH, api_ok_stable; [apply stable_get_commit_id; apply _ | exact Hw].
    + rewrite (bind_ok _ _ _ _ (get_commit_id_snd self commit w Hw)).
      apply IH, api_ok_stable; [apply stable_get_commit_id; apply _ | exact Hw].
    + apply IH, Hw.
  - destruct (decide (c = "%"%char)); apply IH, Hw.
Qed.

Lemma format_message_run self commit branch w r :
  api_ok w → heap w !! self = Some r →
  snd (format_message self commit branch w) = Ok (message_lines r commit branch).
Proof.
  intros Hw Hr. unfold format_message.
  rewrite synchronized_snd
    by (frame; try apply stable_get_commit_id; try apply stable_format_link; apply _).
  set (w1 := fst (acquire self w)).
  assert (Hw1 : api_ok w1) by exact Hw.
  assert (Hr1 : heap w1 !! self = Some r) by exact Hr.
  clearbody w1.
  rewrite bind_run, (self_run self _ r) by exact Hr1. cbn [fst snd].
  rewrite (bind_ok _ _ _ _ (get_commit_id_snd self commit w1 Hw1)).
  set (w2 := fst (get_commit_id self commit w1)).
  assert (Hw2 : api_ok w2)
    by (apply api_ok_stable; [apply stable_get_commit_id; apply _ | exact Hw1]).
  assert (Hr2 : heap w2 !! self = Some r).
  { unfold w2. rewrite (stable_get_commit_id (keeps heap) self commit w1). exact Hr1. }
  clearbody w2.
  rewrite (bind_ok _ _ _ _ (get_commit_id_snd self commit w2 Hw2)).
  set (w3 := fst (get_commit_id self commit w2)).
  assert (Hw3 : api_ok w3)
    by (apply api_ok_stable; [apply stable_get_commit_id; apply _ | exact Hw2]).
  assert (Hr3 : heap w3 !! self = Some r).
  { unfold w3. rewrite (stable_get_commit_id (keeps heap) self commit w2). exact Hr2. }
  clearbody w3.
  assert (Hl : snd (format_link self commit w3)
               = Ok (link_text commit (commit_link r) "" false)).
  { unfold format_link.
    rewrite synchronized_snd
      by (frame; apply stable_format_link_loop; apply _).
    rewrite bind_run, (self_run self _ r) by exact Hr3. cbn [fst snd].
    apply format_link_loop_snd. exact Hw3. }
  rewrite (bind_ok _ _ _ _ Hl). reflexivity.
Qed.

Lemma remove_dups_constant (a : string) (l : list string) :
  l ≠ [] → Forall (λ x, x = a) l → remove_dups l = [a].
Proof.
  induction l as [|x l IH]; [done|]. intros _ Hall.
  apply Forall_cons in Hall as [-> Hall]. cbn [remove_dups].
  destruct l as [|y l].
  - destruct (decide_rel elem_of a []) as [H|H]; [inversion H | reflexivity].
  - destruct (decide_rel elem_of a (y :: l)) as [H|H].
    + apply IH; [done | exact Hall].
    + exfalso. apply H. apply Forall_cons in Hall as [-> _]. left.
Qed.

Lemma filter_constant (a : string) (commits : list Commit) :
  Forall (λ c, author_name c = a) commits →
  List.filter (λ c, bool_decide (author_name c = a)) commits = commits.
Proof.
  induction 1 as [|c commits Hc _ IH]; [reflexivity|]. cbn [List.filter].
  rewrite bool_decide_eq_true_2 by exact Hc. rewrite IH. reflexivity.
Qed.

Lemma queueMsg_run irc channel text box w :
  accepting irc box w →
  snd (queueMsg irc channel text w) = Ok tt
  ∧ accepting irc (box ++ [(channel, text)]) (fst (queueMsg irc channel text w))
  ∧ heap (fst (queueMsg irc channel text w)) = heap w
  ∧ GIT_API_VERSION (fst (queueMsg irc channel text w)) = GIT_API_VERSION w
  ∧ maxCommitsAtOnce (fst (queueMsg irc channel text w)) = maxCommitsAtOnce w.
Proof.
  intros (i & Hi & Hr & Hb). unfold queueMsg. rewrite Hi, Hr. cbn [fst snd].
  split; [reflexivity|]. split; [|repeat split].
  eexists. cbn. rewrite list_lookup_alter_eq, Hi. cbn.
  split; [reflexivity|]. split; [exact Hr | rewrite Hb; reflexivity].
Qed.

Lemma queue_lines_run irc channel (lines : list string) : ∀ box w,
  accepting irc box w →
  let out := for_each lines (queueMsg irc channel) w in
  snd out = Ok tt
  ∧ accepting irc (box ++ ((λ line, (channel, line)) <$> lines)) (fst out)
  ∧ heap (fst out) = heap w
  ∧ GIT_API_VERSION (fst out) = GIT_API_VERSION w.
Proof.
  induction lines as [|line lines IH]; intros box w Hw; cbv zeta.
  - cbn. rewrite app_nil_r. done.
  - cbn [for_each]. rewrite bind_run.
    destruct (queueMsg_run irc channel line box w Hw)
      as (-> & Hacc & Hheap & Hapi & _).
    destruct (IH _ _ Hacc) as (Hok & Hacc' & Hheap' & Hapi').
    split; [exact Hok|]. rewrite fmap_cons, (cons_middle _ box), app_assoc.
    split; [exact Hacc'|]. split; congruence.
Qed.

Lemma display_entries_run irc channel repository rep branch (commits : list Commit) :
  ∀ box w,
  api_ok w → heap w !! repository = Some rep → accepting irc box w →
  let out := for_each commits (λ commit,
               do lines ← format_message repository commit branch;
               for_each lines (queueMsg irc channel)) w in
  snd out = Ok tt
  ∧ accepting irc
      (box ++ ((λ line, (channel, line))
                 <$> concat ((λ c, message_lines rep c branch) <$> commits)))
      (fst out).
Proof.
  induction commits as [|c commits IH]; intros box w Hapi Hrep Hacc; cbv zeta.
  - cbn. rewrite app_nil_r. done.
  - cbn [for_each]. rewrite bind_run, bind_run.
    rewrite (format_message_run repository c branch w rep Hapi Hrep).
    set (w1 := fst (format_message repository c branch w)).
    assert (Hapi1 : api_ok w1)
      by (apply api_ok_stable; [apply stable_format_message; apply _ | exact Hapi]).
    assert (Hrep1 : heap w1 !! repository = Some rep).
    { unfold w1. rewrite (stable_format_message (keeps heap)). exact Hrep. }
    assert (Hacc1 : accepting irc box w1).
    { unfold accepting, w1. rewrite (stable_format_message (keeps ircs)).
      exact Hacc. }
    clearbody w1.
    destruct (queue_lines_run irc channel (message_lines rep c branch) box w1 Hacc1)
      as (-> & Hacc2 & Hheap2 & Hapi2).
    destruct (IH (box ++ ((λ line, (channel, line)) <$> message_lines rep c branch))
                (fst (for_each (message_lines rep c branch) (queueMsg irc channel) w1)))
      as [Hok Hacc3].
    + unfold api_ok. rewrite Hapi2. exact Hapi1.
    + rewrite Hheap2. exact Hrep1.
    + exact Hacc2.
    + split; [exact Hok|].
      rewrite fmap_cons, concat_cons, fmap_app, app_assoc. exact Hacc3.
Qed.

Lemma slice_last_length {A} (limit : nat) (l : list A) :
  (0 < limit)%nat → length (Py.slice_last limit l) = (length l `min` limit)%nat.
Proof.
  intros Hpos. unfold Py.slice_last. destruct limit as [|n]; [lia|].
  rewrite length_drop. lia.
Qed.

Lemma for_each_one {A} (x : A) (body : A → M unit) w :
  for_each [x] body w = body x w.
Proof.
  cbn [for_each]. unfold bind. destruct (body x w) as [w' [[]|e]]; reflexivity.
Qed.

(** The notice, when the batch is longer than the limit, then the lines of
    the commits that [commits[-limit:]] keeps. *)
Lemma display_some_commits_run w irc channel repository rep branch commits box :
  api_ok w →
  heap w !! repository = Some rep →
  accepting irc box w →
  let limit := maxCommitsAtOnce w in
  let out := _display_some_commits irc channel repository commits branch w in
  snd out = Ok tt
  ∧ accepting irc
      (box
       ++ (if bool_decide (limit < length commits)%nat
           then [(channel, "Showing latest " +:+ pretty limit +:+ " of "
                           +:+ pretty (length commits) +:+ " commits to "
                           +:+ long_name rep +:+ "...")]
           else [])
       ++ ((λ line, (channel, line))
             <$> concat ((λ c, message_lines rep c branch)
                           <$> Py.slice_last limit commits)))
      (fst out).
Proof.
  intros Hapi Hrep Hacc. cbv zeta. unfold _display_some_commits.
  rewrite bind_run. cbn [gets fst snd].
  rewrite bind_run, (self_run repository w rep Hrep). cbn [fst snd].
  rewrite bind_run.
  set (notice := "Showing latest " +:+ _).
  destruct (bool_decide (maxCommitsAtOnce w < length commits)%nat) eqn:Hcut;
    cbn [when].
  - destruct (queueMsg_run irc channel notice box w Hacc)
      as (-> & Hacc2 & Hheap2 & Hapi2 & _).
    destruct (display_entries_run irc channel repository rep branch
                (Py.slice_last (maxCommitsAtOnce w) commits)
                (box ++ [(channel, notice)])
                (fst (queueMsg irc channel notice w)))
      as [Hok Hacc3];
      [unfold api_ok; rewrite Hapi2; exact Hapi
      |rewrite Hheap2; exact Hrep | exact Hacc2 | ].
    split; [exact Hok|]. rewrite <- app_assoc in Hacc3. exact Hacc3.
  - cbn [ret fst snd].
    destruct (display_entries_run irc channel repository rep branch
                (Py.slice_last (maxCommitsAtOnce w) commits) box w)
      as [Hok Hacc3]; [exact Hapi | exact Hrep | exact Hacc | ].
    split; [exact Hok | exact Hacc3].
Qed.

(** The claim C6 for the limits that are not zero: a batch of K commits of
    one author on one branch, with the header on and in the polling
    context, puts in the queue of the target the header, then the notice
    when K exceeds the limit and only then, then the lines of the last
    min(K, limit) commits. *)
Lemma display_single_author w irc channel repository rep branch commits a box :
  api_ok w →
  heap w !! repository = Some rep →
  group_header rep = true →
  accepting irc box w →
  commits ≠ [] →
  Forall (λ c, author_name c = a) commits →
  (0 < maxCommitsAtOnce w)%nat →
  let K := length commits in
  let limit := maxCommitsAtOnce w in
  let out := _display_commits irc channel repository
               (ByBranch {[ branch := commits ]}) "commits" w in
  let shown := Py.slice_last limit commits in
  snd out = Ok tt
  ∧ length shown = (K `min` limit)%nat
  ∧ accepting irc
      (box
       ++ [(channel, a +:+ " pushed " +:+ pretty K +:+ " commit(s) to "
                     +:+ branch +:+ " at " +:+ short_name rep)]
       ++ (if bool_decide (limit < K)%nat
           then [(channel, "Showing latest " +:+ pretty limit +:+ " of "
                           +:+ pretty K +:+ " commits to "
                           +:+ long_name rep +:+ "...")]
           else [])
       ++ ((λ line, (channel, line))
             <$> concat ((λ c, message_lines rep c branch) <$> shown)))
      (fst out).
Proof.
  intros Hapi Hrep Hheader Hacc Hne Hall Hpos. cbv zeta.
  pose proof (slice_last_length (maxCommitsAtOnce w) commits Hpos) as Hlen.
  unfold _display_commits. cbn [falsy as_dict].
  rewrite bool_decide_eq_false_2; cycle 1.
  { intros Hempty. apply (f_equal (λ m, m !! branch)) in Hempty.
    rewrite lookup_singleton_eq, lookup_empty in Hempty. discriminate. }
  rewrite map_to_list_singleton, for_each_one.
  rewrite (remove_dups_constant a); cycle 1.
  { destruct commits; [done | discriminate]. }
  { apply Forall_fmap. exact Hall. }
  rewrite for_each_one, (filter_constant a commits Hall).
  rewrite bind_run, (self_run repository w rep Hrep). cbn [fst snd].
  rewrite Hheader. cbn [negb orb].
  rewrite bool_decide_eq_false_2 by discriminate.
  rewrite bind_run.
  destruct (decide ("commits" = "snarf")) as [Heq|_]; [discriminate Heq|].
  cbn [ret fst snd]. rewrite bind_run.
  set (header := a +:+ " pushed " +:+ _).
  destruct (queueMsg_run irc channel header box w Hacc)
    as (-> & Hacc1 & Hheap1 & Hapi1 & Hmax1).
  destruct (display_some_commits_run (fst (queueMsg irc channel header w))
              irc channel repository rep branch commits
              (box ++ [(channel, header)]))
    as [Hok Hacc2];
    [unfold api_ok; rewrite Hapi1; exact Hapi
    |rewrite Hheap1; exact Hrep | exact Hacc1 |].
  rewrite Hmax1 in Hacc2. rewrite <- app_assoc in Hacc2.
  split; [exact Hok|]. split; [exact Hlen | exact Hacc2].
Qed.

(** * The helpers of the module *)

Lemma str_last_init (s : string) :
  s ≠ "" → ∃ c, str_last s = Some c ∧ s = str_init s +:+ String c "".
Proof.
  induction s as [|a s IH]; [done|]. intros _.
  destruct s as [|b s].
  - exists a. split; reflexivity.
  - destruct IH as (c & Hc & Hs); [done|].
    exists c. split; [exact Hc|].
    change (str_init (String a (String b s))) with (String a (str_init (String b s))).
    rewrite string_app_cons. f_equal. exact Hs.
Qed.

Lemma str_last_app (s : string) (c : ascii) :
  str_last (s +:+ String c "") = Some c.
Proof.
  induction s as [|a s IH]; [reflexivity|].
  rewrite string_app_cons. cbn [str_last]. rewrite IH.
  destruct (s +:+ String c "") eqn:H; [|reflexivity].
  destruct s; discriminate H.
Qed.

Lemma string_app_inj_l (a b c : string) : a +:+ b = a +:+ c → b = c.
Proof.
  induction a as [|x a IH]; [rewrite !string_app_nil_l; done|].
  rewrite !string_app_cons. intros [= H]. apply IH, H.
Qed.

Lemma str_last_None (s : string) : str_last s = None → s = "".
Proof.
  intros H. destruct s as [|a s]; [reflexivity|].
  destruct (str_last_init (String a s)) as (c & Hc & _); [done|]. congruence.
Qed.

(** [plural] fails on the empty word only, and only when it has to derive
    the plural form from it. *)
Theorem plural_raises_iff count singular p :
  (∃ e, plural count singular p = Raise e)
  ↔ count ≠ 1 ∧ no_plural p ∧ singular = "".
Proof.
  unfold plural, no_plural. split.
  - intros [e H].
    destruct (decide (count = 1)); [discriminate|]. split; [done|].
    assert (Hs : str_last singular = None).
    { destruct (str_last singular) as [c|]; [|reflexivity].
      destruct p as [[|? ?]|]; repeat case_decide; discriminate. }
    split; [|apply str_last_None, Hs].
    destruct p as [[|c p]|]; [right; reflexivity | discriminate | left; reflexivity].
  - intros (Hc & Hp & ->). rewrite decide_False by exact Hc.
    destruct Hp as [-> | ->]; eexists; reflexivity.
Qed.

(** The form [plural] derives from a word: the word but its last letter,
    then an ending in s; it is never the word itself. *)
Theorem plural_derived_form count singular p :
  count ≠ 1 → no_plural p → singular ≠ "" →
  ∃ form ending,
    plural count singular p = Ok form
    ∧ form = str_init singular +:+ ending
    ∧ str_last form = Some "s"%char
    ∧ form ≠ singular.
Proof.
  intros Hc Hp Hs. unfold plural. rewrite decide_False by exact Hc.
  destruct (str_last_init singular Hs) as (c & Hlast & Hsplit).
  assert (Hgo : ∃ form ending,
             match str_last singular with
             | None => Raise (IndexError "string index out of range")
             | Some c =>
                 if decide (c = "s"%char) then Ok (singular +:+ "es")
                 else if decide (c = "y"%char) then Ok (str_init singular +:+ "ies")
                 else Ok (singular +:+ "s")
             end = Ok form
             ∧ form = str_init singular +:+ ending
             ∧ str_last form = Some "s"%char
             ∧ form ≠ singular).
  { rewrite Hlast.
    destruct (decide (c = "s"%char)) as [->|Hns];
      [|destruct (decide (c = "y"%char)) as [->|Hny]].
    - exists (singular +:+ "es"), "ses". split; [reflexivity|].
      split; [rewrite Hsplit at 1; rewrite string_app_assoc; reflexivity|].
      split.
      { replace (singular +:+ "es") with ((singular +:+ "e") +:+ "s")
          by (rewrite string_app_assoc; reflexivity).
        apply str_last_app. }
      rewrite <- (string_app_nil_r singular) at 2.
      intros H%string_app_inj_l. discriminate H.
    - exists (str_init singular +:+ "ies"), "ies". split; [reflexivity|].
      split; [reflexivity|].
      split.
      { replace (str_init singular +:+ "ies")
          with ((str_init singular +:+ "ie") +:+ "s")
          by (rewrite string_app_assoc; reflexivity).
        apply str_last_app. }
      rewrite Hsplit at 2. intros H%string_app_inj_l. discriminate H.
    - exists (singular +:+ "s"), (String c "s"). split; [reflexivity|].
      split; [rewrite Hsplit at 1; rewrite string_app_assoc; reflexivity|].
      split; [apply str_last_app|].
      rewrite <- (string_app_nil_r singular) at 2.
      intros H%string_app_inj_l. discriminate H. }
  destruct Hp as [-> | ->]; exact Hgo.
Qed.

Lemma plural_derived_form_witness :
  ∃ form ending,
    plural 2 "repository" None = Ok form
    ∧ form = str_init "repository" +:+ ending
    ∧ str_last form = Some "s"%char
    ∧ form ≠ "repository".
Proof.
  apply (plural_derived_form 2 "repository" None);
    [lia | left; reflexivity | discriminate].
Defined.

(** * The start of the plugin *)

(** [init_git_python] ends normally for the versions 0.N with N a digit,
    and for them only; it then leaves 1 or 3 as the API version.  When it
    raises, the world is as before: the version stays as it was. *)
Theorem init_git_python_outcome installed w :
  let out := Git.init_git_python installed w in
  (snd out = Ok tt ↔
   ∃ c rest v, installed = Some (String "0" (String "." (String c rest)))
               ∧ int_of_char c = Some v)
  ∧ match snd out with
    | Ok _ => api_ok (fst out)
    | Raise _ => fst out = w
    end.
Proof.
  cbv zeta. unfold Git.init_git_python.
  destruct installed as [version|]; cycle 1.
  { split; [|reflexivity]. split; [discriminate|]. intros (? & ? & ? & ? & _).
    discriminate. }
  destruct version as [|a [|b [|c rest]]];
    try (split; [|reflexivity]; split;
         [discriminate | intros (? & ? & ? & ? & _); discriminate]).
  { cbn [Py.startswith]. destruct (bool_decide ("0"%char = a)); cbn;
      (split; [|reflexivity]; split;
       [discriminate | intros (? & ? & ? & ? & _); discriminate]). }
  { cbn [Py.startswith].
    destruct (bool_decide ("0"%char = a)), (bool_decide ("."%char = b)); cbn;
      (split; [|reflexivity]; split;
       [discriminate | intros (? & ? & ? & ? & _); discriminate]). }
  cbn [Py.startswith].
  destruct (bool_decide_reflect ("0"%char = a)) as [<-|Ha]; cycle 1.
  { cbn. split; [|reflexivity]. split; [discriminate|].
    intros (? & ? & ? & [= ? ? ? ?] & _). congruence. }
  destruct (bool_decide_reflect ("."%char = b)) as [<-|Hb]; cycle 1.
  { cbn. split; [|reflexivity]. split; [discriminate|].
    intros (? & ? & ? & [= ? ? ?] & _). congruence. }
  cbn [andb negb String.get].
  destruct (int_of_char c) as [v|] eqn:Hv; cycle 1.
  { split; [|reflexivity]. split; [discriminate|].
    intros (? & ? & ? & [= <- <-] & ?). congruence. }
  rewrite bind_run. cbn [modify fst snd].
  destruct (bool_decide_reflect (v ∈ [1; 3])) as [Hin|Hin].
  - split; [split; [eauto|reflexivity]|]. cbn.
    apply elem_of_cons in Hin as [->|Hin]; [left; reflexivity|].
    apply list_elem_of_singleton in Hin as ->. right; reflexivity.
  - split; [split; [eauto|reflexivity]|]. cbn. right; reflexivity.
Qed.

(** The versions 0.1.7 and 0.3.2 give the APIs 1 and 3; 0.2.0 is taken for
    3 with an error in the log; 0.10.1 is taken for 0.1. *)
Example init_git_python_versions :
  GIT_API_VERSION (fst (Git.init_git_python (Some "0.1.7") bare_world)) = 1
  ∧ GIT_API_VERSION (fst (Git.init_git_python (Some "0.3.2") bare_world)) = 3
  ∧ GIT_API_VERSION (fst (Git.init_git_python (Some "0.10.1") bare_world)) = 1
  ∧ (let w := fst (Git.init_git_python (Some "0.2.0") bare_world) in
     GIT_API_VERSION w = 3
     ∧ logged w = [(ERROR, "Git: GitPython version 0.2.0 unrecognized, using 0.3.x API.")])
  ∧ snd (Git.init_git_python (Some "1.0.0") bare_world)
    = Raise (Exception "Unsupported GitPython version.").
Proof. vm_compute. repeat split. Qed.

(** * The error queue *)

Lemma record_errors_run self (es : list exn) : ∀ w,
  snd (for_each es (record_error self) w) = Ok tt
  ∧ heap (fst (for_each es (record_error self) w))
    = alter (with_errors (λ l, l ++ es)) self (heap w).
Proof.
  induction es as [|e es IH]; intros w.
  - split; [reflexivity|]. cbn [for_each ret fst].
    symmetry. apply list_alter_id. intros r.
    destruct r. unfold with_errors. cbn. rewrite app_nil_r. reflexivity.
  - cbn [for_each]. rewrite bind_run.
    destruct (record_error_run self e w) as [-> Hh]. cbn [fst snd].
    destruct (IH (fst (record_error self e w))) as [Hok Hh2].
    split; [exact Hok|]. rewrite Hh2, Hh, list_alter_alter_eq.
    apply list_alter_ext; [|reflexivity].
    intros r _. destruct r. unfold with_errors. cbn.
    rewrite <- app_assoc. reflexivity.
Qed.

(** What [record_error] has queued, [get_errors] returns in the order of
    the calls, after what the queue held; the queue is then empty, so that
    the next [get_errors] returns nothing: an error is reported once. *)
Theorem error_queue_round_trip w self rep (es : list exn) :
  heap w !! self = Some rep →
  let w1 := fst (for_each es (record_error self) w) in
  snd (for_each es (record_error self) w) = Ok tt
  ∧ snd (get_errors self w1) = Ok (errors rep ++ es)
  ∧ snd (get_errors self (fst (get_errors self w1))) = Ok [].
Proof.
  intros Hrep. cbv zeta.
  destruct (record_errors_run self es w) as [Hok Hheap].
  set (w1 := fst (for_each es (record_error self) w)) in *.
  assert (Hrep1 : heap w1 !! self = Some (with_errors (λ l, l ++ es) rep)).
  { rewrite Hheap, list_lookup_alter_eq, Hrep. reflexivity. }
  destruct (get_errors_run self w1 _ Hrep1) as [Hget Hheap2].
  split; [exact Hok|]. split; [exact Hget|].
  assert (Hrep2 : heap (fst (get_errors self w1)) !! self
                  = Some (with_errors (λ _, []) (with_errors (λ l, l ++ es) rep))).
  { rewrite Hheap2, list_lookup_alter_eq, Hrep1. reflexivity. }
  destruct (get_errors_run self _ _ Hrep2) as [Hget2 _]. exact Hget2.
Qed.

Lemma error_queue_round_trip_witness :
  let es := [GitCommandError "unable to access git://demo"; ValueError "x"] in
  let w1 := fst (for_each es (record_error 0) (tracked_world scenario_remote [])) in
  snd (for_each es (record_error 0) (tracked_world scenario_remote [])) = Ok tt
  ∧ snd (get_errors 0 w1) = Ok (errors tracked_repository ++ es)
  ∧ snd (get_errors 0 (fst (get_errors 0 w1))) = Ok [].
Proof.
  apply (error_queue_round_trip (tracked_world scenario_remote []) 0%nat
           tracked_repository). reflexivity.
Defined.

(** * Links to commits *)

Lemma format_link_run self commit w r :
  api_ok w → heap w !! self = Some r →
  snd (format_link self commit w)
  = Ok (link_text commit (commit_link r) "" false).
Proof.
  intros Hw Hr. unfold format_link.
  rewrite synchronized_snd by (frame; apply stable_format_link_loop; apply _).
  rewrite bind_run, (self_run self _ r) by exact Hr. cbn [fst snd].
  apply format_link_loop_snd. exact Hw.
Qed.

Lemma link_text_plain commit (pre rest : string) : ∀ result,
  Py.contains "%" pre = false →
  link_text commit (pre +:+ rest) result false
  = link_text commit rest (result +:+ pre) false.
Proof.
  induction pre as [|c pre IH]; intros result H.
  - rewrite string_app_nil_l, string_app_nil_r. reflexivity.
  - cbn [Py.contains] in H. apply orb_false_iff in H as [Hc Hpre].
    apply bool_decide_eq_false in Hc.
    rewrite string_app_cons. cbn [link_text].
    destruct (decide (c = "%"%char)); [done|].
    rewrite IH by exact Hpre. rewrite string_app_assoc. reflexivity.
Qed.

(** In the template of [commit link], [%C] stands for the id of the commit
    and [%c] for its first seven characters; the text around them is
    copied, a [%] at the very end is dropped, and a template with no [%]
    is the link. *)
Theorem format_link_substitutes w self r commit pre post :
  api_ok w → heap w !! self = Some r →
  Py.contains "%" pre = false → Py.contains "%" post = false →
  (commit_link r = pre +:+ "%C" +:+ post →
   snd (format_link self commit w) = Ok (pre +:+ hexsha commit +:+ post))
  ∧ (commit_link r = pre +:+ "%c" +:+ post →
     snd (format_link self commit w)
     = Ok (pre +:+ Py.take 7 (hexsha commit) +:+ post))
  ∧ (commit_link r = pre +:+ "%" →
     snd (format_link self commit w) = Ok pre)
  ∧ (commit_link r = pre →
     snd (format_link self commit w) = Ok pre).
Proof.
  intros Hw Hr Hpre Hpost.
  rewrite (format_link_run self commit w r Hw Hr).
  repeat split; intros ->; f_equal.
  - rewrite link_text_plain by exact Hpre. rewrite string_app_nil_l.
    change ("%C" +:+ post) with (String "%" (String "C" post)).
    cbn [link_text]. rewrite (decide_True (P := "%"%char = "%"%char)) by done.
    rewrite (decide_False (P := "C"%char = "c"%char)) by done.
    rewrite (decide_True (P := "C"%char = "C"%char)) by done.
    rewrite <- (string_app_nil_r post) at 1.
    rewrite link_text_plain by exact Hpost. cbn [link_text].
    apply string_app_assoc.
  - rewrite link_text_plain by exact Hpre. rewrite string_app_nil_l.
    change ("%c" +:+ post) with (String "%" (String "c" post)).
    cbn [link_text]. rewrite (decide_True (P := "%"%char = "%"%char)) by done.
    rewrite (decide_True (P := "c"%char = "c"%char)) by done.
    rewrite <- (string_app_nil_r post) at 1.
    rewrite link_text_plain by exact Hpost. cbn [link_text].
    apply string_app_assoc.
  - rewrite link_text_plain by exact Hpre. rewrite string_app_nil_l.
    reflexivity.
  - rewrite <- (string_app_nil_r pre) at 1.
    rewrite link_text_plain by exact Hpre. rewrite string_app_nil_l.
    reflexivity.
Qed.

Lemma format_link_substitutes_witness :
  let r := demo_repository "%m" in
  let w := demo_world "%m" in
  (commit_link r = "http://demo/" +:+ "%C" +:+ "" →
   snd (format_link 0 demo_commit w)
   = Ok ("http://demo/" +:+ hexsha demo_commit +:+ ""))
  ∧ (commit_link r = "http://demo/" +:+ "%c" +:+ "" →
     snd (format_link 0 demo_commit w)
     = Ok ("http://demo/" +:+ Py.take 7 (hexsha demo_commit) +:+ ""))
  ∧ (commit_link r = "http://demo/" +:+ "%" →
     snd (format_link 0 demo_commit w) = Ok "http://demo/")
  ∧ (commit_link r = "http://demo/" →
     snd (format_link 0 demo_commit w) = Ok "http://demo/").
Proof.
  apply (format_link_substitutes (demo_world "%m") 0%nat (demo_repository "%m")
           demo_commit "http://demo/" "");
    [right; reflexivity | reflexivity | reflexivity | reflexivity].
Defined.

(** * A poll that finds nothing *)

Lemma for_each_skip {A} (l : list A) (body : A → M unit) (w : World) :
  (∀ x, x ∈ l → body x w = (w, Ok tt)) → for_each l body w = (w, Ok tt).
Proof.
  induction l as [|x l IH]; intros H; [reflexivity|].
  cbn [for_each]. unfold bind. rewrite (H x) by left.
  apply IH. intros y Hy. apply H. right. exact Hy.
Qed.

(** When no branch has a new commit, nothing is displayed: the dict of
    [get_new_commits] with an empty list for every branch leaves the
    queues, and the world, as they are, on every target. *)
Theorem nothing_new_is_silent w irc channel repository targets d ctx :
  all_empty d →
  _display_commits irc channel repository (ByBranch d) ctx w = (w, Ok tt)
  ∧ deliver targets repository d w = (w, Ok tt).
Proof.
  intros Hd.
  assert (Hone : ∀ irc channel ctx,
            _display_commits irc channel repository (ByBranch d) ctx w
            = (w, Ok tt)).
  { intros irc' channel' ctx'. unfold _display_commits.
    destruct (falsy (ByBranch d)); [reflexivity|]. cbn [as_dict].
    apply for_each_skip. intros [branch commits] Hin.
    apply elem_of_map_to_list in Hin. apply Hd in Hin as ->. reflexivity. }
  split; [apply Hone|].
  unfold deliver. apply for_each_skip. intros [irc' channel'] _. apply Hone.
Qed.

Lemma nothing_new_is_silent_witness :
  let w := tracked_world scenario_remote two_targets in
  let d : gmap string (list Commit) := {[ "main" := [] ]} in
  _display_commits 0 "#demo" 0 (ByBranch d) "commits" w = (w, Ok tt)
  ∧ deliver [(0%nat, "#demo"); (1%nat, "#demo")] 0 d w = (w, Ok tt).
Proof.
  apply (nothing_new_is_silent (tracked_world scenario_remote two_targets)).
  intros b cs H. apply lookup_singleton_Some in H as [_ <-]. reflexivity.
Defined.

(** * Locks *)

Section ObjectFrames.
Context (R : relation World) `{!PreOrder R, !Synchronizable R}.
Context `{!LogBlind R, !HeapBlind R, !DiskBlind R, !ClockBlind R}.

Lemma stable_git_clone url path : stable R (git_clone url path).
Proof. unfold git_clone. frame. apply stable_origin; apply _. Qed.

Lemma stable_match_branches repo_branches opts : ∀ branches,
  stable R (match_branches repo_branches opts branches).
Proof.
  induction opts as [|opt opts IH]; intros branches; cbn [match_branches];
    frame; try apply IH.
  unfold log_warning. apply stable_log_; apply _.
Qed.

Lemma stable_get_branches option_val p : stable R (get_branches option_val p).
Proof.
  unfold get_branches. frame.
  - apply stable_remotes0_update; apply _.
  - apply stable_match_branches.
  - unfold log_error. apply stable_log_; apply _.
Qed.

Lemma stable_clone self : stable R (clone self).
Proof.
  unfold clone, git_Repo. frame.
  - apply stable_git_clone.
  - apply stable_update_self; apply _.
  - apply stable_get_branches.
  - apply stable_update_self; apply _.
  - apply stable_update_self; apply _.
  - apply stable_update_tracked; apply _.
  - apply stable_repo_commit; apply _.
  - apply stable_update_self; apply _.
  - unfold log_error. apply stable_log_; apply _.
Qed.

Lemma stable_get_recent_commits self branch count :
  stable R (get_recent_commits self branch count).
Proof. unfold get_recent_commits. frame. Qed.

Lemma stable_invoke self m : stable R (invoke self m).
Proof.
  destruct m; cbn [invoke]; frame.
  - apply stable_clone.
  - apply stable_fetch; apply _.
  - apply stable_get_commit; apply _.
  - apply stable_get_commit_id; apply _.
  - apply stable_get_new_commits; apply _.
  - apply stable_get_recent_commits.
  - apply stable_format_link; apply _.
  - apply stable_format_message; apply _.
  - apply stable_record_error; apply _.
  - apply stable_get_errors; apply _.
Qed.

End ObjectFrames.

#[global] Instance lock_kept_preorder l : PreOrder (lock_kept l).
Proof.
  split; unfold lock_kept; [intros w _; reflexivity|].
  intros a b c H1 H2 Ha. rewrite H2, H1; [reflexivity | exact Ha|].
  rewrite H1; assumption.
Qed.
#[global] Instance lock_kept_log_blind l : LogBlind (lock_kept l).
Proof. intros f w _. reflexivity. Qed.
#[global] Instance lock_kept_heap_blind l : HeapBlind (lock_kept l).
Proof. intros f w _. reflexivity. Qed.
#[global] Instance lock_kept_disk_blind l : DiskBlind (lock_kept l).
Proof. intros f w _. reflexivity. Qed.
#[global] Instance lock_kept_clock_blind l : ClockBlind (lock_kept l).
Proof. intros f w _. reflexivity. Qed.
#[global] Instance lock_kept_irc_blind l : IrcBlind (lock_kept l).
Proof. intros f w _. reflexivity. Qed.
#[global] Instance lock_kept_ghost_blind l : GhostBlind (lock_kept l).
Proof. intros f w _. reflexivity. Qed.
#[global] Instance lock_kept_ghost_append l : GhostAppend (lock_kept l).
Proof. intros x w _. reflexivity. Qed.
#[global] Instance lock_kept_schedule_blind l : ScheduleBlind (lock_kept l).
Proof. intros a e w _. reflexivity. Qed.

Lemma lock_of_insert_ne w l self s :
  self ≠ l → lock_of (with_locks <[ self := s ]> w) l = lock_of w l.
Proof. intros H. unfold lock_of. cbn. rewrite lookup_insert_ne by done. reflexivity. Qed.

Lemma lock_of_insert_eq w l s :
  lock_of (with_locks <[ l := s ]> w) l = s.
Proof. unfold lock_of. cbn. rewrite lookup_insert_eq. reflexivity. Qed.

(** Taking a lock, running a body that keeps the locks, giving the lock
    back: the locks are kept. *)
Lemma lock_kept_bracket {A} l self (m : M A) w0 w1 :
  stable (lock_kept l) m →
  lock_of w0 l ≠ Theirs →
  (if decide (self = l) then lock_of w1 l = after_acquire (lock_of w0 l)
   else lock_of w1 l = lock_of w0 l) →
  lock_of (fst (try_finally m (release self) w1)) l = lock_of w0 l.
Proof.
  intros Hm H0 H1. unfold try_finally.
  pose proof (Hm w1) as Hm1. unfold lock_kept in Hm1.
  destruct (m w1) as [w2 r]. cbn [fst] in Hm1.
  assert (H2 : lock_of w2 l = lock_of w1 l).
  { apply Hm1. destruct (decide (self = l)); rewrite H1; [|exact H0].
    destruct (lock_of w0 l); done. }
  assert (H3 : lock_of (fst (release self w2)) l = lock_of w0 l).
  { destruct (decide (self = l)) as [->|Hne].
    - apply lock_after_release; [exact H0 | congruence].
    - unfold release. rewrite bind_run. cbn [gets fst snd].
      destruct (lock_of w2 self) as [|[|n]|]; cbn [modify raise fst];
        rewrite ?lock_of_insert_ne by exact Hne; congruence. }
  destruct (release self w2) as [w3 [[]|e]]; exact H3.
Qed.

#[global] Instance lock_kept_synchronizable l : Synchronizable (lock_kept l).
Proof.
  intros A self m Hm w H0. unfold synchronized. rewrite bind_run.
  assert (Ha : snd (acquire self w) = Ok tt) by reflexivity.
  rewrite Ha. apply (lock_kept_bracket l self m w); [exact Hm | exact H0|].
  unfold acquire. rewrite bind_run. cbn [gets modify fst snd].
  destruct (decide (self = l)) as [->|Hne].
  - rewrite lock_of_insert_eq. destruct (lock_of w l); done.
  - apply lock_of_insert_ne, Hne.
Qed.

(** Whatever method of a [Repository] is called, and whether it returns
    or raises, every lock that another thread does not hold is afterwards
    as it was before the call: [synchronized] gives back what it takes,
    on the exception path too. *)
Theorem methods_give_back_locks w self (m : method) (l : nat) :
  lock_of w l ≠ Theirs →
  lock_of (fst (invoke self m w)) l = lock_of w l.
Proof. intros H. apply (stable_invoke (lock_kept l)), H. Qed.

Lemma methods_give_back_locks_witness :
  lock_of (fst (invoke 0 Fetch (tracked_world unreachable_remote []))) 0
  = lock_of (tracked_world unreachable_remote []) 0.
Proof.
  apply (methods_give_back_locks (tracked_world unreachable_remote []) 0%nat
           Fetch 0%nat).
  vm_compute. discriminate.
Defined.

(** A lock taken without waiting is given back by [finally]. *)
Lemma lock_kept_nonblocking {A} l self (m k : M A) :
  stable (lock_kept l) m → stable (lock_kept l) k →
  stable (lock_kept l)
    (do got ← acquire_nonblocking self;
     if got then try_finally m (release self) else k).
Proof.
  intros Hm Hk w H0. rewrite bind_run.
  destruct (acquire_nonblocking_run self w)
    as [[Hl ->] | (Hl & -> & _)]; cbn [fst snd].
  - apply Hk, H0.
  - apply (lock_kept_bracket l self m w); [exact Hm | exact H0|].
    destruct (decide (self = l)) as [->|Hne].
    + apply lock_after_acquire_nonblocking, Hl.
    + unfold acquire_nonblocking. rewrite bind_run. cbn [gets fst snd].
      destruct (lock_of w self); cbn [bind modify ret fst];
        rewrite ?lock_of_insert_ne by exact Hne; reflexivity.
Qed.

Lemma lock_kept_poll_repository l repository :
  stable (lock_kept l) (poll_repository repository).
Proof.
  unfold poll_repository.
  apply stable_bind; [apply _ | apply stable_self_; apply _ | intros r].
  apply stable_bind; [apply _ | apply stable_gets; apply _ | intros all].
  cbv zeta. destruct (poll_targets all r) as [|t ts].
  - unfold log_info. apply stable_log_; apply _.
  - apply lock_kept_nonblocking.
    + apply stable_poll_try; apply _.
    + apply stable_log_; apply _.
Qed.

Lemma lock_kept_fetch_repository l repository :
  stable (lock_kept l) (GitFetcher.fetch_repository repository).
Proof.
  unfold GitFetcher.fetch_repository. apply lock_kept_nonblocking.
  - frame.
    + apply stable_fetch; apply _.
    + apply stable_record_error; apply _.
  - frame. unfold log_info. apply stable_log_; apply _.
Qed.

Lemma lock_kept_sweep l stop todo :
  stable (lock_kept l) (GitFetcher.sweep stop todo).
Proof.
  induction todo as [|repository rest IH]; cbn [GitFetcher.sweep];
    unfold GitFetcher.shutdown; frame.
  - apply lock_kept_fetch_repository.
  - unfold log_error. apply stable_log_; apply _.
  - exact IH.
Qed.

Lemma lock_kept_run_loop l fuel self stop : ∀ end_time,
  stable (lock_kept l) (GitFetcher.run_loop fuel self stop end_time).
Proof.
  induction fuel as [|fuel IH]; intros end_time; cbn [GitFetcher.run_loop];
    unfold GitFetcher.shutdown, GitFetcher.wait; frame.
  - apply lock_kept_sweep.
  - apply stable_wait_loop; apply _.
  - apply IH.
Qed.

(** The poll cycle and the fetcher thread take the locks of the
    repositories without waiting and give them back in a [finally]:
    after [_poll], and after any number of turns of [run], every lock that
    another thread does not hold is as it was, whatever was raised
    meanwhile. *)
Theorem poll_and_run_give_back_locks w (l : nat) :
  lock_of w l ≠ Theirs →
  lock_of (fst (_poll w)) l = lock_of w l
  ∧ ∀ fuel self stop,
      lock_of (fst (GitFetcher.run fuel self stop w)) l = lock_of w l.
Proof.
  intros H. split.
  - assert (Hs : stable (lock_kept l) _poll); [|apply Hs, H].
    unfold _poll, _schedule_next_event, _stop_polling. frame.
    + apply lock_kept_poll_repository.
    + unfold log_error. apply stable_log_; apply _.
  - intros fuel self stop.
    assert (Hs : stable (lock_kept l) (GitFetcher.run fuel self stop));
      [|apply Hs, H].
    unfold GitFetcher.run. frame. apply lock_kept_run_loop.
Qed.

Lemma poll_and_run_give_back_locks_witness :
  let w := behind_world two_targets in
  lock_of (fst (_poll w)) 0 = lock_of w 0
  ∧ ∀ fuel self stop,
      lock_of (fst (GitFetcher.run fuel self stop w)) 0 = lock_of w 0.
Proof.
  apply (poll_and_run_give_back_locks (behind_world two_targets) 0%nat).
  vm_compute. discriminate.
Defined.

(** * The fetcher thread: waiting and stopping *)

Lemma wait_loop_spec stop end_time : ∀ fuel w,
  end_time - clock w ≤ 100 * (Z.of_nat fuel - 1) →
  let w' := fst (GitFetcher.wait_loop fuel stop end_time w) in
  w' = with_clock (λ _, clock w') w
  ∧ (∃ n : nat, clock w' = clock w + GitFetcher.SHUTDOWN_CHECK_PERIOD * Z.of_nat n)
  ∧ (stop (clock w') = true ∨ end_time ≤ clock w')
  ∧ (clock w' = clock w
     ∨ (clock w' - GitFetcher.SHUTDOWN_CHECK_PERIOD < end_time
        ∧ stop (clock w' - GitFetcher.SHUTDOWN_CHECK_PERIOD) = false)).
Proof.
  unfold GitFetcher.SHUTDOWN_CHECK_PERIOD.
  induction fuel as [|fuel IH]; intros w Hfuel; cbv zeta.
  - cbn [GitFetcher.wait_loop ret fst].
    split; [destruct w; reflexivity|]. split; [exists O; lia|].
    split; [right; lia | left; reflexivity].
  - cbn [GitFetcher.wait_loop]. rewrite bind_run, shutdown_run. cbn [fst snd].
    rewrite bind_run. cbn [gets fst snd].
    destruct (stop (clock w)) eqn:Hstop; cbn [negb andb].
    { cbn [ret fst]. split; [destruct w; reflexivity|]. split; [exists O; lia|].
      split; [left; exact Hstop | left; reflexivity]. }
    destruct (bool_decide_reflect (clock w < end_time)) as [Hlt|Hge]; cycle 1.
    { cbn [ret fst]. split; [destruct w; reflexivity|]. split; [exists O; lia|].
      split; [right; lia | left; reflexivity]. }
    rewrite bind_run. cbn [GitFetcher.sleep modify fst snd].
    change GitFetcher.SHUTDOWN_CHECK_PERIOD with 100.
    set (w1 := with_clock (λ now, now + 100) w).
    destruct (IH w1) as (Hw & (n & Hn) & Hend & Hlast).
    { change (clock w1) with (clock w + 100). lia. }
    change (clock w1) with (clock w + 100) in *.
    set (w' := fst (GitFetcher.wait_loop fuel stop end_time w1)) in *.
    split; [rewrite Hw at 1; reflexivity|].
    split; [exists (S n); lia|]. split; [exact Hend|]. right.
    destruct Hlast as [Heq | Hlast]; [|exact Hlast].
    rewrite Heq. replace (clock w + 100 - 100) with (clock w) by lia.
    split; [exact Hlt | exact Hstop].
Qed.

(** [wait] leaves the loop by its condition: when it returns, [stop()]
    has been called or the end time is reached.  It changes nothing but
    the clock, which it moves by whole check periods, and it sleeps only
    while the thread has not been told to stop and the end time lies
    ahead: it is never late by a full check period. *)
Theorem wait_until_end_time stop end_time w :
  let w' := fst (GitFetcher.wait stop end_time w) in
  snd (GitFetcher.wait stop end_time w) = Ok tt
  ∧ w' = with_clock (λ _, clock w') w
  ∧ (∃ n : nat, clock w' = clock w + GitFetcher.SHUTDOWN_CHECK_PERIOD * Z.of_nat n)
  ∧ (stop (clock w') = true ∨ end_time ≤ clock w')
  ∧ (clock w' = clock w
     ∨ (clock w' - GitFetcher.SHUTDOWN_CHECK_PERIOD < end_time
        ∧ stop (clock w' - GitFetcher.SHUTDOWN_CHECK_PERIOD) = false)).
Proof.
  cbv zeta. unfold GitFetcher.wait. rewrite bind_run. cbn [gets fst snd].
  split; [apply wait_loop_total|].
  apply wait_loop_spec. unfold GitFetcher.SHUTDOWN_CHECK_PERIOD.
  pose proof (Z.div_mod (end_time - clock w) 100 ltac:(lia)) as Hdiv.
  pose proof (Z.mod_pos_bound (end_time - clock w) 100 ltac:(lia)) as Hmod.
  lia.
Qed.

#[global] Instance fetched_since_preorder P : PreOrder (fetched_since P).
Proof.
  split.
  - intros w. exists []. rewrite app_nil_r. split; [reflexivity | constructor].
  - intros a b c (n1 & H1 & P1) (n2 & H2 & P2). exists (n1 ++ n2).
    rewrite H2, H1, app_assoc. split; [reflexivity | apply Forall_app; done].
Qed.
#[global] Instance fetched_since_log_blind P : LogBlind (fetched_since P).
Proof. intros f w. exists []. cbn. rewrite app_nil_r. split; [reflexivity | constructor]. Qed.
#[global] Instance fetched_since_lock_blind P : LockBlind (fetched_since P).
Proof. intros f w. exists []. cbn. rewrite app_nil_r. split; [reflexivity | constructor]. Qed.
#[global] Instance fetched_since_heap_blind P : HeapBlind (fetched_since P).
Proof. intros f w. exists []. cbn. rewrite app_nil_r. split; [reflexivity | constructor]. Qed.
#[global] Instance fetched_since_disk_blind P : DiskBlind (fetched_since P).
Proof. intros f w. exists []. cbn. rewrite app_nil_r. split; [reflexivity | constructor]. Qed.
#[global] Instance fetched_since_clock_blind P : ClockBlind (fetched_since P).
Proof. intros f w. exists []. cbn. rewrite app_nil_r. split; [reflexivity | constructor]. Qed.

(** What a relation tells of a computation, told from where it started. *)
Lemma stable_from R `{!PreOrder R} {A} (m : M A) w :
  stable R m → stable (maintains (R w)) m.
Proof. intros Hm w1 H1. etrans; [exact H1 | apply Hm]. Qed.

Lemma fetch_repository_noted stop self repository w :
  stop (clock w) = false →
  repository ∈ GitFetcher.repository_list self →
  fetched_since (allowed_fetch stop self) w
    (fst (GitFetcher.fetch_repository repository w)).
Proof.
  intros Hstop Hin. set (R := fetched_since (allowed_fetch stop self)).
  unfold GitFetcher.fetch_repository. rewrite bind_run.
  destruct (acquire_nonblocking_run repository w)
    as [[Hl ->] | (Hl & -> & _)]; cbn [fst snd].
  { assert (Hs : stable R
      (do name ← gets (λ w, default "" (long_name <$> heap w !! repository));
       log_info ("Postponing repository fetch: " +:+ name +:+ ": Locked.")));
      [|apply Hs].
    frame. unfold log_info. apply stable_log_; apply _. }
  assert (Hc : clock (fst (acquire_nonblocking repository w)) = clock w)
    by apply (stable_acquire_nonblocking (keeps clock)).
  assert (Hf : fetch_calls (fst (acquire_nonblocking repository w)) = fetch_calls w)
    by apply (stable_acquire_nonblocking (keeps fetch_calls)).
  set (w0 := fst (acquire_nonblocking repository w)) in *. clearbody w0.
  apply (try_finally_reaches (R w));
    [|apply stable_from; [apply _ | apply stable_release; apply _]].
  apply (try_except_reaches (R w));
    [|intros e; apply stable_from; [apply _ | apply stable_record_error; apply _]].
  rewrite bind_run. cbn [gets fst snd].
  apply (bind_reaches (R w));
    [|intros; apply stable_from; [apply _ | apply stable_fetch; apply _]].
  cbn [modify fst]. exists [(clock w0, repository)]. cbn. rewrite Hf.
  split; [reflexivity|]. constructor; [|constructor].
  split; cbn; [rewrite Hc; exact Hstop | exact Hin].
Qed.

Lemma sweep_noted stop self todo :
  todo ⊆ GitFetcher.repository_list self →
  stable (fetched_since (allowed_fetch stop self)) (GitFetcher.sweep stop todo).
Proof.
  set (R := fetched_since (allowed_fetch stop self)).
  induction todo as [|repository rest IH]; intros Hsub w;
    [reflexivity|].
  cbn [GitFetcher.sweep]. rewrite bind_run, shutdown_run. cbn [fst snd].
  destruct (stop (clock w)) eqn:Hstop; [reflexivity|].
  apply (bind_reaches (R w)); cycle 1.
  { intros went. apply stable_from; [apply _|].
    destruct went; [|apply stable_ret; apply _].
    apply IH. intros x Hx. apply Hsub. right. exact Hx. }
  apply (try_except_reaches (R w)); cycle 1.
  { intros e. apply stable_from; [apply _|]. frame.
    unfold log_error. apply stable_log_; apply _. }
  apply (bind_reaches (R w));
    [|intros; apply stable_from; [apply _ | apply stable_ret; apply _]].
  apply fetch_repository_noted; [exact Hstop | apply Hsub; left].
Qed.

Lemma run_loop_noted stop self fuel : ∀ end_time,
  stable (fetched_since (allowed_fetch stop self))
    (GitFetcher.run_loop fuel self stop end_time).
Proof.
  induction fuel as [|fuel IH]; intros end_time; cbn [GitFetcher.run_loop];
    unfold GitFetcher.shutdown, GitFetcher.wait; frame.
  - apply sweep_noted. done.
  - apply stable_wait_loop; apply _.
  - apply IH.
Qed.

(** Once [stop()] has been called the thread starts no fetch: every call
    of [fetch] that [run] makes is on a repository of its list, at a time
    when the thread had not been told to stop. *)
Theorem no_fetch_after_stop fuel self stop w :
  ∃ new,
    fetch_calls (fst (GitFetcher.run fuel self stop w)) = fetch_calls w ++ new
    ∧ Forall (allowed_fetch stop self) new.
Proof.
  assert (Hs : stable (fetched_since (allowed_fetch stop self))
                 (GitFetcher.run fuel self stop)); [|apply Hs].
  unfold GitFetcher.run. frame. apply run_loop_noted.
Qed.

(** A thread told to stop after 30 seconds, with a period of 10: four
    sweeps, none after the stop. *)
Example fetches_until_stop :
  fetch_calls
    (fst (GitFetcher.run 10 (GitFetcher.__init__ [0%nat] 10)
            (λ now, bool_decide (30000 ≤ now))
            (tracked_world scenario_remote [])))
  = [(0, 0%nat); (5580, 0%nat); (16660, 0%nat); (27740, 0%nat)].
Proof. vm_compute. reflexivity. Qed.

(** * The poll cycle goes on *)

(** Frames for the relations that look at the objects: what holds of
    the updates of an object holds of the computations made of them. *)
Section UpdateFrames.
Context (R : relation World) `{!PreOrder R, !Synchronizable R}.
Context `{!LogBlind R, !IrcBlind R, !LockBlind R}.
Hypothesis update_stable : ∀ self f, stable R (update_self self f).

Lemma update_get_errors self : stable R (get_errors self).
Proof. unfold get_errors. frame. apply update_stable. Qed.

Lemma update_record_error self e : stable R (record_error self e).
Proof. unfold record_error. frame. apply update_stable. Qed.

Lemma update_report_errors repository r : stable R (report_errors repository r).
Proof.
  unfold report_errors. frame; [apply update_get_errors|].
  unfold log_error. apply stable_log_; apply _.
Qed.

Lemma update_advance_cursors repository new :
  stable R (advance_cursors repository new).
Proof.
  unfold advance_cursors. frame;
    [apply stable_get_commit; apply _ | apply update_stable].
Qed.

Lemma update_deliver targets repository new :
  stable R (deliver targets repository new).
Proof.
  unfold deliver, _display_commits, _display_some_commits. frame;
    first [apply stable_queueMsg; apply _
          | apply stable_get_commit_id; apply _
          | apply stable_format_message; apply _].
Qed.

Lemma update_poll_try targets repository r :
  stable R (poll_try targets repository r).
Proof.
  unfold poll_try. frame.
  - apply update_report_errors.
  - apply stable_get_new_commits; apply _.
  - apply update_deliver.
  - apply update_advance_cursors.
  - unfold log_error. apply stable_log_; apply _.
Qed.

Lemma update_poll_repository repository :
  stable R (poll_repository repository).
Proof.
  unfold poll_repository. frame.
  - unfold log_info. apply stable_log_; apply _.
  - apply stable_acquire_nonblocking; apply _.
  - apply update_poll_try.
  - apply stable_release; apply _.
  - apply stable_log_; apply _.
Qed.

End UpdateFrames.

Lemma stable_poll_repository R `{!PreOrder R, !Synchronizable R, !LogBlind R,
    !IrcBlind R, !LockBlind R, !HeapBlind R} repository :
  stable R (poll_repository repository).
Proof.
  apply update_poll_repository; try apply _.
  intros self f. apply stable_update_self; apply _.
Qed.

(** The objects stay where they are: no update makes the heap shorter
    or longer. *)
Lemma poll_repository_heap_length repository w :
  length (heap (fst (poll_repository repository w))) = length (heap w).
Proof.
  apply (update_poll_repository (keeps (λ w, length (heap w)))); try apply _.
  intros self f w'. unfold keeps, update_self. cbn. apply length_alter.
Qed.

Lemma poll_repository_total repository w :
  is_Some (heap w !! repository) → snd (poll_repository repository w) = Ok tt.
Proof.
  intros [rep Hrep]. unfold poll_repository.
  rewrite bind_run, (self_run _ _ rep Hrep). cbn [fst snd].
  rewrite bind_run. cbn [gets fst snd].
  destruct (poll_targets (ircs w) rep) as [|t ts]; [reflexivity|].
  rewrite bind_run.
  destruct (acquire_nonblocking_run repository w)
    as [[Hl ->] | (Hl & -> & n & Hn)]; [reflexivity|].
  rewrite (try_finally_release repository _ _ n Hn)
    by (apply stable_poll_try; apply _).
  apply poll_try_total.
Qed.

Lemma poll_all_total (repos : list nat) : ∀ w,
  (∀ r, r ∈ repos → is_Some (heap w !! r)) →
  snd (for_each repos poll_repository w) = Ok tt.
Proof.
  induction repos as [|r repos IH]; intros w Hall; [reflexivity|].
  cbn [for_each]. rewrite bind_run.
  rewrite poll_repository_total by (apply Hall; left).
  apply IH. intros r' Hr'. apply lookup_lt_is_Some.
  rewrite poll_repository_heap_length. apply lookup_lt_is_Some, Hall.
  right. exact Hr'.
Qed.

(** [_poll] ends normally, whatever the repositories raise, and with the
    next poll arranged: with a poll period above zero the fetcher thread
    is alive and [_poll] is scheduled one period after the time of this
    poll; with a period of zero polling is stopped. *)
Theorem poll_schedules_next w :
  (∀ r, r ∈ repository_list w → is_Some (heap w !! r)) →
  let w' := fst (_poll w) in
  snd (_poll w) = Ok tt
  ∧ clock w' = clock w
  ∧ (0 < pollPeriod w →
     fetcher_alive w' = true
     ∧ scheduled w' = Some (clock w + pollPeriod w * 1000))
  ∧ (pollPeriod w ≤ 0 → fetcher_alive w' = false ∧ scheduled w' = None).
Proof.
  intros Hall. cbv zeta. unfold _poll, try_except.
  rewrite bind_run. cbn [gets fst snd]. rewrite bind_run.
  rewrite (poll_all_total _ w Hall).
  assert (Hc : clock (fst (for_each (repository_list w) poll_repository w))
               = clock w).
  { apply (stable_for_each (keeps clock)). intros r.
    apply stable_poll_repository; apply _. }
  assert (Hp : pollPeriod (fst (for_each (repository_list w) poll_repository w))
               = pollPeriod w).
  { apply (stable_for_each (keeps pollPeriod)). intros r.
    apply stable_poll_repository; apply _. }
  set (w1 := fst (for_each (repository_list w) poll_repository w)) in *.
  clearbody w1. unfold _schedule_next_event, _stop_polling.
  rewrite bind_run. cbn [gets fst snd]. rewrite Hp.
  destruct (decide (0 < pollPeriod w)) as [Hpos|Hzero].
  - rewrite bind_run. cbn [gets modify fst snd]. rewrite Hc.
    split; [reflexivity|]. split; [exact Hc|]. split; [done | lia].
  - cbn [modify fst snd].
    split; [reflexivity|]. split; [exact Hc|]. split; [lia | done].
Qed.

Lemma poll_schedules_next_witness :
  let w := behind_world two_targets in
  let w' := fst (_poll w) in
  snd (_poll w) = Ok tt
  ∧ clock w' = clock w
  ∧ (0 < pollPeriod w →
     fetcher_alive w' = true
     ∧ scheduled w' = Some (clock w + pollPeriod w * 1000))
  ∧ (pollPeriod w ≤ 0 → fetcher_alive w' = false ∧ scheduled w' = None).
Proof.
  apply (poll_schedules_next (behind_world two_targets)).
  intros r Hr. cbn in Hr. apply list_elem_of_singleton in Hr as ->.
  eexists. reflexivity.
Defined.

(** * Cloning: where the cursors start *)

Lemma synchronized_ok_inv {A} self (m : M A) w w' a :
  stable (held self) m →
  synchronized self m w = (w', Ok a) →
  ∃ w1, m (fst (acquire self w)) = (w1, Ok a) ∧ w' = fst (release self w1).
Proof.
  intros Hm H.
  pose proof (synchronized_snd self m w Hm) as Hs.
  pose proof (synchronized_fst self m w Hm) as Hf.
  rewrite H in Hs, Hf. cbn [fst snd] in Hs, Hf.
  exists (fst (m (fst (acquire self w)))). split; [|exact Hf].
  apply injective_projections; [reflexivity | symmetry; exact Hs].
Qed.

Lemma update_branch_run p b w g rm :
  disk w !! p = Some g → net w !! origin_url g = Some rm →
  let out := update_branch p b b w in
  net (fst out) = net w ∧ heap (fst out) = heap w
  ∧ match snd out with
    | Ok _ => ∃ sha, remote_heads rm !! b = Some sha
                     ∧ disk (fst out) = <[ p := fetched_branch rm b sha g ]> (disk w)
    | Raise _ => disk (fst out) = disk w
    end.
Proof.
  intros Hg Hrm. cbv zeta. unfold update_branch.
  rewrite bind_run, (mirror_run p w g Hg). cbn [fst snd]. rewrite bind_run.
  unfold origin. rewrite Hrm.
  destruct (reachable rm); cbn [fst snd]; [|done].
  unfold GitModel.update_branch.
  destruct (remote_heads rm !! b) as [sha|]; cbn; [|done].
  destruct (GitModel.is_fast_forward _ _ _); cbn; [|done].
  split; [reflexivity|]. split; [reflexivity|]. exists sha. done.
Qed.

Lemma update_tracked_run p b w g rm :
  disk w !! p = Some g → net w !! origin_url g = Some rm →
  let out := update_tracked p b w in
  net (fst out) = net w ∧ heap (fst out) = heap w
  ∧ match snd out with
    | Ok _ => ∃ sha, remote_heads rm !! b = Some sha
                     ∧ disk (fst out) = <[ p := fetched_branch rm b sha g ]> (disk w)
    | Raise _ => disk (fst out) = disk w
    end.
Proof.
  intros Hg Hrm. cbv zeta. unfold update_tracked, repo_active_branch.
  rewrite bind_run, bind_run, (mirror_run p w g Hg). cbn [ret fst snd].
  destruct (decide (active_branch g = b)) as [Ha|Ha].
  - unfold remote_pull. rewrite bind_run, (mirror_run p w g Hg).
    cbn [fst snd]. rewrite Ha. apply update_branch_run; assumption.
  - apply update_branch_run; assumption.
Qed.

Lemma repo_commit_run p rev w g :
  disk w !! p = Some g →
  fst (repo_commit p rev w) = w
  ∧ match snd (repo_commit p rev w) with
    | Ok c => GitModel.lookup_commit g rev = Some c
    | Raise _ => GitModel.lookup_commit g rev = None
    end.
Proof.
  intros Hg. unfold repo_commit.
  rewrite bind_run, (mirror_run p w g Hg). cbn [fst snd].
  rewrite bind_run. cbn [gets fst snd].
  destruct (GitModel.lookup_commit g rev) as [c|]; [done|].
  destruct (decide (GIT_API_VERSION w = 1)); done.
Qed.

Lemma lookup_commit_ext_at g g' rev :
  heads g' !! rev = heads g !! rev → objects g' = objects g →
  GitModel.lookup_commit g' rev = GitModel.lookup_commit g rev.
Proof.
  intros Hh Ho. unfold GitModel.lookup_commit, GitModel.rev_parse.
  rewrite Hh, Ho. reflexivity.
Qed.

(** Bringing a branch to the head it has leaves every name as resolved. *)
Lemma lookup_commit_fetched rm b sha g rev :
  remote_objects rm ⊆ objects g →
  (rev = b → heads g !! b = Some sha) →
  GitModel.lookup_commit (fetched_branch rm b sha g) rev
  = GitModel.lookup_commit g rev.
Proof.
  intros Hobj Hsame. apply lookup_commit_ext_at; cbn.
  - destruct (decide (rev = b)) as [->|Hne].
    + rewrite lookup_insert_eq. symmetry. apply Hsame. reflexivity.
    + apply lookup_insert_ne. congruence.
  - apply map_subseteq_union, Hobj.
Qed.

Lemma cursors_at_heads_frame self p w w' :
  heap w' = heap w → disk w' = disk w → net w' = net w →
  cursors_at_heads self p w → cursors_at_heads self p w'.
Proof. unfold cursors_at_heads. intros -> -> ->. done. Qed.

(** One turn of the loop of [clone]: the cursors stay at the heads. *)
Lemma clone_step self p bs branch w :
  branch ∈ bs →
  cursors_at_heads self p w
  ∧ (∀ rep, heap w !! self = Some rep → branches rep = bs) →
  let w' :=
    fst (try_except
           (update_tracked p branch ;;
            do c ← repo_commit p branch;
            update_self self (with_commit_by_branch <[ branch := Some c ]>))
           (λ _, log_error ("Cannot checkout repo branch: " +:+ branch)) w) in
  cursors_at_heads self p w'
  ∧ (∀ rep, heap w' !! self = Some rep → branches rep = bs).
Proof.
  intros Hin [(rep & g & rm & Hrep & Hp & Hg & Hrm & Hobj & Hcur) Hbs]. cbv zeta.
  pose proof (Hbs rep Hrep) as Hb.
  unfold try_except. rewrite bind_run.
  destruct (update_tracked_run p branch w g rm Hg Hrm) as (Hnet1 & Hheap1 & Hout).
  set (w1 := fst (update_tracked p branch w)) in *.
  destruct (snd (update_tracked p branch w)) as [[]|e]; cycle 1.
  { (* the update raised: nothing has moved *)
    cbn [log_error log_ modify fst]. split.
    - exists rep, g, rm. cbn. rewrite Hheap1, Hout, Hnet1. done.
    - intros rep'. cbn. rewrite Hheap1. apply Hbs. }
  destruct Hout as (sha & Hsha & Hdisk1).
  set (g1 := fetched_branch rm branch sha g) in *.
  assert (Hg1 : disk w1 !! p = Some g1)
    by (rewrite Hdisk1, lookup_insert_eq; reflexivity).
  assert (Hcur1 : ∀ b c, commit_by_branch rep !! b = Some c →
            b ∈ branches rep ∧ is_Some c ∧ c = GitModel.lookup_commit g1 b
            ∧ heads g1 !! b = remote_heads rm !! b).
  { intros b c Hc. destruct (Hcur b c Hc) as (Hin' & Hsome & Hlook & Hhead).
    split; [exact Hin'|]. split; [exact Hsome|]. split.
    - unfold g1. rewrite lookup_commit_fetched; [exact Hlook | exact Hobj|].
      intros ->. rewrite Hhead. exact Hsha.
    - unfold g1. cbn. destruct (decide (b = branch)) as [->|Hne].
      + rewrite lookup_insert_eq. symmetry. exact Hsha.
      + rewrite lookup_insert_ne by congruence. exact Hhead. }
  assert (Hobj1 : remote_objects rm ⊆ objects g1)
    by (unfold g1; cbn; apply map_union_subseteq_l).
  rewrite bind_run.
  destruct (repo_commit_run p branch w1 g1 Hg1) as [Hw2 Hc].
  rewrite Hw2.
  destruct (snd (repo_commit p branch w1)) as [c|e]; cycle 1.
  { cbn [log_error log_ modify fst]. split.
    - exists rep, g1, rm. cbn. rewrite Hheap1, Hnet1. done.
    - intros rep'. cbn. rewrite Hheap1. apply Hbs. }
  cbn [update_self modify fst]. split.
  - exists (with_commit_by_branch <[ branch := Some c ]> rep), g1, rm.
    cbn. rewrite Hheap1, list_lookup_alter_eq, Hrep, Hnet1.
    split; [reflexivity|]. split; [exact Hp|]. split; [exact Hg1|].
    split; [exact Hrm|]. split; [exact Hobj1|].
    intros b c' Hc'. destruct (decide (b = branch)) as [->|Hne].
    + rewrite lookup_insert_eq in Hc'. injection Hc' as <-.
      split; [rewrite Hb; exact Hin|]. split; [eauto|].
      split; [symmetry; exact Hc|].
      unfold g1. cbn. rewrite lookup_insert_eq. symmetry. exact Hsha.
    + rewrite lookup_insert_ne in Hc' by congruence. apply Hcur1, Hc'.
  - intros rep'. cbn. rewrite Hheap1, list_lookup_alter_eq, Hrep. cbn.
    intros [= <-]. exact Hb.
Qed.

Lemma remotes0_update_ok_inv p w w' :
  remotes0_update p w = (w', Ok tt) →
  ∃ g rm, disk w !! p = Some g ∧ net w !! origin_url g = Some rm
          ∧ disk w' = <[ p := GitModel.remote_update rm g ]> (disk w).
Proof.
  unfold remotes0_update. intros H.
  apply bind_ok_inv in H as (g & w1 & Hm & H).
  unfold mirror in Hm. destruct (disk w !! p) as [g0|] eqn:Hg; [|discriminate].
  injection Hm as <- <-.
  apply bind_ok_inv in H as (rm & w2 & Ho & H).
  unfold origin in Ho. destruct (net w !! origin_url g0) as [rm0|] eqn:Hrm;
    [|discriminate].
  destruct (reachable rm0); [|discriminate]. injection Ho as <- <-.
  injection H as <-. exists g0, rm0. done.
Qed.

Lemma get_branches_ok_facts option_val p w w' bs :
  get_branches option_val p w = (w', Ok bs) →
  heap w' = heap w ∧ net w' = net w
  ∧ ∃ g rm, disk w' !! p = Some g ∧ net w !! origin_url g = Some rm
            ∧ remote_objects rm ⊆ objects g.
Proof.
  intros H.
  assert (Hw' : w' = fst (get_branches option_val p w)) by (rewrite H; done).
  split; [rewrite Hw'; apply (stable_get_branches (keeps heap))|].
  split; [rewrite Hw'; apply (stable_get_branches (keeps net))|].
  clear Hw'. unfold get_branches in H.
  apply bind_ok_inv in H as (words & w1 & Hsplit & H).
  assert (w1 = w) as ->.
  { unfold pyval_split, ret, raise in Hsplit.
    destruct option_val; [|discriminate..]. congruence. }
  apply bind_ok_inv in H as ([] & w2 & Hup & H).
  apply remotes0_update_ok_inv in Hup as (g & rm & Hg & Hrm & Hdisk2).
  exists (GitModel.remote_update rm g), rm.
  split; [|split; [exact Hrm | cbn; apply map_union_subseteq_l]].
  lazymatch type of H with
  | ?m w2 = _ =>
      set (rest := m) in H;
      assert (Hkeep : disk (fst (rest w2)) = disk w2)
  end.
  { assert (Hs : stable (keeps disk) rest); [|apply Hs].
    unfold rest. frame. all: try (apply stable_match_branches; apply _).
    all: try (unfold log_error; apply stable_log_; apply _). }
  rewrite H in Hkeep. cbn [fst] in Hkeep.
  rewrite Hkeep, Hdisk2, lookup_insert_eq. reflexivity.
Qed.

(** What [clone] leaves when it returns: the object tracks the mirror at
    its path, and each cursor that has been set is the head of its branch
    in the mirror. *)
Lemma clone_reaches_heads w self rep w' :
  heap w !! self = Some rep →
  clone self w = (w', Ok tt) →
  cursors_at_heads self (path rep) w'.
Proof.
  intros Hrep H. unfold clone in H.
  lazymatch type of H with
  | synchronized _ ?m _ = _ => assert (Hm : stable (held self) m)
  end.
  { unfold git_Repo. frame;
      first [apply stable_git_clone | apply stable_update_self
            | apply stable_get_branches | apply stable_update_tracked
            | apply stable_repo_commit
            | unfold log_error; apply stable_log_]; apply _. }
  apply synchronized_ok_inv in H as (wb & H & ->); [|exact Hm]. clear Hm.
  eapply cursors_at_heads_frame;
    [apply (stable_release (keeps heap)) | apply (stable_release (keeps disk))
    |apply (stable_release (keeps net)) |].
  assert (Hrepa : heap (fst (acquire self w)) !! self = Some rep) by exact Hrep.
  set (wa := fst (acquire self w)) in *. clearbody wa.
  apply bind_ok_inv in H as (r & w1 & Hself & H).
  rewrite (self_run self wa rep Hrepa) in Hself. injection Hself as <- <-.
  apply bind_ok_inv in H as (present & w1 & Hpres & H).
  injection Hpres as <- <-.
  apply bind_ok_inv in H as ([] & w2 & Hwhen & H).
  assert (Hheap2 : heap w2 = heap wa).
  { replace w2 with (fst (when (negb (bool_decide (is_Some (disk wa !! path rep))))
                            (git_clone (url rep) (path rep)) wa))
      by (rewrite Hwhen; reflexivity).
    apply (stable_when (keeps heap)), (stable_git_clone (keeps heap)). }
  clear Hwhen.
  apply bind_ok_inv in H as (h & w3 & Hrepo & H).
  unfold git_Repo in Hrepo. apply bind_ok_inv in Hrepo as (g0 & w3' & Hg0 & Hret).
  injection Hret as <- <-.
  unfold mirror in Hg0. destruct (disk w2 !! path rep) as [g0'|]; [|discriminate].
  injection Hg0 as <- <-.
  apply bind_ok_inv in H as ([] & w4 & Hup1 & H).
  injection Hup1 as <-.
  apply bind_ok_inv in H as (bs & w5 & Hbs & H).
  apply get_branches_ok_facts in Hbs as (Hheap5 & Hnet5 & g & rm & Hg & Hrm & Hobj).
  apply bind_ok_inv in H as ([] & w6 & Hup2 & H). injection Hup2 as <-.
  apply bind_ok_inv in H as ([] & w7 & Hup3 & H). injection Hup3 as <-.
  replace wb with (fst (for_each bs (λ branch,
      try_except
        (update_tracked (path rep) branch ;;
         do c ← repo_commit (path rep) branch;
         update_self self (with_commit_by_branch <[ branch := Some c ]>))
        (λ _, log_error ("Cannot checkout repo branch: " +:+ branch)))
      (with_heap (alter (with_commit_by_branch (λ _, ∅)) self)
         (with_heap (alter (with_branches bs) self) w5))))
    by (rewrite H; reflexivity).
  clear H.
  set (I := λ w, cursors_at_heads self (path rep) w
                 ∧ ∀ rep', heap w !! self = Some rep' → branches rep' = bs).
  assert (HI : I (fst (for_each bs (λ branch,
      try_except
        (update_tracked (path rep) branch ;;
         do c ← repo_commit (path rep) branch;
         update_self self (with_commit_by_branch <[ branch := Some c ]>))
        (λ _, log_error ("Cannot checkout repo branch: " +:+ branch)))
      (with_heap (alter (with_commit_by_branch (λ _, ∅)) self)
         (with_heap (alter (with_branches bs) self) w5)))));
    [|apply HI].
  apply for_each_maintains.
  - intros branch w0 Hin HI. apply (clone_step self (path rep) bs branch w0 Hin HI).
  - unfold I. split.
    + exists (with_commit_by_branch (λ _, ∅)
                (with_branches bs (with_repo (Some (path rep)) rep))), g, rm.
      cbn. rewrite !list_lookup_alter_eq, Hheap5. cbn.
      rewrite list_lookup_alter_eq, Hheap2, Hrepa. cbn.
      split; [reflexivity|]. split; [reflexivity|]. split; [exact Hg|].
      split; [rewrite Hnet5; exact Hrm|]. split; [exact Hobj|].
      intros b c Hc. rewrite lookup_empty in Hc. discriminate.
    + intros rep'. cbn. rewrite !list_lookup_alter_eq, Hheap5. cbn.
      rewrite list_lookup_alter_eq, Hheap2, Hrepa. cbn. intros [= <-].
      reflexivity.
Qed.

(** When [clone] returns, the object tracks the mirror at its path and
    every cursor that has been set is of a tracked branch and is the head
    of that branch in the mirror; so the next [get_new_commits], with the
    mirror as [clone] left it, reports no commit: a repository that has
    just been set up announces nothing of its history. *)
Theorem clone_sets_cursors_at_heads w self rep w' :
  heap w !! self = Some rep →
  clone self w = (w', Ok tt) →
  ∃ rep' g,
    heap w' !! self = Some rep'
    ∧ repo rep' = Some (path rep)
    ∧ disk w' !! path rep = Some g
    ∧ (∀ b c, commit_by_branch rep' !! b = Some c →
         b ∈ branches rep' ∧ is_Some c ∧ c = GitModel.lookup_commit g b)
    ∧ (api_ok w →
       ∃ r, snd (get_new_commits self w') = Ok r
            ∧ all_empty r
            ∧ ∀ b, is_Some (commit_by_branch rep' !! b) → is_Some (r !! b)).
Proof.
  intros Hrep H.
  destruct (clone_reaches_heads w self rep w' Hrep H)
    as (rep' & g & rm & Hrep' & Hp & Hg & Hrm & Hobj & Hcur).
  exists rep', g. split; [exact Hrep'|]. split; [exact Hp|]. split; [exact Hg|].
  split; [intros b c Hc; destruct (Hcur b c Hc) as (? & ? & ? & _); done|].
  intros Hapi.
  assert (Hapi' : api_ok w').
  { replace w' with (fst (clone self w)) by (rewrite H; reflexivity).
    apply api_ok_stable; [apply stable_clone; apply _ | exact Hapi]. }
  rewrite (get_new_commits_snd self w' rep' Hrep'), Hp.
  pose proof (new_commits_loop_at_head (path rep) g
                (map_to_list (commit_by_branch rep')) ∅
                (fst (acquire self w'))) as Hhead.
  destruct (snd (new_commits_loop _ _ _ _)) as [r|e].
  - destruct Hhead as [Hempty Hsome].
    + exact Hg.
    + apply Forall_forall. intros [b c] Hin. cbn [fst snd].
      apply elem_of_map_to_list in Hin.
      destruct (Hcur b c Hin) as (_ & ? & ? & _). done.
    + intros ? ?. rewrite lookup_empty. discriminate.
    + exists r. split; [reflexivity|]. split; [exact Hempty|].
      intros b Hb. apply Hsome. left. apply keys_dom, elem_of_dom, Hb.
  - exfalso. apply Hhead.
    + exact Hg.
    + apply Forall_forall. intros [b c] Hin. cbn [fst snd].
      apply elem_of_map_to_list in Hin.
      destruct (Hcur b c Hin) as (_ & ? & ? & _). done.
    + intros ? ?. rewrite lookup_empty. discriminate.
    + exact Hapi'.
Qed.

Lemma clone_sets_cursors_at_heads_witness :
  let w := with_heap (λ _, [with_repo None (tracked_at commit_b2)])
             (tracked_world scenario_remote []) in
  ∃ rep' g,
    heap (fst (clone 0 w)) !! 0%nat = Some rep'
    ∧ repo rep' = Some (path (with_repo None (tracked_at commit_b2)))
    ∧ disk (fst (clone 0 w)) !! path (with_repo None (tracked_at commit_b2)) = Some g
    ∧ (∀ b c, commit_by_branch rep' !! b = Some c →
         b ∈ branches rep' ∧ is_Some c ∧ c = GitModel.lookup_commit g b)
    ∧ (api_ok w →
       ∃ r, snd (get_new_commits 0 (fst (clone 0 w))) = Ok r
            ∧ all_empty r
            ∧ ∀ b, is_Some (commit_by_branch rep' !! b) → is_Some (r !! b)).
Proof.
  apply (clone_sets_cursors_at_heads
           (with_heap (λ _, [with_repo None (tracked_at commit_b2)])
              (tracked_world scenario_remote []))
           0%nat (with_repo None (tracked_at commit_b2))).
  - reflexivity.
  - vm_compute. reflexivity.
Defined.

(** The clone of the scenario: the cursor, which a stale object had one
    commit behind, is set to the head of main. *)
Example clone_in_the_scenario :
  let w := with_heap (λ _, [with_repo None (tracked_at commit_b2)])
             (tracked_world scenario_remote []) in
  (commit_by_branch <$> heap (fst (clone 0 w)) !! 0%nat)
  = Some {[ "main" := Some commit_c3 ]}
  ∧ snd (get_new_commits 0 (fst (clone 0 w))) = Ok {[ "main" := [] ]}.
Proof. vm_compute. split; reflexivity. Qed.

(** * Fetching: what a fetch that returns has done *)




(** * The poll cycle: who is told *)

#[global] Instance queued_only_preorder P : PreOrder (queued_only P).
Proof.
  split.
  - intros w i irc Hi. exists irc, []. rewrite app_nil_r.
    split; [exact Hi|]. split; [reflexivity|]. split; [reflexivity | constructor].
  - intros a b c Hab Hbc i irc'' Hi.
    destruct (Hbc i irc'' Hi) as (irc' & n2 & Hi' & Hs2 & Ho2 & P2).
    destruct (Hab i irc' Hi') as (irc & n1 & Hi0 & Hs1 & Ho1 & P1).
    exists irc, (n1 ++ n2). split; [exact Hi0|]. split; [congruence|].
    split; [rewrite Ho2, Ho1, app_assoc; reflexivity | apply Forall_app; done].
Qed.

Lemma queued_only_same P w w' : ircs w' = ircs w → queued_only P w w'.
Proof.
  intros H i irc Hi. rewrite H in Hi. exists irc, []. rewrite app_nil_r.
  split; [exact Hi|]. split; [reflexivity|]. split; [reflexivity | constructor].
Qed.

#[global] Instance queued_only_log_blind P : LogBlind (queued_only P).
Proof. intros f w. apply queued_only_same. reflexivity. Qed.
#[global] Instance queued_only_lock_blind P : LockBlind (queued_only P).
Proof. intros f w. apply queued_only_same. reflexivity. Qed.
#[global] Instance queued_only_heap_blind P : HeapBlind (queued_only P).
Proof. intros f w. apply queued_only_same. reflexivity. Qed.

Lemma queued_only_queueMsg (P : nat → string → Prop) irc channel text :
  P irc channel → stable (queued_only P) (queueMsg irc channel text).
Proof.
  intros HP w. unfold queueMsg.
  destruct (ircs w !! irc) as [i0|] eqn:Hirc; [|reflexivity].
  destruct (refuses i0); [reflexivity|]. cbn [fst].
  intros j irc' Hj. cbn in Hj.
  destruct (decide (j = irc)) as [->|Hne].
  - rewrite list_lookup_alter_eq, Hirc in Hj. injection Hj as <-.
    exists i0, [(channel, text)]. cbn.
    split; [exact Hirc|]. split; [reflexivity|]. split; [reflexivity|].
    constructor; [exact HP | constructor].
  - rewrite list_lookup_alter_ne in Hj by congruence.
    exists irc', []. rewrite app_nil_r.
    split; [exact Hj|]. split; [reflexivity|]. split; [reflexivity | constructor].
Qed.

Lemma stable_for_each_in R `{!PreOrder R} {A} (l : list A) body :
  (∀ x, x ∈ l → stable R (body x)) → stable R (for_each l body).
Proof.
  induction l as [|x l IH]; intros H; cbn [for_each];
    [apply stable_ret; apply _|].
  apply stable_bind; [apply _ | apply H; left | intros _].
  apply IH. intros y Hy. apply H. right. exact Hy.
Qed.

Section Telling.
Context (R : relation World) `{!PreOrder R, !Synchronizable R}.
Context `{!LogBlind R, !HeapBlind R, !LockBlind R}.

Lemma told__display_commits irc channel repository arg ctx :
  (∀ text, stable R (queueMsg irc channel text)) →
  stable R (_display_commits irc channel repository arg ctx).
Proof.
  intros Hq. unfold _display_commits, _display_some_commits. frame;
    first [apply Hq
          | apply stable_get_commit_id; apply _
          | apply stable_format_message; apply _].
Qed.

Lemma told_poll_try targets repository r :
  (∀ irc channel text, (irc, channel) ∈ targets →
     stable R (queueMsg irc channel text)) →
  stable R (poll_try targets repository r).
Proof.
  intros Hq. unfold poll_try. frame.
  - unfold report_errors. frame; [apply stable_get_errors; apply _|].
    unfold log_error. apply stable_log_; apply _.
  - apply stable_get_new_commits; apply _.
  - unfold deliver. apply stable_for_each_in; [apply _|].
    intros [irc channel] Hin. apply told__display_commits.
    intros text. apply Hq, Hin.
  - apply stable_advance_cursors; apply _.
  - unfold log_error. apply stable_log_; apply _.
Qed.

End Telling.

Lemma poll_targets_notified all r i channel :
  (i, channel) ∈ poll_targets all r → notified all r i channel.
Proof.
  unfold poll_targets. intros H.
  apply list_elem_of_join in H as (l & Hin & Hl).
  apply elem_of_lookup_imap in Hl as (j & irc & -> & Hj).
  apply list_elem_of_fmap in Hin as (ch & [= -> ->] & Hch).
  apply list_elem_of_In, filter_In in Hch as [Hch Hjoined].
  apply list_elem_of_In in Hch. apply bool_decide_eq_true in Hjoined.
  split; [exact Hch|]. exists irc. done.
Qed.

(** What the poll of a repository puts in the queues goes to the channels
    configured for that repository, on the connections that are in them;
    the other queues are left as they were. *)
Theorem poll_tells_configured_channels w repository rep :
  heap w !! repository = Some rep →
  ∀ i irc', ircs (fst (poll_repository repository w)) !! i = Some irc' →
    ∃ irc new,
      ircs w !! i = Some irc
      ∧ outbox irc' = outbox irc ++ new
      ∧ Forall (λ m, m.1 ∈ channels rep ∧ m.1 ∈ state_channels irc) new.
Proof.
  intros Hrep.
  set (R := queued_only (notified (ircs w) rep)).
  assert (HR : R w (fst (poll_repository repository w))).
  { unfold poll_repository.
    rewrite bind_run, (self_run _ _ rep Hrep). cbn [fst snd].
    rewrite bind_run. cbn [gets fst snd].
    pose proof (poll_targets_notified (ircs w) rep) as Hnot.
    destruct (poll_targets (ircs w) rep) as [|t ts].
    - apply queued_only_same. reflexivity.
    - set (targets := t :: ts) in *.
      lazymatch goal with
      | |- R w (fst (?m w)) => assert (Hs : stable R m); [|apply Hs]
      end.
      frame.
      + apply stable_acquire_nonblocking; apply _.
      + apply told_poll_try; try apply _.
        intros irc channel text Hin. apply queued_only_queueMsg, Hnot, Hin.
      + apply stable_release; apply _.
      + apply stable_log_; apply _. }
  intros i irc' Hi. destruct (HR i irc' Hi) as (irc & new & Hirc & _ & Hout & Hall).
  exists irc, new. split; [exact Hirc|]. split; [exact Hout|].
  eapply Forall_impl; [exact Hall|]. intros m [Hch (irc0 & Hirc0 & Hjoined)].
  split; [exact Hch|]. cbn in Hirc0. congruence.
Qed.

Lemma poll_tells_configured_channels_witness :
  let w := behind_world [mkIrc ["#demo"] [] None; mkIrc ["#other"] [] None] in
  heap w !! 0%nat = Some (tracked_at commit_b2)
  ∧ ∀ i irc', ircs (fst (poll_repository 0 w)) !! i = Some irc' →
      ∃ irc new,
        ircs w !! i = Some irc
        ∧ outbox irc' = outbox irc ++ new
        ∧ Forall (λ m, m.1 ∈ channels (tracked_at commit_b2)
                       ∧ m.1 ∈ state_channels irc) new.
Proof.
  split; [reflexivity|].
  apply (poll_tells_configured_channels
           (behind_world [mkIrc ["#demo"] [] None; mkIrc ["#other"] [] None])
           0%nat (tracked_at commit_b2)).
  reflexivity.
Defined.

(** * Reading the configuration *)

Section InitFrames.
Context (R : relation World) `{!PreOrder R, !Synchronizable R}.
Context `{!LogBlind R, !HeapBlind R, !LockBlind R, !DiskBlind R, !ClockBlind R}.

Lemma stable___init__ repo_dir long_name options :
  stable R (__init__ repo_dir long_name options).
Proof. unfold __init__. frame. apply stable_clone; apply _. Qed.

End InitFrames.

Ltac config_frame :=
  unfold Git._read_config, registryValue, lift; frame;
  first [ apply stable___init__; apply _
        | intros ?; reflexivity ].

Lemma read_config_keeps_schedule conf files :
  stable (keeps (λ w, (fetcher_alive w, scheduled w)))
    (Git._read_config conf files).
Proof. config_frame. Qed.

Lemma read_config_keeps_period conf files :
  stable (keeps pollPeriod) (Git._read_config conf files).
Proof. config_frame. Qed.

(** * Commands *)

Lemma plural_repository (n : nat) :
  plural (Z.of_nat n) "repository" None
  = Ok (if decide (n = 1%nat) then "repository" else "repositories").
Proof.
  unfold plural. destruct (decide (n = 1%nat)) as [->|Hn]; [reflexivity|].
  rewrite decide_False by lia. reflexivity.
Qed.

(** [rehash] stops polling, reads the configuration and answers.  When
    the configuration cannot be read, all it does after that is to answer
    with the warning: the fetcher is not started again and no poll is
    scheduled.  When it can, polling is arranged again and the answer
    tells the number of repositories; should that answer raise, the
    warning follows. *)
Theorem rehash_outcome conf files reply w :
  let read := Git._read_config conf files (fst (_stop_polling w)) in
  match snd read with
  | Raise e =>
      Git.rehash conf files reply w = reply ("Warning: " +:+ exn_str e) (fst read)
      ∧ fetcher_alive (fst read) = false
      ∧ scheduled (fst read) = None
  | Ok _ =>
      let said :=
        reply (reinitialized (length (repository_list (fst read))))
          (fst (_schedule_next_event (fst read))) in
      Git.rehash conf files reply w
      = match snd said with
        | Ok _ => said
        | Raise e => reply ("Warning: " +:+ exn_str e) (fst said)
        end
  end.
Proof.
  cbv zeta. unfold Git.rehash. rewrite bind_run. cbn [_stop_polling modify fst snd].
  set (w0 := with_schedule false None w).
  unfold try_except. rewrite bind_run.
  pose proof (read_config_keeps_schedule conf files w0) as Hkeep.
  unfold keeps in Hkeep. cbv beta in Hkeep. injection Hkeep as Halive Hsched.
  destruct (Git._read_config conf files w0) as [w1 [[]|e]] eqn:Hread;
    cbn [fst snd] in *; cycle 1.
  { split; [reflexivity|]. rewrite Halive, Hsched. split; reflexivity. }
  rewrite bind_run.
  assert (Hok : snd (_schedule_next_event w1) = Ok tt).
  { unfold _schedule_next_event, _stop_polling. rewrite bind_run.
    cbn [gets fst snd]. destruct (decide (0 < pollPeriod w1)); reflexivity. }
  rewrite Hok. rewrite bind_run. cbn [gets fst snd].
  assert (Hlist : repository_list (fst (_schedule_next_event w1))
                  = repository_list w1).
  { unfold _schedule_next_event, _stop_polling. rewrite bind_run.
    cbn [gets fst snd]. destruct (decide (0 < pollPeriod w1)); reflexivity. }
  rewrite Hlist. rewrite bind_run, plural_repository. cbn [lift fst snd].
  fold (reinitialized (length (repository_list w1))).
  destruct (reply _ _) as [w3 [[]|e]]; reflexivity.
Qed.

(** A rehash with no readable file, in a world where polling was on: the
    warning is the answer and polling is off. *)
Example rehash_without_file :
  let w := with_schedule true (Some 120000) (tracked_world scenario_remote
             [mkIrc ["#demo"] [] None]) in
  let w' := fst (Git.rehash demo_settings ∅ answering w) in
  outbox <$> ircs w'
  = [[("#demo", "Warning: Cannot access configuration file: git.ini")]]
  ∧ fetcher_alive w' = false ∧ scheduled w' = None
  ∧ repository_list w' = [].
Proof. vm_compute. repeat split. Qed.

(** [Git(irc)] does not fail on the configuration: once GitPython is
    found, a configuration that cannot be read is answered or logged as a
    warning, and polling is arranged all the same, by the period. *)
Theorem plugin_start_arranges_polling installed conf files reply w :
  snd (Git.init_git_python installed w) = Ok tt →
  (∀ r, reply = Some r → ∀ s w0, snd (r s w0) = Ok tt) →
  let w' := fst (Git.__init__ installed conf files reply w) in
  snd (Git.__init__ installed conf files reply w) = Ok tt
  ∧ (0 < pollPeriod w' →
     fetcher_alive w' = true
     ∧ scheduled w' = Some (clock w' + pollPeriod w' * 1000))
  ∧ (pollPeriod w' ≤ 0 → fetcher_alive w' = false ∧ scheduled w' = None).
Proof.
  intros Hinit Hreply. cbv zeta. unfold Git.__init__.
  rewrite bind_run, Hinit. rewrite bind_run. cbn [_stop_polling modify fst snd].
  set (w0 := with_schedule false None _). rewrite bind_run.
  lazymatch goal with
  | |- context [snd (?t w0)] => assert (Hok : ∃ w1, t w0 = (w1, Ok tt))
  end.
  { unfold try_except.
    destruct (Git._read_config conf files w0) as [w1 [[]|e]]; [eauto|].
    destruct reply as [r|].
    - specialize (Hreply r eq_refl ("Warning: " +:+ exn_str e) w1).
      destruct (r _ w1) as [w2 [[]|e2]]; [eauto | discriminate].
    - eexists. reflexivity. }
  destruct Hok as [w1 ->]. cbn [fst snd].
  unfold _schedule_next_event, _stop_polling. rewrite bind_run.
  cbn [gets fst snd].
  destruct (decide (0 < pollPeriod w1)) as [Hpos|Hzero].
  - rewrite bind_run. cbn [gets modify fst snd].
    split; [reflexivity|]. split; [done|].
    unfold with_schedule. cbn [pollPeriod]. lia.
  - cbn [modify fst snd]. split; [reflexivity|].
    unfold with_schedule. cbn [pollPeriod]. split; [lia | done].
Qed.

Lemma plugin_start_arranges_polling_witness :
  let w' := fst (Git.__init__ (Some "0.3.2") demo_settings ∅ None bare_world) in
  snd (Git.__init__ (Some "0.3.2") demo_settings ∅ None bare_world) = Ok tt
  ∧ (0 < pollPeriod w' →
     fetcher_alive w' = true
     ∧ scheduled w' = Some (clock w' + pollPeriod w' * 1000))
  ∧ (pollPeriod w' ≤ 0 → fetcher_alive w' = false ∧ scheduled w' = None).
Proof.
  apply (plugin_start_arranges_polling (Some "0.3.2") demo_settings ∅ None
           bare_world).
  - reflexivity.
  - intros r Hr. discriminate Hr.
Defined.

(** The start of the bot with no configuration file: the warning is in
    the log and the first poll is scheduled. *)
Example plugin_start_without_file :
  let w' := fst (Git.__init__ (Some "0.3.2") demo_settings ∅ None bare_world) in
  logged w' = [(WARNING, "Git: Cannot access configuration file: git.ini")]
  ∧ fetcher_alive w' = true ∧ scheduled w' = Some 120000.
Proof. vm_compute. repeat split. Qed.

Lemma mapM_reads {A B} (f : A → M B) (l : list A) :
  (∀ x w, fst (f x w) = w) → ∀ w, fst (mapM f l w) = w.
Proof.
  intros Hf. induction l as [|x l IH]; intros w; [reflexivity|].
  cbn [mapM]. rewrite bind_run. pose proof (Hf x w) as Hx.
  destruct (f x w) as [w1 [y|e]]; cbn [fst snd] in *; subst w1; [|reflexivity].
  rewrite bind_run. pose proof (IH w) as Hl.
  destruct (mapM f l w) as [w2 [ys|e]]; cbn [fst snd] in *; subst w2; reflexivity.
Qed.

Lemma repository_objects_run w all :
  snd (Git.repository_objects w) = Ok all →
  Git.repository_objects w = (w, Ok all)
  ∧ Forall (λ x, heap w !! x.1 = Some x.2) all.
Proof.
  unfold Git.repository_objects. rewrite bind_run. cbn [gets fst snd].
  intros H. split.
  - apply injective_projections; [|exact H]. cbn [fst].
    apply mapM_reads. intros r w0. rewrite bind_run. unfold self_.
    destruct (heap w0 !! r); reflexivity.
  - revert all H. induction (repository_list w) as [|r l IH]; intros all H.
    + injection H as <-. constructor.
    + cbn [mapM] in H. rewrite bind_run in H. rewrite bind_run in H.
      unfold self_ in H. destruct (heap w !! r) as [rep|] eqn:Hr;
        cbn [fst snd ret] in H; [|discriminate].
      rewrite bind_run in H.
      destruct (snd (mapM _ l w)) as [ys|e] eqn:Hl; [|discriminate].
      cbn [ret snd] in H. injection H as <-.
      constructor; [exact Hr | apply IH; reflexivity].
Qed.

Lemma filter_first {A} (P : A → bool) (pre : list A) x post :
  Forall (λ y, P y = false) pre → P x = true →
  List.filter P (pre ++ x :: post) = x :: List.filter P post.
Proof.
  intros Hpre Hx. induction Hpre as [|y pre Hy _ IH]; cbn [app List.filter].
  - rewrite Hx. reflexivity.
  - rewrite Hy. exact IH.
Qed.

Lemma bind_unit (m : M unit) w : (m ;; ret tt) w = m w.
Proof. unfold bind. destruct (m w) as [w1 [[]|e]]; reflexivity. Qed.

(** The weak privacy of the commands: the first repository of the list
    that has the short name decides.  In one of its channels [branches]
    answers with the watched branches; in any other channel all it does
    is to answer that this is not allowed. *)
Theorem branches_only_in_channels reply msg_channel channel repo w
    all pre repository rep post :
  snd (Git.repository_objects w) = Ok all →
  all = pre ++ (repository, rep) :: post →
  Forall (λ x, short_name x.2 ≠ repo) pre →
  short_name rep = repo →
  Git.branches reply msg_channel channel repo w
  = if bool_decide (channel ∈ channels rep)
    then reply ("Watched branches: " +:+ String.concat ", " (branches rep)) w
    else reply "Sorry, not allowed in this channel." w.
Proof.
  intros Hall -> Hpre Hrep.
  destruct (repository_objects_run w _ Hall) as [Hrun Hheap].
  unfold Git.branches, Git._parse_repo. rewrite bind_run, bind_run, Hrun.
  cbn [fst snd]. cbv zeta.
  rewrite (filter_first _ pre (repository, rep) post); cycle 1.
  { eapply Forall_impl; [exact Hpre|]. intros [r0 rep0] Hne. cbn in *.
    apply bool_decide_eq_false. exact Hne. }
  { apply bool_decide_eq_true. exact Hrep. }
  destruct (bool_decide (channel ∈ channels rep)).
  - cbn [ret fst snd]. rewrite bind_run.
    apply Forall_app in Hheap as [_ Hheap].
    apply Forall_cons in Hheap as [Hheap _]. cbn [fst snd] in Hheap.
    rewrite (self_run _ _ rep Hheap). reflexivity.
  - rewrite <- (bind_unit (reply "Sorry, not allowed in this channel.") w).
    unfold bind. destruct (reply _ w) as [w1 [[]|e]]; reflexivity.
Qed.

Lemma branches_only_in_channels_witness :
  let w := tracked_world scenario_remote [mkIrc ["#demo"; "#other"] [] None] in
  Git.branches (queueMsg 0 "#other") (Some "#other") "#other" "demo" w
  = if bool_decide ("#other" ∈ channels tracked_repository)
    then queueMsg 0 "#other"
           ("Watched branches: "
            +:+ String.concat ", " (branches tracked_repository)) w
    else queueMsg 0 "#other" "Sorry, not allowed in this channel." w.
Proof.
  apply (branches_only_in_channels (queueMsg 0 "#other") (Some "#other")
           "#other" "demo"
           (tracked_world scenario_remote [mkIrc ["#demo"; "#other"] [] None])
           [(0%nat, tracked_repository)] [] 0%nat tracked_repository []).
  - reflexivity.
  - reflexivity.
  - constructor.
  - reflexivity.
Defined.

(** In the channel of the repository the branches are told; in another
    channel, and for a name that no repository has, they are not. *)
Example branches_answers :
  let w := tracked_world scenario_remote [mkIrc ["#demo"; "#other"] [] None] in
  let said cmd := outbox <$> ircs (fst (cmd w)) in
  said (Git.branches (queueMsg 0 "#demo") (Some "#demo") "#demo" "demo")
  = [[("#demo", "Watched branches: main")]]
  ∧ said (Git.branches (queueMsg 0 "#other") (Some "#other") "#other" "demo")
    = [[("#other", "Sorry, not allowed in this channel.")]]
  ∧ said (Git.branches (queueMsg 0 "#other") (Some "#other") "#other" "nosuch")
    = [[("#other", "No repository named nosuch, showing available:");
        ("#other", "No repositories configured for this channel.")]].
Proof. vm_compute. repeat split. Qed.

(** * The fetcher thread: the end *)

#[global] Instance forward_preorder : PreOrder forward.
Proof.
  split.
  - intros w. split; [reflexivity | intros _; lia].
  - intros a b c [N1 C1] [N2 C2]. split; [congruence|].
    intros Ha. assert (Hb : latencies_ok b) by (unfold latencies_ok; rewrite N1; exact Ha).
    specialize (C1 Ha). specialize (C2 Hb). lia.
Qed.

Lemma forward_same w w' : net w' = net w → clock w' = clock w → forward w w'.
Proof. intros Hn Hc. split; [exact Hn | intros _; lia]. Qed.

#[global] Instance forward_log_blind : LogBlind forward.
Proof. intros f w. apply forward_same; reflexivity. Qed.
#[global] Instance forward_lock_blind : LockBlind forward.
Proof. intros f w. apply forward_same; reflexivity. Qed.
#[global] Instance forward_heap_blind : HeapBlind forward.
Proof. intros f w. apply forward_same; reflexivity. Qed.
#[global] Instance forward_disk_blind : DiskBlind forward.
Proof. intros f w. apply forward_same; reflexivity. Qed.
#[global] Instance forward_ghost_blind : GhostBlind forward.
Proof. intros f w. apply forward_same; reflexivity. Qed.

Lemma forward_origin g : stable forward (origin g).
Proof.
  intros w. unfold origin. destruct (net w !! origin_url g) as [rm|] eqn:Hrm;
    [|reflexivity].
  assert (H : forward w (with_clock (λ t, t + latency rm) w)).
  { split; [reflexivity|]. intros Hlat. cbn. specialize (Hlat _ _ Hrm). lia. }
  destruct (reachable rm); exact H.
Qed.

Lemma forward_update_branch p src dst : stable forward (update_branch p src dst).
Proof. unfold update_branch. frame. apply forward_origin. Qed.

Lemma forward_fetch self : stable forward (fetch self).
Proof.
  unfold fetch, remotes0_update, update_tracked, repo_active_branch,
    remote_pull, remote_fetch.
  frame; first [apply forward_origin | apply forward_update_branch].
Qed.

Lemma forward_fetch_repository repository :
  stable forward (GitFetcher.fetch_repository repository).
Proof.
  unfold GitFetcher.fetch_repository. frame.
  - apply stable_acquire_nonblocking; apply _.
  - apply forward_fetch.
  - apply stable_record_error; apply _.
  - apply stable_release; apply _.
  - unfold log_info. apply stable_log_; apply _.
Qed.

Lemma forward_sweep stop todo : stable forward (GitFetcher.sweep stop todo).
Proof.
  induction todo as [|repository rest IH]; cbn [GitFetcher.sweep];
    unfold GitFetcher.shutdown; frame.
  - apply forward_fetch_repository.
  - unfold log_error. apply stable_log_; apply _.
  - exact IH.
Qed.

Lemma run_loop_stopped fuel self stop end_time w :
  stop (clock w) = true →
  snd (GitFetcher.run_loop fuel self stop end_time w) = Ok true.
Proof.
  intros H. destruct fuel; cbn [GitFetcher.run_loop];
    rewrite bind_run, shutdown_run; cbn [fst snd]; rewrite H; reflexivity.
Qed.

(** One turn of the loop of [run]: the sweep, then the wait. *)
Lemma run_turn self stop end_time w :
  latencies_ok w →
  let w2 := fst (GitFetcher.wait stop end_time
                   (fst (GitFetcher.sweep stop (GitFetcher.repository_list self) w))) in
  latencies_ok w2 ∧ clock w ≤ clock w2
  ∧ (stop (clock w2) = true ∨ end_time ≤ clock w2).
Proof.
  intros Hlat. cbv zeta.
  destruct (forward_sweep stop (GitFetcher.repository_list self) w) as [Hn1 Hc1].
  specialize (Hc1 Hlat).
  set (w1 := fst (GitFetcher.sweep stop (GitFetcher.repository_list self) w)) in *.
  assert (Hlat1 : latencies_ok w1) by (unfold latencies_ok; rewrite Hn1; exact Hlat).
  assert (Hwait : ∀ w2, w2 = fst (GitFetcher.wait stop end_time w1) →
            net w2 = net w1 ∧ clock w1 ≤ clock w2
            ∧ (stop (clock w2) = true ∨ end_time ≤ clock w2)).
  { intros w2 ->. unfold GitFetcher.wait. rewrite bind_run. cbn [gets fst snd].
    set (fuel := S _).
    destruct (wait_loop_spec stop end_time fuel w1) as (Hw & (n & Hn) & Hend & _).
    { unfold fuel.
      pose proof (Z.div_mod (end_time - clock w1) 100 ltac:(lia)) as Hdiv.
      pose proof (Z.mod_pos_bound (end_time - clock w1) 100 ltac:(lia)) as Hmod.
      unfold GitFetcher.SHUTDOWN_CHECK_PERIOD. lia. }
    split; [rewrite Hw; reflexivity|].
    unfold GitFetcher.SHUTDOWN_CHECK_PERIOD in Hn. split; [lia | exact Hend]. }
  destruct (Hwait _ eq_refl) as (Hn2 & Hc2 & Hend).
  split; [unfold latencies_ok; rewrite Hn2; exact Hlat1|]. split; [lia | exact Hend].
Qed.

Lemma run_loop_step fuel self stop end_time w :
  stop (clock w) = false →
  GitFetcher.run_loop (S fuel) self stop end_time w
  = (let w2 := fst (GitFetcher.wait stop end_time
                      (fst (GitFetcher.sweep stop (GitFetcher.repository_list self) w))) in
     GitFetcher.run_loop fuel self stop (clock w2 + GitFetcher.period self) w2).
Proof.
  intros H. cbn [GitFetcher.run_loop]. rewrite bind_run, shutdown_run.
  cbn [fst snd]. rewrite H. rewrite bind_run, sweep_total.
  rewrite bind_run.
  assert (Hw : snd (GitFetcher.wait stop end_time
                      (fst (GitFetcher.sweep stop (GitFetcher.repository_list self) w)))
               = Ok tt).
  { unfold GitFetcher.wait. rewrite bind_run. cbn [gets fst snd].
    apply wait_loop_total. }
  rewrite Hw. rewrite bind_run. cbn [gets fst snd]. reflexivity.
Qed.

Lemma run_loop_ends self stop T :
  (∀ t, T ≤ t → stop t = true) → 0 < GitFetcher.period self →
  ∀ fuel w end_time,
    latencies_ok w →
    clock w + GitFetcher.period self ≤ end_time →
    T - clock w ≤ GitFetcher.period self * Z.of_nat fuel →
    snd (GitFetcher.run_loop fuel self stop end_time w) = Ok true.
Proof.
  intros Hstop Hper. induction fuel as [|fuel IH]; intros w end_time Hlat Hend Hfuel.
  - apply run_loop_stopped, Hstop. lia.
  - destruct (stop (clock w)) eqn:Hs; [apply run_loop_stopped, Hs|].
    rewrite (run_loop_step fuel self stop end_time w Hs). cbv zeta.
    destruct (run_turn self stop end_time w Hlat) as (Hlat2 & Hc2 & Hend2).
    set (w2 := fst (GitFetcher.wait stop end_time _)) in *.
    destruct Hend2 as [Hs2 | Hreached]; [apply run_loop_stopped, Hs2|].
    apply IH; [exact Hlat2 | lia | nia].
Qed.

(** The thread ends once it is told to stop: with a period above zero and
    remotes that take no negative time, if [stop()] is called by the time
    [T], then [run] has returned after at most one turn of its loop for
    every period between the start and [T], and two more. *)
Theorem run_ends_after_stop self stop T w fuel :
  (∀ t, T ≤ t → stop t = true) →
  0 < GitFetcher.period self →
  latencies_ok w →
  (Z.to_nat ((T - clock w) / GitFetcher.period self) + 2 ≤ fuel)%nat →
  snd (GitFetcher.run fuel self stop w) = Ok true.
Proof.
  intros Hstop Hper Hlat Hfuel. unfold GitFetcher.run.
  rewrite bind_run. cbn [gets fst snd].
  destruct fuel as [|fuel]; [lia|].
  destruct (stop (clock w)) eqn:Hs; [apply run_loop_stopped, Hs|].
  rewrite (run_loop_step fuel self stop _ w Hs). cbv zeta.
  destruct (run_turn self stop (clock w + GitFetcher.period self / 2) w Hlat)
    as (Hlat2 & Hc2 & Hend2).
  set (w2 := fst (GitFetcher.wait stop _ _)) in *.
  apply (run_loop_ends self stop T Hstop Hper); [exact Hlat2 | lia|].
  pose proof (Z.div_mod (T - clock w) (GitFetcher.period self) ltac:(lia)) as Hdiv.
  pose proof (Z.mod_pos_bound (T - clock w) (GitFetcher.period self) Hper) as Hmod.
  destruct (Z_lt_le_dec (T - clock w) 0) as [Hneg|Hpos].
  - nia.
  - assert (0 ≤ (T - clock w) / GitFetcher.period self)
      by (apply Z.div_pos; lia).
    nia.
Qed.

Lemma run_ends_after_stop_witness :
  snd (GitFetcher.run 5 (GitFetcher.__init__ [0%nat] 10)
         (λ now, bool_decide (30000 ≤ now))
         (tracked_world scenario_remote [])) = Ok true.
Proof.
  apply (run_ends_after_stop (GitFetcher.__init__ [0%nat] 10)
           (λ now, bool_decide (30000 ≤ now)) 30000
           (tracked_world scenario_remote []) 5).
  - intros t Ht. apply bool_decide_eq_true. exact Ht.
  - reflexivity.
  - intros url rm Hrm. cbn in Hrm.
    apply lookup_singleton_Some in Hrm as [_ <-]. cbn. lia.
  - vm_compute. lia.
Defined.

(** A commit id said in the channel of the repository is answered there,
    with no branch, since the commit is displayed under the key [''];
    in another channel nothing happens. *)
Example snarf_answers :
  let w := tracked_world scenario_remote [mkIrc ["#demo"; "#other"] [] None] in
  outbox <$> ircs (fst (Git._snarf demo_settings 0 "#demo" "c3" w))
  = [[("#demo", "Talking about c3?"); ("#demo", "[demo||Bob] third")]]
  ∧ Git._snarf demo_settings 0 "#other" "c3" w = (w, Ok tt).
Proof. vm_compute. split; reflexivity. Qed.

(** The repositories of a channel, as the command lists them. *)
Example repositories_answers :
  let w := tracked_world scenario_remote [mkIrc ["#demo"; "#other"] [] None] in
  outbox <$> ircs (fst (Git.repositories (queueMsg 0 "#demo") "#demo" w))
  = [[("#demo", String "002" "demo" +:+ String "002" " (Demo)")]].
Proof. vm_compute. reflexivity. Qed.

(** * The settings of a repository *)

#[global] Instance settings_kept_preorder : PreOrder settings_kept.
Proof.
  split; unfold settings_kept; [intros w; reflexivity|].
  intros a b c H1 H2. congruence.
Qed.
#[global] Instance settings_kept_log_blind : LogBlind settings_kept.
Proof. intros f w. reflexivity. Qed.
#[global] Instance settings_kept_lock_blind : LockBlind settings_kept.
Proof. intros f w. reflexivity. Qed.
#[global] Instance settings_kept_disk_blind : DiskBlind settings_kept.
Proof. intros f w. reflexivity. Qed.
#[global] Instance settings_kept_clock_blind : ClockBlind settings_kept.
Proof. intros f w. reflexivity. Qed.
#[global] Instance settings_kept_irc_blind : IrcBlind settings_kept.
Proof. intros f w. reflexivity. Qed.
#[global] Instance settings_kept_ghost_append : GhostAppend settings_kept.
Proof. intros x w. reflexivity. Qed.
#[global] Instance settings_kept_schedule_blind : ScheduleBlind settings_kept.
Proof. intros a e w. reflexivity. Qed.

Lemma settings_kept_update self (f : Repository → Repository) :
  (∀ r, settings_of (f r) = settings_of r) →
  stable settings_kept (update_self self f).
Proof.
  intros Hf w. unfold settings_kept, update_self. cbn.
  rewrite (list_fmap_alter settings_of f id)
    by (apply Forall_forall; intros r _; apply Hf).
  apply list_alter_id. reflexivity.
Qed.

(** The updates that the methods make. *)
Ltac settings_update :=
  apply settings_kept_update; intros []; reflexivity.

Lemma settings_kept_clone self : stable settings_kept (clone self).
Proof.
  unfold clone, git_Repo. frame;
    first [ settings_update
          | apply stable_git_clone; apply _
          | apply stable_get_branches; apply _
          | apply stable_update_tracked; apply _
          | apply stable_repo_commit; apply _
          | unfold log_error; apply stable_log_; apply _ ].
Qed.

Lemma settings_kept_record_error self e :
  stable settings_kept (record_error self e).
Proof. unfold record_error. frame. settings_update. Qed.

Lemma settings_kept_invoke self m : stable settings_kept (invoke self m).
Proof.
  destruct m; cbn [invoke]; frame.
  - apply settings_kept_clone.
  - apply stable_fetch; apply _.
  - apply stable_get_commit; apply _.
  - apply stable_get_commit_id; apply _.
  - apply stable_get_new_commits; apply _.
  - apply stable_get_recent_commits; apply _.
  - apply stable_format_link; apply _.
  - apply stable_format_message; apply _.
  - apply settings_kept_record_error.
  - unfold get_errors. frame. settings_update.
Qed.

Lemma settings_kept_poll_repository repository :
  stable settings_kept (poll_repository repository).
Proof.
  unfold poll_repository, poll_try, report_errors, get_errors,
    advance_cursors. frame;
    first [ settings_update
          | apply stable_acquire_nonblocking; apply _
          | apply stable_release; apply _
          | apply stable_get_new_commits; apply _
          | apply stable_get_commit; apply _
          | apply update_deliver; apply _
          | unfold log_info, log_error; apply stable_log_; apply _ ].
Qed.

Lemma settings_kept_sweep stop todo :
  stable settings_kept (GitFetcher.sweep stop todo).
Proof.
  induction todo as [|repository rest IH]; cbn [GitFetcher.sweep];
    unfold GitFetcher.shutdown, GitFetcher.fetch_repository; frame;
    first [ exact IH
          | apply stable_acquire_nonblocking; apply _
          | apply stable_release; apply _
          | apply stable_fetch; apply _
          | apply settings_kept_record_error
          | apply stable_modify; intros ?; reflexivity
          | unfold log_info, log_error; apply stable_log_; apply _ ].
Qed.

Lemma settings_kept_run_loop fuel self stop : ∀ end_time,
  stable settings_kept (GitFetcher.run_loop fuel self stop end_time).
Proof.
  induction fuel as [|fuel IH]; intros end_time; cbn [GitFetcher.run_loop];
    unfold GitFetcher.shutdown, GitFetcher.wait; frame.
  - apply settings_kept_sweep.
  - apply stable_wait_loop; apply _.
  - apply IH.
Qed.

(** The settings that the options of its section gave to a repository
    are never changed: after any method of [Repository], after [_poll]
    and after any number of turns of [run], every object has the channels,
    names, url, templates and path it had, and there are as many
    objects. *)
Theorem settings_never_change w :
  (∀ self m, settings_of <$> heap (fst (invoke self m w))
             = settings_of <$> heap w)
  ∧ settings_of <$> heap (fst (_poll w)) = settings_of <$> heap w
  ∧ ∀ fuel self stop,
      settings_of <$> heap (fst (GitFetcher.run fuel self stop w))
      = settings_of <$> heap w.
Proof.
  split; [|split].
  - intros self m. apply settings_kept_invoke.
  - assert (Hs : stable settings_kept _poll); [|apply Hs].
    unfold _poll, _schedule_next_event, _stop_polling. frame.
    + apply settings_kept_poll_repository.
    + unfold log_error. apply stable_log_; apply _.
  - intros fuel self stop.
    assert (Hs : stable settings_kept (GitFetcher.run fuel self stop));
      [|apply Hs].
    unfold GitFetcher.run. frame. apply settings_kept_run_loop.
Qed.

(** * The making of a repository object *)

Lemma for_each_reads {A} (l : list A) (body : A → M unit) :
  (∀ x w, fst (body x w) = w) → ∀ w, fst (for_each l body w) = w.
Proof.
  intros Hb. induction l as [|x l IH]; intros w; [reflexivity|].
  cbn [for_each]. rewrite bind_run. pose proof (Hb x w) as Hx.
  destruct (body x w) as [w1 [[]|e]]; cbn [fst snd] in *; subst w1;
    [apply IH | reflexivity].
Qed.

(** What a call of [Repository(...)] that returns has done before it
    calls [clone]. *)
Lemma init_ok_inv repo_dir name options w w' self :
  __init__ repo_dir name options w = (w', Ok self) →
  ∃ chans short_name' url' r,
    self = length (heap w)
    ∧ options_get options "channels" (options_get options "channel" PNone)
      = PStr chans
    ∧ options !! "short name" = Some short_name'
    ∧ options !! "url" = Some url'
    ∧ branches_opt r = options_get options "branches" (PList ["master"])
    ∧ settings_of r
      = (options_get options "branches" (PList ["master"]),
         Py.split_ws chans,
         default "" (options !! "commit link"),
         default "[%s|%b|%a] %m" (options !! "commit message"),
         bool_decide (Py.lower (default "True" (options !! "group header"))
                      ∈ ["true"; "yes"; "1"]),
         name, short_name', url', Py.path_join repo_dir short_name')
    ∧ clone self (with_locks <[ self := Free ]>
                    (with_heap (λ h, h ++ [r]) w)) = (w', Ok tt).
Proof.
  unfold __init__. intros H.
  apply bind_ok_inv in H as (api & w1 & Hapi & H). injection Hapi as <- <-.
  apply bind_ok_inv in H as ([] & w1 & Hcheck & H).
  assert (w1 = w) as ->.
  { destruct (decide (GIT_API_VERSION w = -1)); [discriminate|].
    injection Hcheck as <-. reflexivity. }
  clear Hcheck.
  apply bind_ok_inv in H as ([] & w1 & Hreq & H).
  cbn [required_values for_each] in Hreq.
  apply bind_ok_inv in Hreq as ([] & w2 & Hshort & Hreq).
  destruct (decide (is_Some (options !! "short name"))) as [[sn Hsn]|];
    [|discriminate].
  injection Hshort as <-.
  apply bind_ok_inv in Hreq as ([] & w2 & Hurl & Hreq).
  destruct (decide (is_Some (options !! "url"))) as [[u Hu]|]; [|discriminate].
  injection Hurl as <-. injection Hreq as <-.
  apply bind_ok_inv in H as ([] & w1 & Hopt & H).
  assert (w1 = w) as ->.
  { replace w1 with (fst (for_each (map_to_list options) (λ '(name0, _),
        if bool_decide (name0 ∈ required_values)
           || bool_decide (name0 ∈ optional_values)
        then ret tt
        else raise (Exception ("Section " +:+ name
                               +:+ " contains unrecognized value: " +:+ name0))) w))
      by (rewrite Hopt; reflexivity).
    apply for_each_reads. intros [n v] w0.
    destruct (_ || _); reflexivity. }
  clear Hopt.
  apply bind_ok_inv in H as (chans & w1 & Hchans & H).
  destruct (options_get options "channels" (options_get options "channel" PNone))
    as [s| |] eqn:Hget; [|discriminate..].
  injection Hchans as <- <-.
  cbv zeta in H.
  apply bind_ok_inv in H as (self' & w1 & Hself & H). injection Hself as <- <-.
  apply bind_ok_inv in H as ([] & w1 & Hm1 & H). injection Hm1 as <-.
  apply bind_ok_inv in H as ([] & w1 & Hm2 & H). injection Hm2 as <-.
  apply bind_ok_inv in H as ([] & w1 & Hclone & H). injection H as <- <-.
  rewrite Hsn, Hu in Hclone. cbn [default] in Hclone.
  eexists s, sn, u, _. split; [reflexivity|]. split; [reflexivity|].
  split; [exact Hsn|]. split; [exact Hu|].
  split; [|split; [|exact Hclone]]; reflexivity.
Qed.

(** [Repository(...)] never returns for a section with no [branches]
    option: the default of the option is the list [['master']], and
    [clone] calls [split] on it. *)
Theorem init_needs_branches repo_dir name options w :
  options !! "branches" = None →
  ∃ e, snd (__init__ repo_dir name options w) = Raise e.
Proof.
  intros Hnone.
  destruct (__init__ repo_dir name options w) as [w' [self|e]] eqn:H;
    [|eauto].
  exfalso.
  apply init_ok_inv in H as (chans & sn & u & r & -> & _ & _ & _ & Hb & _ & H).
  unfold options_get in Hb. rewrite Hnone in Hb.
  set (self := length (heap w)) in *.
  set (w2 := with_locks _ _) in H.
  assert (Hr : heap w2 !! self = Some r).
  { unfold w2, self. cbn. apply list_lookup_middle. reflexivity. }
  unfold clone in H.
  lazymatch type of H with
  | synchronized _ ?m _ = _ => assert (Hm : stable (held self) m)
  end.
  { unfold git_Repo. frame;
      first [apply stable_git_clone | apply stable_update_self
            | apply stable_get_branches | apply stable_update_tracked
            | apply stable_repo_commit
            | unfold log_error; apply stable_log_]; apply _. }
  apply synchronized_ok_inv in H as (wb & H & _); [|exact Hm]. clear Hm.
  assert (Hra : heap (fst (acquire self w2)) !! self = Some r) by exact Hr.
  set (wa := fst (acquire self w2)) in *. clearbody wa.
  apply bind_ok_inv in H as (r' & w1 & Hself & H).
  rewrite (self_run self wa r Hra) in Hself. injection Hself as <- <-.
  apply bind_ok_inv in H as (present & w1 & _ & H).
  apply bind_ok_inv in H as ([] & w3 & _ & H).
  apply bind_ok_inv in H as (h & w4 & _ & H).
  apply bind_ok_inv in H as ([] & w5 & _ & H).
  apply bind_ok_inv in H as (bs & w6 & Hbs & _).
  rewrite Hb in Hbs. unfold get_branches in Hbs.
  apply bind_ok_inv in Hbs as (words & w7 & Hsplit & _). discriminate Hsplit.
Qed.

Lemma init_needs_branches_witness :
  ∃ e, snd (__init__ "repos" "Demo"
              (list_to_map [("short name", "demo"); ("url", "git://demo");
                            ("channels", "#demo")])
              scenario_world) = Raise e.
Proof.
  apply (init_needs_branches "repos" "Demo"
           (list_to_map [("short name", "demo"); ("url", "git://demo");
                         ("channels", "#demo")])
           scenario_world).
  reflexivity.
Defined.

(** The section of the scenario without its [branches] option. *)
Example init_without_branches :
  snd (__init__ "repos" "Demo"
         (list_to_map [("short name", "demo"); ("url", "git://demo");
                       ("channels", "#demo")])
         scenario_world)
  = Raise (AttributeError "'list' object has no attribute 'split'").
Proof. vm_compute. reflexivity. Qed.

(** What [Repository(repo_dir, long_name, options)] makes when it
    returns: one object more, the objects before it with the settings
    they had, its lock free; its channels are the words of the option
    [channels], or of [channel] when [channels] is not given, its path is
    the short name under [repo_dir], and the group header is on only for
    the values true, yes and 1, in any case of letters. *)
Theorem init_gives_settings repo_dir name options w w' self :
  __init__ repo_dir name options w = (w', Ok self) →
  ∃ rep chans short url,
    self = length (heap w)
    ∧ heap w' !! self = Some rep
    ∧ settings_of <$> heap w' = (settings_of <$> heap w) ++ [settings_of rep]
    ∧ lock_of w' self = Free
    ∧ (options !! "channels" = Some chans
       ∨ options !! "channels" = None ∧ options !! "channel" = Some chans)
    ∧ options !! "short name" = Some short
    ∧ options !! "url" = Some url
    ∧ settings_of rep
      = (options_get options "branches" (PList ["master"]),
         Py.split_ws chans,
         default "" (options !! "commit link"),
         default "[%s|%b|%a] %m" (options !! "commit message"),
         bool_decide (Py.lower (default "True" (options !! "group header"))
                      ∈ ["true"; "yes"; "1"]),
         name, short, url, Py.path_join repo_dir short).
Proof.
  intros H.
  apply init_ok_inv in H as (chans & sn & u & r & -> & Hch & Hsn & Hu & _ & Hset & H).
  set (self := length (heap w)) in *.
  set (w2 := with_locks _ _) in H.
  assert (Hw' : w' = fst (clone self w2)) by (rewrite H; reflexivity).
  assert (Hsettings : settings_of <$> heap w'
                      = (settings_of <$> heap w) ++ [settings_of r]).
  { rewrite Hw', (settings_kept_clone self w2). unfold w2. cbn.
    rewrite fmap_app. reflexivity. }
  assert (Hrep : ∃ rep, heap w' !! self = Some rep
                        ∧ settings_of rep = settings_of r).
  { assert (Hl : (settings_of <$> heap w') !! self = Some (settings_of r)).
    { rewrite Hsettings. apply list_lookup_middle.
      rewrite length_fmap. reflexivity. }
    rewrite list_lookup_fmap in Hl.
    destruct (heap w' !! self) as [rep|]; [|discriminate].
    exists rep. split; [reflexivity|]. cbn in Hl. congruence. }
  destruct Hrep as (rep & Hrep & Heq).
  exists rep, chans, sn, u. split; [reflexivity|]. split; [exact Hrep|].
  split; [rewrite Heq; exact Hsettings|]. split.
  { rewrite Hw'.
    rewrite (stable_clone (lock_kept self) self w2);
      unfold w2; rewrite lock_of_insert_eq; done. }
  split.
  { unfold options_get in Hch.
    destruct (options !! "channels") as [c|]; [left; congruence|].
    right. split; [reflexivity|].
    destruct (options !! "channel") as [c|]; [congruence | discriminate]. }
  split; [exact Hsn|]. split; [exact Hu|]. rewrite Heq. exact Hset.
Qed.

Lemma init_gives_settings_witness :
  let out := __init__ "repos" "Demo" demo_options scenario_world in
  ∃ rep chans short url,
    0%nat = length (heap scenario_world)
    ∧ heap (fst out) !! 0%nat = Some rep
    ∧ settings_of <$> heap (fst out)
      = (settings_of <$> heap scenario_world) ++ [settings_of rep]
    ∧ lock_of (fst out) 0 = Free
    ∧ (demo_options !! "channels" = Some chans
       ∨ demo_options !! "channels" = None ∧ demo_options !! "channel" = Some chans)
    ∧ demo_options !! "short name" = Some short
    ∧ demo_options !! "url" = Some url
    ∧ settings_of rep
      = (options_get demo_options "branches" (PList ["master"]),
         Py.split_ws chans,
         default "" (demo_options !! "commit link"),
         default "[%s|%b|%a] %m" (demo_options !! "commit message"),
         bool_decide (Py.lower (default "True" (demo_options !! "group header"))
                      ∈ ["true"; "yes"; "1"]),
         "Demo", short, url, Py.path_join "repos" short).
Proof.
  apply (init_gives_settings "repos" "Demo" demo_options scenario_world
           (fst (__init__ "repos" "Demo" demo_options scenario_world)) 0%nat).
  vm_compute. reflexivity.
Defined.

(** The object of the section Demo: two channels from the old option
    [channel], and no group header, since "on" is none of the values that
    turn it on. *)
Example init_in_the_scenario :
  let out := __init__ "repos" "Demo" demo_options scenario_world in
  snd out = Ok 0%nat
  ∧ (channels <$> heap (fst out) !! 0%nat) = Some ["#demo"; "#dev"]
  ∧ (group_header <$> heap (fst out) !! 0%nat) = Some false
  ∧ (path <$> heap (fst out) !! 0%nat) = Some "repos/demo"
  ∧ (commit_by_branch <$> heap (fst out) !! 0%nat)
    = Some {[ "main" := Some commit_c3 ]}.
Proof. vm_compute. repeat split. Qed.

(** * The message formatter: literal text and colours *)

Lemma ascii_text_app (a b : string) :
  ascii_text (a +:+ b) = ascii_text a && ascii_text b.
Proof.
  induction a as [|c a IH]; [reflexivity|].
  rewrite string_app_cons. cbn [ascii_text]. rewrite IH, andb_assoc.
  reflexivity.
Qed.

Lemma ascii_text_take n : ∀ s,
  ascii_text s = true → ascii_text (Py.take n s) = true.
Proof.
  induction n as [|n IH]; intros [|c s] H; try reflexivity.
  cbn [Py.take ascii_text] in *. apply andb_true_iff in H as [-> H].
  apply IH, H.
Qed.

Lemma ascii_text_split sep s :
  ascii_text s = true →
  Forall (λ piece, ascii_text piece = true) (Py.split_on sep s).
Proof.
  induction s as [|c s IH]; cbn [Py.split_on ascii_text]; intros H.
  - repeat constructor.
  - apply andb_true_iff in H as [Hc Hs]. specialize (IH Hs).
    destruct (decide (c = sep)).
    + constructor; [reflexivity | exact IH].
    + destruct (Py.split_on sep s) as [|piece rest].
      * repeat constructor. cbn [ascii_text]. rewrite Hc. reflexivity.
      * inversion IH; subst. constructor; [|assumption].
        cbn [ascii_text]. rewrite Hc. assumption.
Qed.

Lemma link_text_ascii commit todo : ∀ result escaped,
  ascii_text (hexsha commit) = true →
  ascii_text todo = true →
  ascii_text result = true →
  ascii_text (link_text commit todo result escaped) = true.
Proof.
  induction todo as [|c todo IH]; intros result escaped Hid Htodo Hres;
    [exact Hres|].
  cbn [ascii_text] in Htodo. apply andb_true_iff in Htodo as [Hc Htodo].
  cbn [link_text].
  destruct escaped;
    repeat case_match; apply IH; try assumption;
    rewrite ascii_text_app, Hres; cbn [ascii_text andb];
    rewrite ?Hc, ?Hid, ?ascii_text_take; done.
Qed.

(** The scanner makes ASCII text of ASCII text. *)
Lemma format_line_ascii subst line :
  (∀ x v, subst !! x = Some v → ascii_text v = true) →
  ∀ mode outline color,
    ascii_text line = true →
    ascii_text outline = true →
    ascii_text color = true →
    ascii_text (format_line subst line mode outline color) = true.
Proof.
  intros Hsubst.
  induction line as [|c line IH]; intros mode outline color Hline Hout Hcol;
    [exact Hout|].
  cbn [ascii_text] in Hline. apply andb_true_iff in Hline as [Hc Hline].
  cbn [format_line].
  destruct mode.
  - destruct (decide (c = "%"%char)); apply IH; try assumption.
    rewrite ascii_text_app, Hout. cbn [ascii_text andb]. rewrite Hc. done.
  - destruct (subst !! c) as [v|] eqn:Hv.
    + apply IH; try assumption.
      rewrite ascii_text_app, Hout, (Hsubst c v Hv). done.
    + destruct (decide (c = "("%char)); apply IH; try assumption;
        [reflexivity|].
      rewrite ascii_text_app, Hout. cbn [ascii_text andb]. rewrite Hc. done.
  - destruct (decide (c = ")"%char)); apply IH; try assumption.
    + rewrite ascii_text_app, Hout. cbn [ascii_text andb]. exact Hcol.
    + rewrite ascii_text_app, Hcol. cbn [ascii_text andb]. rewrite Hc. done.
Qed.

Lemma message_subst_ascii r commit branch :
  ascii_inputs r commit branch = true →
  ∀ x v, message_subst r commit branch !! x = Some v → ascii_text v = true.
Proof.
  intros H x v Hx. unfold ascii_inputs in H. cbn [forallb] in H.
  repeat (apply andb_true_iff in H as [? H]).
  unfold message_subst, subst_dict in Hx. apply elem_of_list_to_map_2 in Hx.
  repeat (apply elem_of_cons in Hx as [[= -> ->]|Hx]);
    try assumption; try reflexivity.
  - apply (ascii_text_take 7 (hexsha commit)). assumption.
  - apply link_text_ascii; [assumption | assumption | reflexivity].
  - pose proof (ascii_text_split newline (message commit))
      as Hsplit.
    destruct (Py.split_on newline (message commit)) as [|first rest];
      [reflexivity|].
    cbn [head default].
    assert (Hall : Forall (λ piece, ascii_text piece = true) (first :: rest))
      by (apply Hsplit; assumption).
    inversion Hall; assumption.
  - apply elem_of_nil in Hx. destruct Hx.
Qed.

(** The keys of the dictionary are the fourteen of the source. *)
Lemma message_subst_keys r commit branch x :
  is_Some (message_subst r commit branch !! x) ↔ x ∈ substitution_keys.
Proof.
  unfold message_subst, subst_dict. split.
  - intros [v Hv]. apply elem_of_list_to_map_2 in Hv.
    apply (list_elem_of_fmap_2 fst) in Hv. exact Hv.
  - intros Hx.
    destruct (list_to_map _ !! x) as [v|] eqn:Hv; [eauto|].
    apply not_elem_of_list_to_map_2 in Hv. destruct Hv. exact Hx.
Qed.

(** Inside a colour specification every character goes to the colour
    code, up to the closing parenthesis. *)
Lemma format_line_colour_code subst code : ∀ rest outline color,
  Py.contains ")" code = false →
  format_line subst (code +:+ String ")" rest) MODE_COLOR outline color
  = format_line subst rest MODE_NORMAL
      (outline +:+ String "003" (color +:+ code)) (color +:+ code).
Proof.
  induction code as [|c code IH]; intros rest outline color H.
  - rewrite string_app_nil_l, !string_app_nil_r. cbn [format_line].
    destruct (decide (")"%char = ")"%char)); [reflexivity | done].
  - cbn [Py.contains] in H. apply orb_false_iff in H as [Hc H].
    apply bool_decide_eq_false in Hc.
    rewrite string_app_cons. cbn [format_line].
    destruct (decide (c = ")"%char)); [done|].
    rewrite IH by exact H. rewrite string_app_assoc. reflexivity.
Qed.

Lemma format_line_colour_open subst code : ∀ outline color,
  Py.contains ")" code = false →
  format_line subst code MODE_COLOR outline color = outline.
Proof.
  induction code as [|c code IH]; intros outline color H; [reflexivity|].
  cbn [Py.contains] in H. apply orb_false_iff in H as [Hc H].
  apply bool_decide_eq_false in Hc. cbn [format_line].
  destruct (decide (c = ")"%char)); [done|]. apply IH, H.
Qed.

Lemma format_line_colour subst pre code post :
  subst !! "("%char = None →
  mode_after subst pre = MODE_NORMAL →
  Py.contains ")" code = false →
  format_line subst (pre +:+ "%(" +:+ code +:+ ")" +:+ post) MODE_NORMAL "" ""
  = format_line subst pre MODE_NORMAL "" "" +:+ String "003" code
      +:+ format_line subst post MODE_NORMAL "" "".
Proof.
  intros Hparen Hpre Hcode. rewrite format_line_app. unfold mode_after in Hpre.
  rewrite (format_line_scan _ pre).
  destruct (scan subst pre MODE_NORMAL "" "") as [[m o] col].
  cbn [fst snd] in *. subst m.
  change ("%(" +:+ code +:+ ")" +:+ post)
    with (String "%" (String "(" (code +:+ String ")" post))).
  cbn [format_line]. destruct (decide ("%"%char = "%"%char)); [|done].
  rewrite Hparen. destruct (decide ("("%char = "("%char)); [|done].
  rewrite format_line_colour_code by exact Hcode.
  rewrite string_app_nil_l.
  rewrite <- (string_app_nil_r (o +:+ String "003" code)), format_line_outline.
  rewrite string_app_assoc. do 2 f_equal.
  apply format_line_color.
Qed.

Lemma format_line_colour_unclosed subst pre code :
  subst !! "("%char = None →
  mode_after subst pre = MODE_NORMAL →
  Py.contains ")" code = false →
  format_line subst (pre +:+ "%(" +:+ code) MODE_NORMAL "" ""
  = format_line subst pre MODE_NORMAL "" "".
Proof.
  intros Hparen Hpre Hcode. rewrite format_line_app. unfold mode_after in Hpre.
  rewrite (format_line_scan _ pre).
  destruct (scan subst pre MODE_NORMAL "" "") as [[m o] col].
  cbn [fst snd] in *. subst m.
  change ("%(" +:+ code) with (String "%" (String "(" code)).
  cbn [format_line]. destruct (decide ("%"%char = "%"%char)); [|done].
  rewrite Hparen. destruct (decide ("("%char = "("%char)); [|done].
  apply format_line_colour_open, Hcode.
Qed.

(** C7, amended, for ASCII text.  A template without a percent sign comes
    out line by line as it is.  Where the scanner is in its normal mode,
    that is outside a colour specification and not right after a percent
    sign, "%%" comes out as one percent sign, and a percent sign followed
    by a character that is none of the fourteen substitution keys and no
    opening parenthesis comes out as that character.  Inside a colour
    specification the characters go to the colour code with no
    substitution: "%(", a code without closing parenthesis and ")" come
    out as the colour control character and the code as it is, and a
    specification that the line does not close comes out as nothing.
    The lines that come out are ASCII text, on which [encode('utf-8')]
    is the identity. *)
Theorem format_message_literals w self r commit branch :
  api_ok w →
  heap w !! self = Some r →
  ascii_inputs r commit branch = true →
  let subst := message_subst r commit branch in
  let render line := format_line subst line MODE_NORMAL "" "" in
  let lines := Py.split_on newline (commit_message r) in
  snd (format_message self commit branch w) = Ok (render <$> lines)
  ∧ Forall (λ line, ascii_text line = true) (render <$> lines)
  ∧ (∀ x, is_Some (subst !! x) ↔ x ∈ substitution_keys)
  ∧ (Py.contains "%" (commit_message r) = false →
     snd (format_message self commit branch w) = Ok lines)
  ∧ ∀ line, line ∈ lines →
      (∀ pre post,
         line = pre +:+ "%%" +:+ post →
         mode_after subst pre = MODE_NORMAL →
         render line = render pre +:+ "%" +:+ render post)
      ∧ (∀ pre x post,
           line = pre +:+ String "%" (String x post) →
           mode_after subst pre = MODE_NORMAL →
           x ∉ substitution_keys → x ≠ "("%char →
           render line = render pre +:+ String x (render post))
      ∧ (∀ pre code post,
           line = pre +:+ "%(" +:+ code +:+ ")" +:+ post →
           mode_after subst pre = MODE_NORMAL →
           Py.contains ")" code = false →
           render line = render pre +:+ String "003" code +:+ render post)
      ∧ (∀ pre code,
           line = pre +:+ "%(" +:+ code →
           mode_after subst pre = MODE_NORMAL →
           Py.contains ")" code = false →
           render line = render pre).
Proof.
  intros Hw Hr Hascii. cbv zeta.
  pose proof (format_message_run self commit branch w r Hw Hr) as Hrun.
  unfold message_lines in Hrun. fold (message_subst r commit branch) in Hrun.
  assert (Htemplate : ascii_text (commit_message r) = true).
  { unfold ascii_inputs in Hascii. cbn [forallb] in Hascii.
    apply andb_true_iff in Hascii as [H _]. exact H. }
  split; [exact Hrun|]. split.
  { apply Forall_fmap.
    eapply Forall_impl; [apply ascii_text_split, Htemplate|].
    intros line Hline. cbn.
    apply format_line_ascii; [|exact Hline|reflexivity..].
    apply message_subst_ascii, Hascii. }
  split; [apply message_subst_keys|]. split.
  { intros Hplain. rewrite Hrun. f_equal.
    apply format_lines_plain, split_on_contains, Hplain. }
  intros line _. split; [|split; [|split]].
  - intros pre post -> Hpre.
    apply format_line_escape; [reflexivity | exact Hpre].
  - intros pre x post -> Hpre Hx Hparen.
    apply format_line_unknown; [exact Hpre | | exact Hparen].
    destruct (message_subst r commit branch !! x) as [v|] eqn:Hv;
      [|reflexivity].
    exfalso. apply Hx.
    apply (proj1 (message_subst_keys r commit branch x)). eauto.
  - intros pre code post -> Hpre Hcode.
    apply format_line_colour; [reflexivity | exact Hpre | exact Hcode].
  - intros pre code -> Hpre Hcode.
    apply format_line_colour_unclosed; [reflexivity | exact Hpre | exact Hcode].
Qed.

Lemma format_message_literals_witness :
  let template :=
    "100%% sure"
    +:+ String newline ("%zeal"
    +:+ String newline ("%(04)red"
    +:+ String newline "end%(4")) in
  snd (format_message 0 demo_commit "main" (demo_world template))
  = Ok ["100% sure"; "zeal"; String "003" "04red"; "end"].
Proof.
  intros template.
  pose proof (format_message_literals (demo_world template) 0%nat
                (demo_repository template) demo_commit "main"
                (or_intror eq_refl) eq_refl eq_refl) as H.
  cbv zeta in H. destruct H as (Hrun & _ & _ & _ & Hlines).
  rewrite Hrun. apply (f_equal Ok).
  change (Py.split_on newline (commit_message (demo_repository template)))
    with ["100%% sure"; "%zeal"; "%(04)red"; "end%(4"] in *.
  rewrite !fmap_cons, fmap_nil.
  destruct (Hlines "100%% sure" ltac:(repeat constructor)) as (Hescape & _).
  destruct (Hlines "%zeal" ltac:(repeat constructor)) as (_ & Hunknown & _).
  destruct (Hlines "%(04)red" ltac:(repeat constructor)) as (_ & _ & Hcolour & _).
  destruct (Hlines "end%(4" ltac:(repeat constructor)) as (_ & _ & _ & Hopen).
  rewrite (Hescape "100" " sure" eq_refl eq_refl).
  assert (Hz : "z"%char ∉ substitution_keys).
  { apply (proj1 (bool_decide_eq_false ("z"%char ∈ substitution_keys))).
    reflexivity. }
  rewrite (Hunknown "" "z"%char "eal" eq_refl eq_refl Hz ltac:(discriminate)).
  rewrite (Hcolour "" "04" "red" eq_refl eq_refl eq_refl).
  rewrite (Hopen "end" "4" eq_refl eq_refl eq_refl).
  reflexivity.
Defined.

(** * Reading the configuration: the sections *)

#[global] Instance settings_extended_preorder : PreOrder settings_extended.
Proof.
  split; unfold settings_extended; [intros w; reflexivity|].
  intros a b c H1 H2. etransitivity; eassumption.
Qed.
#[global] Instance settings_extended_log_blind : LogBlind settings_extended.
Proof. intros f w. unfold settings_extended. reflexivity. Qed.
#[global] Instance settings_extended_lock_blind : LockBlind settings_extended.
Proof. intros f w. unfold settings_extended. reflexivity. Qed.
#[global] Instance settings_extended_disk_blind : DiskBlind settings_extended.
Proof. intros f w. unfold settings_extended. reflexivity. Qed.
#[global] Instance settings_extended_clock_blind : ClockBlind settings_extended.
Proof. intros f w. unfold settings_extended. reflexivity. Qed.

Lemma settings_kept_extended w w' :
  settings_kept w w' → settings_extended w w'.
Proof. unfold settings_kept, settings_extended. intros ->. reflexivity. Qed.

Lemma settings_extended___init__ repo_dir name options :
  stable settings_extended (__init__ repo_dir name options).
Proof.
  unfold __init__. frame.
  - apply stable_modify. intros w. unfold settings_extended. cbn.
    rewrite fmap_app. apply prefix_app_r. reflexivity.
  - intros w. apply settings_kept_extended, settings_kept_clone.
Qed.

(** The object that [Repository(...)] returns has the name it was given. *)
Lemma init_ok_made repo_dir name options w w' self :
  __init__ repo_dir name options w = (w', Ok self) →
  long_name <$> heap w' !! self = Some name.
Proof.
  intros H.
  apply init_ok_inv in H as (chans & sn & u & r & -> & _ & _ & _ & _ & Hset & H).
  set (w2 := with_locks _ _) in H.
  assert (Hl : (settings_of <$> heap w') !! length (heap w)
               = Some (settings_of r)).
  { replace w' with (fst (clone (length (heap w)) w2)) by (rewrite H; reflexivity).
    rewrite (settings_kept_clone (length (heap w)) w2). unfold w2. cbn.
    rewrite fmap_app. apply list_lookup_middle.
    rewrite length_fmap. reflexivity. }
  rewrite list_lookup_fmap in Hl.
  destruct (heap w' !! length (heap w)) as [rep|]; [|discriminate].
  assert (Heq : settings_of rep = settings_of r) by (cbn in Hl; congruence).
  rewrite Hset in Heq. unfold settings_of in Heq.
  injection Heq as _ _ _ _ _ Hname _ _ _.
  cbn. rewrite Hname. reflexivity.
Qed.

Lemma made_for_extended w w' r section :
  settings_extended w w' → made_for w r section → made_for w' r section.
Proof.
  unfold settings_extended, made_for. intros Hext Hr.
  destruct (heap w !! r) as [rep|] eqn:Hrep; [|discriminate].
  assert (Hl : (settings_of <$> heap w') !! r = Some (settings_of rep)).
  { eapply prefix_lookup_Some; [|exact Hext].
    rewrite list_lookup_fmap, Hrep. reflexivity. }
  rewrite list_lookup_fmap in Hl.
  destruct (heap w' !! r) as [rep'|]; [|discriminate].
  assert (Heq : settings_of rep' = settings_of rep) by (cbn in Hl; congruence).
  unfold settings_of in Heq. injection Heq as _ _ _ _ _ Hname _ _ _.
  cbn in *. congruence.
Qed.

(** The loop of [_read_config]: one reference more for every section that
    makes a [Repository], in the order of the sections; the loop ends at
    the first section that does not, with what [Repository(...)] raised
    for it. *)
Lemma read_sections_run (repo_dir : string)
    (sections : list (string * gmap string string)) : ∀ w,
  let out :=
    for_each sections (λ '(section, options),
      do r ← __init__ repo_dir section options;
      modify (with_repository_list (λ l, l ++ [r]))) w in
  ∃ added,
    repository_list (fst out) = repository_list w ++ added
    ∧ (length added ≤ length sections)%nat
    ∧ (snd out = Ok tt ↔ length added = length sections)
    ∧ Forall2 (made_for (fst out)) added (take (length added) sections)
    ∧ settings_extended w (fst out)
    ∧ (∀ e, snd out = Raise e →
         ∃ section options w0,
           sections !! length added = Some (section, options)
           ∧ snd (__init__ repo_dir section options w0) = Raise e).
Proof.
  induction sections as [|[section options] sections IH]; intros w; cbv zeta.
  - exists []. rewrite app_nil_r. cbn [for_each ret fst snd length take].
    repeat split; try done; constructor.
  - cbn [for_each]. rewrite bind_run, bind_run.
    assert (Hl : repository_list (fst (__init__ repo_dir section options w))
                 = repository_list w)
      by apply (stable___init__ (keeps repository_list)).
    pose proof (settings_extended___init__ repo_dir section options w) as Hext.
    destruct (__init__ repo_dir section options w) as [w0 [r|e]] eqn:Hinit;
      cbn [fst snd] in *.
    + cbn [modify fst snd].
      set (w1 := with_repository_list _ _).
      destruct (IH w1) as (added & Hlist & Hlen & Hok & Hmade & Hext1 & Hfail).
      exists (r :: added). split.
      { rewrite Hlist. unfold w1.
        cbn [with_repository_list repository_list].
        rewrite Hl, <- app_assoc. reflexivity. }
      split; [cbn [length]; lia|].
      split; [rewrite Hok; cbn [length]; lia|].
      split.
      { cbn [length take]. constructor; [|exact Hmade].
        apply (made_for_extended w1); [exact Hext1|].
        apply (init_ok_made repo_dir section options w w0 r Hinit). }
      split.
      { etransitivity; [exact Hext|]. exact Hext1. }
      intros e He. destruct (Hfail e He) as (s & o & w2 & Hs & Hr).
      exists s, o, w2. split; [exact Hs | exact Hr].
    + exists []. rewrite app_nil_r.
      split; [exact Hl|]. split; [cbn [length]; lia|].
      split; [split; [discriminate | cbn [length]; lia]|].
      split; [constructor|]. split; [exact Hext|].
      intros e' [= <-]. exists section, options, w.
      split; [reflexivity|]. rewrite Hinit. reflexivity.
Qed.

(** [_read_config] forgets the repositories it had and then asks the
    registry for [debug], [repoDir] and [configFile], in this order: at the
    first that is not registered it raises what the registry raises and
    leaves no repository.  With the registry that [config.py] sets up
    this is [debug], whatever the file holds.  With the three registered,
    it raises and leaves no repository when the file cannot be read or
    cannot be parsed; otherwise it leaves, in the order of the file, the
    repositories of the sections before the first one that fails, which
    are all of them exactly when it returns, and raises what
    [Repository(...)] raised for the failing one. *)
Theorem read_config_outcome conf files w repo_dir0 :
  Git._read_config (registered_by_config repo_dir0) files w
  = (with_repository_list (λ _, []) w, Raise (NonExistentRegistryEntry "debug"))
  ∧ let out := Git._read_config conf files w in
    match debug conf, repoDir conf, configFile conf with
    | None, _, _ =>
        snd out = Raise (NonExistentRegistryEntry "debug")
        ∧ repository_list (fst out) = []
    | Some _, None, _ =>
        snd out = Raise (NonExistentRegistryEntry "repoDir")
        ∧ repository_list (fst out) = []
    | Some _, Some _, None =>
        snd out = Raise (NonExistentRegistryEntry "configFile")
        ∧ repository_list (fst out) = []
    | Some _, Some repo_dir, Some config =>
        match files !! config with
        | None =>
            snd out = Raise (Exception ("Cannot access configuration file: "
                                        +:+ config))
            ∧ repository_list (fst out) = []
        | Some (Raise e) => snd out = Raise e ∧ repository_list (fst out) = []
        | Some (Ok sections) =>
            let made := repository_list (fst out) in
            (length made ≤ length sections)%nat
            ∧ (snd out = Ok tt ↔ length made = length sections)
            ∧ Forall2 (made_for (fst out)) made (take (length made) sections)
            ∧ (∀ e, snd out = Raise e →
                 ∃ section options w0,
                   sections !! length made = Some (section, options)
                   ∧ snd (__init__ repo_dir section options w0) = Raise e)
        end
    end.
Proof.
  split; [reflexivity|].
  cbv zeta. unfold Git._read_config.
  rewrite bind_run. cbn [modify fst snd].
  destruct (debug conf) as [value|]; [|done].
  rewrite bind_run. cbn [registryValue ret fst snd].
  rewrite bind_run. cbn [modify fst snd].
  destruct (repoDir conf) as [repo_dir|]; [|done].
  rewrite bind_run. cbn [registryValue ret fst snd].
  destruct (configFile conf) as [config|]; [|done].
  rewrite bind_run. cbn [registryValue ret fst snd].
  destruct (files !! config) as [[sections|e]|]; [|done..].
  rewrite bind_run. cbn [lift fst snd].
  set (w1 := with_DEBUG _ _).
  destruct (read_sections_run repo_dir sections w1)
    as (added & Hlist & Hlen & Hok & Hmade & _ & Hfail).
  rewrite Hlist. cbn [w1 with_DEBUG with_repository_list repository_list app].
  split; [exact Hlen|]. split; [exact Hok|]. split; [exact Hmade | exact Hfail].
Qed.

(** As [config.py] leaves the registry, the file is not even looked at:
    the repository that was configured before is gone and the exception
    is the one of the registry. *)
Example read_config_as_registered :
  let files : IniFiles := {[ "git.ini" := Ok [("Demo", demo_options)] ]} in
  let out := Git._read_config (registered_by_config "git_repositories") files
               (tracked_world scenario_remote []) in
  snd out = Raise (Exception
                     "'debug' is not a valid entry in 'supybot.plugins.Git'")
  ∧ repository_list (fst out) = [].
Proof. vm_compute. split; reflexivity. Qed.

(** An ini file with one section that lacks its url: the one repository
    that was configured before is gone. *)
Example read_config_bad_section :
  let files : IniFiles :=
    {[ "git.ini" := Ok [("Demo", {[ "short name" := "demo" ]})] ]} in
  let out := Git._read_config demo_settings files (tracked_world scenario_remote []) in
  snd out = Raise (Exception "Section Demo missing required value: url")
  ∧ repository_list (fst out) = [].
Proof. vm_compute. split; reflexivity. Qed.

(** An ini file with the section of the scenario and, after it, a section
    that lacks its url: the repository of the first is there. *)
Example read_config_second_section_bad :
  let files : IniFiles :=
    {[ "git.ini" := Ok [("Demo", demo_options);
                        ("Other", {[ "short name" := "other" ]})] ]} in
  let out := Git._read_config demo_settings files scenario_world in
  snd out = Raise (Exception "Section Other missing required value: url")
  ∧ repository_list (fst out) = [0%nat]
  ∧ (long_name <$> heap (fst out) !! 0%nat) = Some "Demo".
Proof. vm_compute. repeat split. Qed.

(** With the registry of [config.py], [rehash] answers with the warning
    of the registry and polling stays off, and a commit id said in a
    channel makes [_snarf] raise. *)
Example commands_as_registered :
  let w := with_schedule true (Some 120000) (tracked_world scenario_remote
             [mkIrc ["#demo"] [] None]) in
  let conf := registered_by_config "git_repositories" in
  let w' := fst (Git.rehash conf ∅ answering w) in
  outbox <$> ircs w'
  = [[("#demo",
       "Warning: 'debug' is not a valid entry in 'supybot.plugins.Git'")]]
  ∧ fetcher_alive w' = false ∧ scheduled w' = None
  ∧ repository_list w' = []
  ∧ Git._snarf conf 0 "#demo" "c3" w
    = (w, Raise (NonExistentRegistryEntry "enableSnarf")).
Proof. vm_compute. repeat split. Qed.
